(** * ps2emu: record-side event grammar and replay-side scheduler

    A shallow embedding of [src/ps2emu-record.c] and [src/ps2emu-replay.c].
    C strings are [string]s, machine integers are [Z] with their wrap-around
    written out, [GError **] is an optional error slot threaded through the
    calls, and the device endpoint is a small world record with a clock. *)

From Stdlib Require Import ZArith List String Ascii Bool Lia Sorted.
From Stdlib Require Import DecimalString DecimalPos.
Import ListNotations.

Local Open Scope string_scope.
Local Open Scope list_scope.
Local Open Scope Z_scope.

(** ** The parts of libc and GLib the two programs call *)

Module CLib.

Definition chr (c : ascii) : Z := Z.of_N (N_of_ascii c).

(** [isspace] in the C locale: space, and [\t \n \v \f \r]. *)
Definition isspace (c : ascii) : bool :=
  (chr c =? 32) || ((9 <=? chr c) && (chr c <=? 13)).

Definition digit_value (c : ascii) : option Z :=
  let n := chr c in
  if (48 <=? n) && (n <=? 57) then Some (n - 48)
  else if (97 <=? n) && (n <=? 122) then Some (n - 87)
  else if (65 <=? n) && (n <=? 90) then Some (n - 55)
  else None.

Definition digit_in_base (base : Z) (c : ascii) : option Z :=
  match digit_value c with
  | Some d => if d <? base then Some d else None
  | None => None
  end.

Fixpoint skip_space (s : string) : string :=
  match s with
  | String c r => if isspace c then skip_space r else s
  | EmptyString => s
  end.

(** The longest run of digits of [base] at the head of [s]: how many were
    read (on top of [n]), the value accumulated onto [acc], and the rest. *)
Fixpoint scan_digits (base acc : Z) (n : nat) (s : string) : nat * Z * string :=
  match s with
  | String c r =>
      match digit_in_base base c with
      | Some d => scan_digits base (acc * base + d) (S n) r
      | None => (n, acc, s)
      end
  | EmptyString => (n, acc, s)
  end.

(** An optional ['+'] or ['-']: is the number negated, and the rest. *)
Definition scan_sign (s : string) : bool * string :=
  match s with
  | String "-" r => (true, r)
  | String "+" r => (false, r)
  | _ => (false, s)
  end.

(** LP64: [long] and [unsigned long] are 64 bits wide. *)
Definition LONG_MAX : Z := 2 ^ 63 - 1.
Definition LONG_MIN : Z := - 2 ^ 63.
Definition ULONG_MAX : Z := 2 ^ 64 - 1.

(** Two's-complement narrowing to [w] bits. *)
Definition wrap_unsigned (w v : Z) : Z := v mod 2 ^ w.
Definition wrap_signed (w v : Z) : Z :=
  (v + 2 ^ (w - 1)) mod 2 ^ w - 2 ^ (w - 1).

(** What [strtol]/[strtoul] make of a sign and a magnitude: the value, and
    whether [errno] was set to [ERANGE]. *)
Definition clamp_long (neg : bool) (mag : Z) : Z * bool :=
  let v := if neg then - mag else mag in
  if LONG_MAX <? v then (LONG_MAX, true)
  else if v <? LONG_MIN then (LONG_MIN, true)
  else (v, false).

Definition clamp_ulong (neg : bool) (mag : Z) : Z * bool :=
  if ULONG_MAX <? mag then (ULONG_MAX, true)
  else (wrap_unsigned 64 (if neg then - mag else mag), false).

(** [strtol(nptr, NULL, 10)]: leading white space, an optional sign, the
    longest run of decimal digits.  With no digit at all the result is 0 and
    [errno] is left alone (glibc does not report [EINVAL] here); out of the
    range of [long] the result is clamped and [errno] is [ERANGE]. *)
Definition strtol (nptr : string) : Z * bool :=
  let '(neg, s) := scan_sign (skip_space nptr) in
  let '(n, mag, _) := scan_digits 10 0 0 s in
  match n with
  | O => (0, false)
  | S _ => clamp_long neg mag
  end.

(** [g_strv_length (g_strsplit (s, ",", 0))] and its elements: [s] is cut at
    every occurrence of the one-character delimiter; the empty string gives
    the empty vector. *)
Fixpoint split_on (delim : ascii) (cur s : string) : list string :=
  match s with
  | EmptyString => [cur]
  | String c r =>
      if Ascii.eqb c delim then cur :: split_on delim EmptyString r
      else split_on delim (cur ++ String c EmptyString)%string r
  end.

Definition g_strsplit (s : string) (delim : ascii) : list string :=
  match s with
  | EmptyString => []
  | _ => split_on delim EmptyString s
  end.

(** *** [sscanf]

    A format string is read as its list of directives.  The interpreter
    follows glibc: an ordinary character must match, white space in the
    format skips any white space, an integer conversion skips white space,
    reads its number, converts it as [strtol]/[strtoul] do (clamped and
    [errno] set to [ERANGE] out of range) and stores it narrowed to the
    width of its argument, and a scanset conversion reads a non-empty run
    of characters without skipping anything. *)

Inductive int_len := LenChar | LenShort | LenInt | LenLong.

Definition len_bits (l : int_len) : Z :=
  match l with LenChar => 8 | LenShort => 16 | LenInt => 32 | LenLong => 64 end.

Inductive directive :=
| Lit (c : ascii)                 (* an ordinary character *)
| Space                           (* white space in the format *)
| Conv_d (len : int_len)          (* %d %hd %ld *)
| Conv_x (len : int_len)          (* %x %hhx *)
| Conv_set (assign : bool) (width : option nat) (negated : bool)
           (set : list ascii).    (* %[...], %*1[...], %m[^...] *)

Inductive sval := VInt (z : Z) | VStr (s : string).

Record scan_result := {
  sr_count : Z;            (* the return value; EOF is -1 *)
  sr_vals : list sval;     (* what was stored, in argument order *)
  sr_erange : bool         (* errno == ERANGE afterwards *)
}.

(** The number syntax of an integer conversion: sign, then digits; for base 16
    a leading ["0x"] is consumed and only its ['0'] counts as a digit. *)
Definition scan_int (base : Z) (s : string) : option (bool * Z * string) :=
  let '(neg, s1) := scan_sign s in
  let '(n0, s2) :=
    match s1 with
    | String "0" (String c r) =>
        if (base =? 16) && (Ascii.eqb c "x" || Ascii.eqb c "X")
        then (1%nat, r) else (0%nat, s1)
    | _ => (0%nat, s1)
    end in
  let '(n, mag, rest) := scan_digits base 0 n0 s2 in
  match n with
  | O => None
  | S _ => Some (neg, mag, rest)
  end.

Definition in_set (negated : bool) (set : list ascii) (c : ascii) : bool :=
  xorb negated (existsb (Ascii.eqb c) set).

(** The longest prefix of [s] inside the scanset, at most [width] long. *)
Fixpoint scan_set (width : option nat) (negated : bool) (set : list ascii)
         (s : string) : string * string :=
  match width, s with
  | Some O, _ => (EmptyString, s)
  | _, EmptyString => (EmptyString, s)
  | _, String c r =>
      if in_set negated set c then
        let '(m, rest) := scan_set (option_map pred width) negated set r in
        (String c m, rest)
      else (EmptyString, s)
  end.

(** The format is exhausted, or a directive does not match: the return value
    is the number of assignments made so far. *)
Definition scan_stop (vals : list sval) (e : bool) : scan_result :=
  {| sr_count := Z.of_nat (List.length vals); sr_vals := vals; sr_erange := e |}.

(** The input ends where a directive needs a character: [EOF] when nothing
    has been assigned yet. *)
Definition input_failure (vals : list sval) (e : bool) : scan_result :=
  {| sr_count := match vals with [] => -1 | _ => Z.of_nat (List.length vals) end;
     sr_vals := vals; sr_erange := e |}.

Fixpoint scanf_run (fmt : list directive) (inp : string) (vals : list sval)
         (e : bool) : scan_result :=
  match fmt with
  | [] => scan_stop vals e
  | Lit c :: fmt' =>
      match inp with
      | EmptyString => input_failure vals e
      | String d r =>
          if Ascii.eqb c d then scanf_run fmt' r vals e
          else scan_stop vals e
      end
  | Space :: fmt' => scanf_run fmt' (skip_space inp) vals e
  | Conv_d len :: fmt' =>
      match skip_space inp with
      | EmptyString => input_failure vals e
      | s =>
          match scan_int 10 s with
          | None => scan_stop vals e
          | Some (neg, mag, r) =>
              let '(v, e') := clamp_long neg mag in
              scanf_run fmt' r (vals ++ [VInt (wrap_signed (len_bits len) v)])
                        (e || e')
          end
      end
  | Conv_x len :: fmt' =>
      match skip_space inp with
      | EmptyString => input_failure vals e
      | s =>
          match scan_int 16 s with
          | None => scan_stop vals e
          | Some (neg, mag, r) =>
              let '(v, e') := clamp_ulong neg mag in
              scanf_run fmt' r (vals ++ [VInt (wrap_unsigned (len_bits len) v)])
                        (e || e')
          end
      end
  | Conv_set assign width negated set :: fmt' =>
      match inp with
      | EmptyString => input_failure vals e
      | _ =>
          match scan_set width negated set inp with
          | (EmptyString, _) => scan_stop vals e
          | (m, r) =>
              scanf_run fmt' r (if assign then vals ++ [VStr m] else vals) e
          end
      end
  end.

(** [errno = 0; sscanf (str, fmt, ...)]. *)
Definition sscanf (str : string) (fmt : list directive) : scan_result :=
  scanf_run fmt str [] false.

Definition lits (s : string) : list directive :=
  map Lit (list_ascii_of_string s).

(** The kinds of value a format stores, in argument order, and the values
    a run of [sscanf] can have stored: a prefix of them, each of its kind (a
    scanset never stores an empty string). *)
Inductive sty := TInt | TStr.

Fixpoint conv_types (fmt : list directive) : list sty :=
  match fmt with
  | [] => []
  | Conv_d _ :: fmt' | Conv_x _ :: fmt' => TInt :: conv_types fmt'
  | Conv_set true _ _ _ :: fmt' => TStr :: conv_types fmt'
  | _ :: fmt' => conv_types fmt'
  end.

Definition has_sty (v : sval) (t : sty) : Prop :=
  match v, t with
  | VInt _, TInt => True
  | VStr s, TStr => s <> EmptyString
  | _, _ => False
  end.

Fixpoint typed_prefix (vs : list sval) (tys : list sty) : Prop :=
  match vs, tys with
  | [], _ => True
  | v :: vs', t :: tys' => has_sty v t /\ typed_prefix vs' tys'
  | _ :: _, [] => False
  end.

(** The value of a run of decimal digits read from the left onto [acc], and
    a text that does not go on with a decimal digit. *)
Fixpoint decimal_value (d : Decimal.uint) (acc : Z) : Z :=
  match d with
  | Decimal.Nil => acc
  | Decimal.D0 l => decimal_value l (acc * 10 + 0)
  | Decimal.D1 l => decimal_value l (acc * 10 + 1)
  | Decimal.D2 l => decimal_value l (acc * 10 + 2)
  | Decimal.D3 l => decimal_value l (acc * 10 + 3)
  | Decimal.D4 l => decimal_value l (acc * 10 + 4)
  | Decimal.D5 l => decimal_value l (acc * 10 + 5)
  | Decimal.D6 l => decimal_value l (acc * 10 + 6)
  | Decimal.D7 l => decimal_value l (acc * 10 + 7)
  | Decimal.D8 l => decimal_value l (acc * 10 + 8)
  | Decimal.D9 l => decimal_value l (acc * 10 + 9)
  end.

Definition no_digit_head (s : string) : Prop :=
  match s with
  | EmptyString => True
  | String c _ => digit_in_base 10 c = None
  end.

(** [strstr]: the tail of [haystack] from the first occurrence of [needle]. *)
Fixpoint strstr (haystack needle : string) : option string :=
  if String.prefix needle haystack then Some haystack
  else
    match haystack with
    | EmptyString => None
    | String _ r => strstr r needle
    end.

(** [p + n] for a pointer [p] into a string. *)
Fixpoint advance (n : nat) (p : string) : string :=
  match n, p with
  | S n', String _ r => advance n' r
  | _, _ => p
  end.

End CLib.

(** ** ps2emu-record.c *)

Module Record.
Import CLib.

Inductive PS2Error := PS2_ERROR_INPUT | PS2_ERROR_NO_EVENTS.

Record GError := { code : PS2Error; message : string }.

(** [g_set_error]: the slot is filled when it is empty; GLib refuses (with a
    warning) to overwrite an error that is already set. *)
Definition g_set_error (error : option GError) (c : PS2Error) (msg : string)
  : option GError :=
  match error with
  | None => Some {| code := c; message := msg |}
  | Some _ => error
  end.

Inductive PS2EventType :=
| PS2_EVENT_TYPE_COMMAND
| PS2_EVENT_TYPE_PARAMETER
| PS2_EVENT_TYPE_RETURN
| PS2_EVENT_TYPE_KBD_DATA
| PS2_EVENT_TYPE_INTERRUPT.

(** Modelled from the spec: [PS2Event] is declared in [ps2emu-event.h], which
    is not among the sources.  The fields are those the two programs use;
    [time] is a signed 64-bit count of microseconds (read with [%ld]), [data]
    an unsigned byte (read with [%hhx]), [irq] a 16-bit number (read with
    [%hd]) and [port] an [int]. *)
Record PS2Event := {
  time : Z;
  type : PS2EventType;
  data : Z;
  has_data : bool;
  irq : Z;
  port : Z
}.

Definition set_time (v : Z) (e : PS2Event) : PS2Event :=
  {| time := v; type := type e; data := data e; has_data := has_data e;
     irq := irq e; port := port e |}.
Definition set_type (v : PS2EventType) (e : PS2Event) : PS2Event :=
  {| time := time e; type := v; data := data e; has_data := has_data e;
     irq := irq e; port := port e |}.
Definition set_data (v : Z) (e : PS2Event) : PS2Event :=
  {| time := time e; type := type e; data := v; has_data := has_data e;
     irq := irq e; port := port e |}.
Definition set_has_data (v : bool) (e : PS2Event) : PS2Event :=
  {| time := time e; type := type e; data := data e; has_data := v;
     irq := irq e; port := port e |}.
Definition set_irq (v : Z) (e : PS2Event) : PS2Event :=
  {| time := time e; type := type e; data := data e; has_data := has_data e;
     irq := v; port := port e |}.
Definition set_port (v : Z) (e : PS2Event) : PS2Event :=
  {| time := time e; type := type e; data := data e; has_data := has_data e;
     irq := irq e; port := v |}.

(** ["[%ld] %hhx %*1[-<]%*1[->] i8042 (%m[^)])\n"].  A ['-'] that opens a
    scanset stands for itself, so the two sets are [{-,<}] and [{-,>}]. *)
Definition normal_event_format : list directive :=
  [Lit "["; Conv_d LenLong; Lit "]"; Space; Conv_x LenChar; Space;
   Conv_set false (Some 1%nat) false ["-"; "<"]%char;
   Conv_set false (Some 1%nat) false ["-"; ">"]%char;
   Space] ++ lits "i8042" ++
  [Space; Lit "("; Conv_set true None true [")"]%char; Lit ")"; Space].

(** [sscanf] stores through its pointer arguments as it goes: the fields of
    the conversions that succeeded are written even when the call as a whole
    comes back short. *)
Definition store_normal (vals : list sval) (event : PS2Event) : PS2Event :=
  match vals with
  | VInt t :: VInt d :: _ => set_data d (set_time t event)
  | VInt t :: _ => set_time t event
  | _ => event
  end.

Definition nl : string := String "010" EmptyString.

Definition ERANGE_str : string := "Numerical result out of range".

(** [parse_normal_event]: the return value, the event as the call leaves it,
    and the error slot. *)
Definition parse_normal_event (start_pos : string) (event : PS2Event)
           (error : option GError) : bool * PS2Event * option GError :=
  let r := sscanf start_pos normal_event_format in
  let event := store_normal (sr_vals r) event in
  if sr_erange r || negb (sr_count r =? 3) then (false, event, error)
  else
    match sr_vals r with
    | [_; _; VStr type_str] =>
        let type_str_args := g_strsplit type_str "," in
        if String.eqb (nth 0 type_str_args EmptyString) "interrupt" then
          let event := set_type PS2_EVENT_TYPE_INTERRUPT event in
          let type_str_argc := Z.of_nat (List.length type_str_args) in
          if type_str_argc <? 3 then
            (false, event,
             g_set_error error PS2_ERROR_INPUT
               "Got interrupt event, but had less arguments then expected")
          else
            let '(p, e1) := strtol (nth 1 type_str_args EmptyString) in
            let event := set_port (wrap_signed 32 p) event in
            if e1 then
              (false, event,
               g_set_error error PS2_ERROR_INPUT
                 ("Failed to parse port number from interrupt event: "
                    ++ ERANGE_str ++ nl))
            else
              let '(i, e2) := strtol (nth 2 type_str_args EmptyString) in
              let event := set_irq (wrap_signed 16 i) event in
              if e2 then
                (false, event,
                 g_set_error error PS2_ERROR_INPUT
                   ("Failed to parse IRQ from interrupt event: "
                      ++ ERANGE_str ++ nl))
              else (true, set_has_data true event, error)
        else
          let event :=
            if String.eqb type_str "command"
            then set_type PS2_EVENT_TYPE_COMMAND event
            else if String.eqb type_str "parameter"
            then set_type PS2_EVENT_TYPE_PARAMETER event
            else if String.eqb type_str "return"
            then set_type PS2_EVENT_TYPE_RETURN event
            else if String.eqb type_str "kbd-data"
            then set_type PS2_EVENT_TYPE_KBD_DATA event
            else event in
          (true, set_has_data true event, error)
    | _ => (false, event, error)
    end.

(** ["[%ld] Interrupt %hd, without any data\n"]. *)
Definition interrupt_without_data_format : list directive :=
  [Lit "["; Conv_d LenLong; Lit "]"; Space] ++ lits "Interrupt" ++
  [Space; Conv_d LenShort; Lit ","; Space] ++ lits "without" ++
  [Space] ++ lits "any" ++ [Space] ++ lits "data" ++ [Space].

Definition store_without_data (vals : list sval) (event : PS2Event) : PS2Event :=
  match vals with
  | VInt t :: VInt i :: _ => set_irq i (set_time t event)
  | VInt t :: _ => set_time t event
  | _ => event
  end.

Definition parse_interrupt_without_data (start_pos : string) (event : PS2Event)
           (error : option GError) : bool * PS2Event * option GError :=
  let r := sscanf start_pos interrupt_without_data_format in
  let event := store_without_data (sr_vals r) event in
  if sr_erange r || negb (sr_count r =? 2) then (false, event, error)
  else
    (true, set_has_data false (set_type PS2_EVENT_TYPE_INTERRUPT event), error).

Definition PS2EventType_eqb (a b : PS2EventType) : bool :=
  match a, b with
  | PS2_EVENT_TYPE_COMMAND, PS2_EVENT_TYPE_COMMAND
  | PS2_EVENT_TYPE_PARAMETER, PS2_EVENT_TYPE_PARAMETER
  | PS2_EVENT_TYPE_RETURN, PS2_EVENT_TYPE_RETURN
  | PS2_EVENT_TYPE_KBD_DATA, PS2_EVENT_TYPE_KBD_DATA
  | PS2_EVENT_TYPE_INTERRUPT, PS2_EVENT_TYPE_INTERRUPT => true
  | _, _ => false
  end.

Definition KEYBOARD_PORT : Z := 0.

Section ProcessEvent.

(** [ps2_event_to_string] lives in [ps2emu-event.c], which is not among the
    sources: the canonical text of an event is a parameter here. *)
Variable ps2_event_to_string : PS2Event -> string.

(** [process_event], with the two static flags and standard output passed
    explicitly.  The result is the return value and the lines printed so
    far. *)
Definition process_event (record_kbd record_aux : bool) (event : PS2Event)
           (stdout : list string) : bool * list string :=
  if negb record_kbd
     && ((PS2EventType_eqb (type event) PS2_EVENT_TYPE_INTERRUPT
          && (port event =? KEYBOARD_PORT))
         || PS2EventType_eqb (type event) PS2_EVENT_TYPE_KBD_DATA)
  then (true, stdout)
  else if negb record_aux
          && (if PS2EventType_eqb (type event) PS2_EVENT_TYPE_INTERRUPT
              then negb (port event =? KEYBOARD_PORT)
              else negb (PS2EventType_eqb (type event) PS2_EVENT_TYPE_KBD_DATA))
  then (true, stdout)
  else (true, stdout ++ [(ps2_event_to_string event ++ nl)%string]).

End ProcessEvent.

(** The payloads of the data-bearing shape: [sscanf] made its three
    assignments and left [errno] at 0. *)
Definition matches_normal_shape (start_pos : string) : bool :=
  let r := sscanf start_pos normal_event_format in
  negb (sr_erange r) && (sr_count r =? 3).

(** What [%m[^)]] stored, and the kind: the text before the first comma. *)
Definition scanned_type_str (start_pos : string) : string :=
  match sr_vals (sscanf start_pos normal_event_format) with
  | [_; _; VStr type_str] => type_str
  | _ => EmptyString
  end.

Definition event_args (start_pos : string) : list string :=
  g_strsplit (scanned_type_str start_pos) ",".

Definition event_kind (start_pos : string) : string :=
  nth 0 (event_args start_pos) EmptyString.

Definition known_kinds : list string :=
  ["interrupt"; "command"; "parameter"; "return"; "kbd-data"].

(** An event with every field cleared. *)
Definition ev0 : PS2Event :=
  {| time := 0; type := PS2_EVENT_TYPE_COMMAND; data := 0; has_data := false;
     irq := 0; port := 0 |}.

End Record.

(** ** ps2emu-replay.c *)

Module Replay.
Import CLib.
Export Record(PS2Event, PS2EventType, time, type, data, has_data, irq, port).

Inductive ErrorCode :=
| PS2EMU_ERROR_INPUT
| PS2EMU_ERROR_NO_EVENTS
| G_IO_CHANNEL_ERROR_FAILED.

Record GError := { code : ErrorCode; message : string }.

Definition g_set_error (error : option GError) (c : ErrorCode) (msg : string)
  : option GError :=
  match error with
  | None => Some {| code := c; message := msg |}
  | Some _ => error
  end.

Definition g_prefix_error (error : option GError) (prefix : string)
  : option GError :=
  match error with
  | Some e => Some {| code := code e; message := (prefix ++ message e)%string |}
  | None => None
  end.

Inductive GIOStatus :=
| G_IO_STATUS_ERROR
| G_IO_STATUS_NORMAL
| G_IO_STATUS_EOF
| G_IO_STATUS_AGAIN.

Definition GIOStatus_eqb (a b : GIOStatus) : bool :=
  match a, b with
  | G_IO_STATUS_ERROR, G_IO_STATUS_ERROR
  | G_IO_STATUS_NORMAL, G_IO_STATUS_NORMAL
  | G_IO_STATUS_EOF, G_IO_STATUS_EOF
  | G_IO_STATUS_AGAIN, G_IO_STATUS_AGAIN => true
  | _, _ => false
  end.

(** A value of the C program, or undefined behaviour. *)
Inductive result (A : Type) :=
| Ret (a : A)
| Undefined.
Arguments Ret {A} a.
Arguments Undefined {A}.

(** *** The device endpoint and the clock

    The environment is an oracle consulted once per library call: how long
    the call takes (for [g_usleep], by how much it oversleeps), the status
    the call comes back with, and for a read the byte that arrives.
    Durations are naturals, so the monotonic clock never runs backwards and
    a sleep never returns early ([g_usleep] restarts [nanosleep] when a
    signal interrupts it).

    The status is what GLib's unix channel makes of the system call: normal;
    an error, which comes with a [GError]; end of file, when [read] returns
    no byte; or again, when the descriptor would block.  The last two come
    without a [GError]. *)

Record step := { lat : N; status : GIOStatus; byte : Z }.

Definition quiet : step :=
  {| lat := 0; status := G_IO_STATUS_NORMAL; byte := 0 |}.

(** The call went through. *)
Definition ok (s : step) : bool := GIOStatus_eqb (status s) G_IO_STATUS_NORMAL.

Inductive cmd_type :=
| PS2EMU_CMD_BEGIN
| PS2EMU_CMD_SET_PORT_TYPE
| PS2EMU_CMD_SEND_INTERRUPT.

(** [struct ps2emu_cmd]: the two bytes of an outbound frame. *)
Record ps2emu_cmd := { cmd : cmd_type; cmd_data : Z }.

Record World := {
  now : Z;                          (* g_get_monotonic_time, microseconds *)
  oracle : list step;
  frames : list (Z * ps2emu_cmd);   (* frames written, with the time of the
                                       write, oldest first *)
  slept : list Z;                   (* the arguments of g_usleep, oldest first *)
  stdout : list string
}.

Definition next (w : World) : step * World :=
  match oracle w with
  | [] => (quiet, w)
  | s :: o =>
      (s, {| now := now w + Z.of_N (lat s); oracle := o; frames := frames w;
             slept := slept w; stdout := stdout w |})
  end.

Definition g_get_monotonic_time (w : World) : Z * World :=
  let '(_, w) := next w in (now w, w).

Definition g_usleep (microseconds : Z) (w : World) : World :=
  let '(_, w) := next w in
  {| now := now w + microseconds; oracle := oracle w; frames := frames w;
     slept := slept w ++ [microseconds]; stdout := stdout w |}.

Definition printf (line : string) (w : World) : World :=
  {| now := now w; oracle := oracle w; frames := frames w; slept := slept w;
     stdout := stdout w ++ [line] |}.

Definition io_failed : GError :=
  {| code := G_IO_CHANNEL_ERROR_FAILED; message := "Input/output error" |}.

(** [g_io_channel_write_chars] of one frame on the unbuffered device channel.
    GLib's entry checks refuse a call whose error slot is already filled.
    A write has no end of file: its status is normal, error or again, and
    an oracle step that says end of file is taken as again. *)
Definition g_io_channel_write_chars (c : ps2emu_cmd) (w : World)
           (error : option GError) : GIOStatus * World * option GError :=
  match error with
  | Some _ => (G_IO_STATUS_ERROR, w, error)
  | None =>
      let '(s, w) := next w in
      match status s with
      | G_IO_STATUS_NORMAL =>
          (G_IO_STATUS_NORMAL,
           {| now := now w; oracle := oracle w;
              frames := frames w ++ [(now w, c)];
              slept := slept w; stdout := stdout w |}, None)
      | G_IO_STATUS_ERROR => (G_IO_STATUS_ERROR, w, Some io_failed)
      | G_IO_STATUS_EOF | G_IO_STATUS_AGAIN => (G_IO_STATUS_AGAIN, w, None)
      end
  end.

(** [g_io_channel_read_chars] of one byte.  Only an error fills the slot:
    end of file and again leave it empty, and store no byte. *)
Definition g_io_channel_read_chars (w : World) (error : option GError)
  : GIOStatus * Z * World * option GError :=
  match error with
  | Some _ => (G_IO_STATUS_ERROR, 0, w, error)
  | None =>
      let '(s, w) := next w in
      match status s with
      | G_IO_STATUS_NORMAL =>
          (G_IO_STATUS_NORMAL, wrap_unsigned 8 (byte s), w, None)
      | G_IO_STATUS_ERROR => (G_IO_STATUS_ERROR, 0, w, Some io_failed)
      | G_IO_STATUS_EOF => (G_IO_STATUS_EOF, 0, w, None)
      | G_IO_STATUS_AGAIN => (G_IO_STATUS_AGAIN, 0, w, None)
      end
  end.

Definition send_ps2emu_cmd (w : World) (type : cmd_type) (data : Z)
           (error : option GError) : GIOStatus * World * option GError :=
  g_io_channel_write_chars {| cmd := type; cmd_data := data |} w error.

Definition simulate_interrupt (w : World) (start_time : Z) (event : PS2Event)
           (error : option GError) : bool * World * option GError :=
  let '(t, w) := g_get_monotonic_time w in
  let current_time := t - start_time in
  let w := if current_time <? time event
           then g_usleep (time event - current_time) w else w in
  let '(rc, w, error) :=
    send_ps2emu_cmd w PS2EMU_CMD_SEND_INTERRUPT (data event) error in
  if negb (GIOStatus_eqb rc G_IO_STATUS_NORMAL) then (false, w, error)
  else (true, w, error).

(** [%hhx] of a byte: lower-case hexadecimal without padding. *)
Definition hex_digit (d : Z) : string :=
  String (ascii_of_N (Z.to_N (if d <? 10 then 48 + d else 87 + d))) EmptyString.

Definition hhx (b : Z) : string :=
  let b := wrap_unsigned 8 b in
  if b <? 16 then hex_digit b
  else (hex_digit (b / 16) ++ hex_digit (b mod 16))%string.

Definition simulate_receive (w : World) (event : PS2Event)
           (error : option GError) : bool * World * option GError :=
  let '(rc, data, w, error) := g_io_channel_read_chars w error in
  if negb (GIOStatus_eqb rc G_IO_STATUS_NORMAL) then (false, w, error)
  else
    let w :=
      if Record.data event =? data
      then printf ("Received expected data " ++ hhx data ++ Record.nl) w
      else printf ("Expected " ++ hhx (Record.data event) ++ ", received "
                     ++ hhx data ++ Record.nl) w in
    (true, w, error).

(** The [for] loop of [replay_event_list]. *)
Fixpoint replay_loop (start_time : Z) (l : list PS2Event) (w : World)
         (error : option GError) : bool * World * option GError :=
  match l with
  | [] => (true, w, error)
  | event :: l' =>
      if Record.PS2EventType_eqb (type event) Record.PS2_EVENT_TYPE_INTERRUPT
      then
        let '(r, w, error) := simulate_interrupt w start_time event error in
        if negb r then (false, w, error)
        else replay_loop start_time l' w error
      else
        let '(r, w, error) := simulate_receive w event error in
        if negb r then (false, w, error)
        else replay_loop start_time l' w error
  end.

(** The interrupt events of a sequence, in order. *)
Definition is_interrupt (event : PS2Event) : bool :=
  Record.PS2EventType_eqb (type event) Record.PS2_EVENT_TYPE_INTERRUPT.

Definition interrupts (l : list PS2Event) : list PS2Event :=
  filter is_interrupt l.

(** A frame that carries the data byte of interrupt [event] and was written
    no earlier than [time event] microseconds after [start_time]. *)
Definition sent_on_time (start_time : Z) (event : PS2Event)
           (f : Z * ps2emu_cmd) : Prop :=
  snd f = {| cmd := PS2EMU_CMD_SEND_INTERRUPT; cmd_data := data event |}
  /\ start_time + time event <= fst f.

(** The world as [simulate_interrupt] has it when it calls
    [send_ps2emu_cmd]: after the clock was read and the sleep, if any. *)
Definition paced (w : World) (start_time : Z) (event : PS2Event) : World :=
  let '(t, w) := g_get_monotonic_time w in
  let current_time := t - start_time in
  if current_time <? time event
  then g_usleep (time event - current_time) w else w.

Definition replay_event_list (w : World) (event_list : list PS2Event)
           (error : option GError) : bool * World * option GError :=
  let '(start_time, w) := g_get_monotonic_time w in
  replay_loop start_time event_list w error.

(** *** Reading the log *)

Inductive LineType := LINE_TYPE_EVENT | LINE_TYPE_SECTION | LINE_TYPE_INVALID.

Inductive LogSectionType :=
| SECTION_TYPE_INIT
| SECTION_TYPE_MAIN
| SECTION_TYPE_ERROR.

(** The input channel: the lines still to be read; [ChFail] is a read that
    fails.  Past the last item the channel is at end of file. *)
Inductive chan_item := ChLine (line : string) | ChFail (err : GError).
Definition channel := list chan_item.

(** [g_io_channel_read_line].  As for the other channel calls, GLib's entry
    checks return [G_IO_STATUS_ERROR] at once when the error slot is already
    filled. *)
Definition g_io_channel_read_line (ch : channel) (error : option GError)
  : GIOStatus * string * channel * option GError :=
  match error with
  | Some _ => (G_IO_STATUS_ERROR, EmptyString, ch, error)
  | None =>
      match ch with
      | [] => (G_IO_STATUS_EOF, EmptyString, [], None)
      | ChLine line :: ch' => (G_IO_STATUS_NORMAL, line, ch', None)
      | ChFail err :: ch' => (G_IO_STATUS_ERROR, EmptyString, ch', Some err)
      end
  end.

(** The three static lists. *)
Record Lists := {
  event_list : list PS2Event;
  init_event_list : list PS2Event;
  main_event_list : list PS2Event
}.

Definition no_events : Lists :=
  {| event_list := []; init_event_list := []; main_event_list := [] |}.

(** What [event_list_dest] can point to. *)
Inductive Dest := DestEventList | DestInitEventList | DestMainEventList.

(** The store through [event_list_dest]: [g_slist_prepend] on the list it
    points to. *)
Definition prepend_at (d : Dest) (event : PS2Event) (g : Lists) : Lists :=
  match d with
  | DestEventList =>
      {| event_list := event :: event_list g;
         init_event_list := init_event_list g;
         main_event_list := main_event_list g |}
  | DestInitEventList =>
      {| event_list := event_list g;
         init_event_list := event :: init_event_list g;
         main_event_list := main_event_list g |}
  | DestMainEventList =>
      {| event_list := event_list g;
         init_event_list := init_event_list g;
         main_event_list := event :: main_event_list g |}
  end.

(** The reversals after the loop. *)
Definition reverse_lists (log_version : Z) (g : Lists) : Lists :=
  if log_version >=? 1 then
    {| event_list := event_list g;
       init_event_list := rev (init_event_list g);
       main_event_list := rev (main_event_list g) |}
  else
    {| event_list := rev (event_list g);
       init_event_list := init_event_list g;
       main_event_list := main_event_list g |}.

(** ["# ps2emu-record V%d\\n"]. *)
Definition version_format : list directive :=
  [Lit "#"; Space] ++ lits "ps2emu-record" ++ [Space; Lit "V"; Conv_d LenInt; Space].

(** [parse_log_version].  [uninit] is whatever the local [log_version] holds
    before [sscanf] stores into it; it is returned when [sscanf] comes back
    with [EOF]. *)
Definition parse_log_version (uninit : Z) (ch : channel)
           (error : option GError) : Z * channel * option GError :=
  let '(rc, line, ch, error) := g_io_channel_read_line ch error in
  if negb (GIOStatus_eqb rc G_IO_STATUS_NORMAL) then
    (-1, ch,
     if GIOStatus_eqb rc G_IO_STATUS_EOF
     then g_set_error error PS2EMU_ERROR_NO_EVENTS "Reached unexpected EOF"
     else error)
  else
    let r := sscanf line version_format in
    if (sr_count r =? 0) || sr_erange r then
      (-1, ch, g_set_error error PS2EMU_ERROR_INPUT "Invalid log file version")
    else
      (match sr_vals r with VInt v :: _ => v | _ => uninit end, ch, error).


Section Parse.

(** [get_line_type] (ps2emu-line.h), [ps2_event_from_line] (ps2emu-event.h)
    and [section_type_from_line] (ps2emu-section.h) are declared in headers
    that are not among the sources.  They are parameters: each takes the text
    and the error slot, and returns its value with the slot as it leaves it;
    [get_line_type] also returns what it stores in [msg_start]. *)
Variable get_line_type :
  string -> option GError -> LineType * string * option GError.
Variable ps2_event_from_line :
  string -> option GError -> option PS2Event * option GError.
Variable section_type_from_line :
  string -> option GError -> LogSectionType * option GError.

(** The [while] loop of [parse_events] and what follows it.  The recursion is
    on the channel, so the read of the loop condition is written out in place.
    [dest] is [event_list_dest]: [None] until the first assignment.  The
    result is the return value, the unread rest of the channel, the three
    lists and the error slot; storing through the unassigned pointer is
    undefined. *)
Fixpoint parse_loop (log_version : Z) (ch : channel) (dest : option Dest)
         (g : Lists) (error : option GError) {struct ch}
  : result (bool * channel * Lists * option GError) :=
  match error with
  | Some _ => Ret (false, ch, g, error)
  | None =>
      match ch with
      | [] => Ret (true, [], reverse_lists log_version g, None)
      | ChFail err :: ch' => Ret (false, ch', g, Some err)
      | ChLine line :: ch' =>
          let '(line_type, msg_start, dest, error) :=
            if log_version <? 1
            then (LINE_TYPE_EVENT, line, Some DestEventList, None)
            else let '(lt, ms, error) := get_line_type line None in
                 (lt, ms, dest, error) in
          match line_type with
          | LINE_TYPE_EVENT =>
              let '(event, error) := ps2_event_from_line msg_start error in
              match event with
              | None =>
                  match error with
                  | None => parse_loop log_version ch' dest g error
                  | Some _ => Ret (false, ch', g, error)
                  end
              | Some event =>
                  match dest with
                  | None => Undefined
                  | Some d =>
                      parse_loop log_version ch' dest (prepend_at d event g)
                                 error
                  end
              end
          | LINE_TYPE_SECTION =>
              let '(section_type, error) :=
                section_type_from_line msg_start error in
              match section_type with
              | SECTION_TYPE_INIT =>
                  parse_loop log_version ch' (Some DestInitEventList) g error
              | SECTION_TYPE_MAIN =>
                  parse_loop log_version ch' (Some DestMainEventList) g error
              | SECTION_TYPE_ERROR => Ret (false, ch', g, error)
              end
          | LINE_TYPE_INVALID => Ret (false, ch', g, error)
          end
      end
  end.

Definition parse_events (ch : channel) (log_version : Z) (g : Lists)
           (error : option GError)
  : result (bool * channel * Lists * option GError) :=
  parse_loop log_version ch None g error.

(** *** [main] *)

Definition SERIO_8042 : Z := 1.

Record Exit := {
  exit_code : Z;
  stderr : list string;
  world : World;
  lists : Lists;
  unread : channel
}.

(** The [error:] label.  It prints [error->message]: with an empty slot that
    is a null dereference. *)
Definition fail (error : option GError) (w : World) (g : Lists)
           (ch : channel) : result Exit :=
  match error with
  | Some e =>
      Ret {| exit_code := 1;
             stderr := [("Error: " ++ message e ++ Record.nl)%string];
             world := w; lists := g; unread := ch |}
  | None => Undefined
  end.

(** Opening [/dev/ps2emu] and [g_io_channel_set_encoding]: one oracle step
    each. *)
Definition device_call (w : World) (error : option GError)
  : bool * World * option GError :=
  let '(s, w) := next w in
  if ok s then (true, w, error) else (false, w, g_set_error error G_IO_CHANNEL_ERROR_FAILED "No such device").

Definition dec (z : Z) : string := NilZero.string_of_int (Z.to_int z).

Definition too_new (log_version supported : Z) : string :=
  ("Log version is too new (found " ++ dec log_version
     ++ ", we only support up to " ++ dec supported ++ ")")%string.

(** [main] once the options are parsed.  [PS2EMU_LOG_VERSION] comes from a
    header that is not among the sources and is a parameter; [file] is what
    opening [argv[1]] gives. *)
Definition main (PS2EMU_LOG_VERSION uninit : Z) (argv1 : string)
           (file : channel + GError) (w : World) : result Exit :=
  match file with
  | inr err =>
      fail (g_prefix_error (Some err) ("While opening " ++ argv1 ++ ": "))
           w no_events []
  | inl input_channel =>
      let '(log_version, ch, error) :=
        parse_log_version uninit input_channel None in
      if log_version >? PS2EMU_LOG_VERSION then
        fail (g_set_error error PS2EMU_ERROR_INPUT
                (too_new log_version PS2EMU_LOG_VERSION))
             w no_events ch
      else
        match parse_events ch log_version no_events error with
        | Undefined => Undefined
        | Ret (false, ch, g, error) => fail error w g ch
        | Ret (true, ch, g, error) =>
            let '(r, w, error) := device_call w error in
            if negb r
            then fail (g_prefix_error error "While opening /dev/ps2emu: ")
                      w g ch
            else
            let '(r, w, error) := device_call w error in
            if negb r
            then fail (g_prefix_error error "While opening /dev/ps2emu: ")
                      w g ch
            else
            let '(rc, w, error) :=
              send_ps2emu_cmd w PS2EMU_CMD_SET_PORT_TYPE SERIO_8042 error in
            if negb (GIOStatus_eqb rc G_IO_STATUS_NORMAL)
            then fail (g_prefix_error error
                         "While setting port type on /dev/ps2emu: ") w g ch
            else
            let '(rc, w, error) :=
              send_ps2emu_cmd w PS2EMU_CMD_BEGIN SERIO_8042 error in
            if negb (GIOStatus_eqb rc G_IO_STATUS_NORMAL)
            then fail (g_prefix_error error
                         "While starting device on /dev/ps2emu: ") w g ch
            else
            let done w :=
              Ret {| exit_code := 0; stderr := []; world := w; lists := g;
                     unread := ch |} in
            if log_version =? 0 then
              let '(r, w, error) := replay_event_list w (event_list g) error in
              if negb r then fail error w g ch else done w
            else
              let w :=
                printf ("Replaying initialization sequence..." ++ Record.nl) w in
              let '(r, w, error) :=
                replay_event_list w (init_event_list g) error in
              if negb r then fail error w g ch
              else
                let w := printf ("Replaying event sequence..." ++ Record.nl) w in
                let '(r, w, error) :=
                  replay_event_list w (main_event_list g) error in
                if negb r then fail error w g ch else done w
        end
  end.

(** *** The section rules in the spec's words

    A line of a versioned log, as the three classifiers see it with an empty
    error slot. *)

Inductive SectionTag := Init | Main.

Inductive Item :=
| ItEvent (e : PS2Event)     (* an event line that yields an event *)
| ItSkip                     (* an event line that is passed over *)
| ItMarker (t : SectionTag)  (* a section line *)
| ItBad.                     (* anything that stops the parse *)

Definition classify (line : string) : Item :=
  let '(lt, ms, error) := get_line_type line None in
  match lt with
  | LINE_TYPE_EVENT =>
      match ps2_event_from_line ms error with
      | (Some e, None) => ItEvent e
      | (None, None) => ItSkip
      | _ => ItBad
      end
  | LINE_TYPE_SECTION =>
      match section_type_from_line ms error with
      | (SECTION_TYPE_INIT, None) => ItMarker Init
      | (SECTION_TYPE_MAIN, None) => ItMarker Main
      | _ => ItBad
      end
  | LINE_TYPE_INVALID => ItBad
  end.

(** A well-formed body: no line stops the parse, and every event comes after
    a section marker.  [cur] is the most recent marker. *)
Fixpoint well_formed (cur : option SectionTag) (lines : list string) : bool :=
  match lines with
  | [] => true
  | l :: r =>
      match classify l with
      | ItEvent _ =>
          match cur with Some _ => well_formed cur r | None => false end
      | ItSkip => well_formed cur r
      | ItMarker t => well_formed (Some t) r
      | ItBad => false
      end
  end.

(** The events of the body in input order, each with the most recent marker
    before it. *)
Fixpoint tag_events (cur : option SectionTag) (lines : list string)
  : list (SectionTag * PS2Event) :=
  match lines with
  | [] => []
  | l :: r =>
      match classify l, cur with
      | ItEvent e, Some t => (t, e) :: tag_events cur r
      | ItMarker t, _ => tag_events (Some t) r
      | _, _ => tag_events cur r
      end
  end.

Definition SectionTag_eqb (a b : SectionTag) : bool :=
  match a, b with
  | Init, Init | Main, Main => true
  | _, _ => false
  end.

Definition select (t : SectionTag) (tagged : list (SectionTag * PS2Event))
  : list PS2Event :=
  map snd (filter (fun p => SectionTag_eqb (fst p) t) tagged).

(** The sequence of section [t]: its events, in input order. *)
Definition sequence (t : SectionTag) (lines : list string) : list PS2Event :=
  select t (tag_events None lines).

(** The pointer that corresponds to the most recent marker, and the lists
    after the tagged events have been pushed in order. *)
Definition dest_of (cur : option SectionTag) : option Dest :=
  match cur with
  | None => None
  | Some Init => Some DestInitEventList
  | Some Main => Some DestMainEventList
  end.

Definition push (g : Lists) (p : SectionTag * PS2Event) : Lists :=
  match fst p with
  | Init => prepend_at DestInitEventList (snd p) g
  | Main => prepend_at DestMainEventList (snd p) g
  end.

(** An event line that yields an event, whatever it does to the error slot,
    and an event line that is passed over. *)
Definition event_line (line : string) : bool :=
  let '(lt, ms, error) := get_line_type line None in
  match lt with
  | LINE_TYPE_EVENT =>
      match ps2_event_from_line ms error with
      | (Some _, _) => true
      | _ => false
      end
  | _ => false
  end.

Definition skipped_line (line : string) : bool :=
  match classify line with ItSkip => true | _ => false end.

End Parse.

(** *** Classifiers for concrete logs *)

(** Modelled from the spec: [get_line_type] is not among the sources.  The
    line classifier of section 4.2: the first of the two source prefixes
    found anywhere in the line, tried in a fixed order, decides the kind of
    line, and the payload is what follows the prefix. *)
Definition spec_get_line_type (line : string) (error : option GError)
  : LineType * string * option GError :=
  match strstr line "i8042: " with
  | Some p => (LINE_TYPE_EVENT, advance 7 p, error)
  | None =>
      match strstr line "ps2emu: " with
      | Some p => (LINE_TYPE_SECTION, advance 8 p, error)
      | None =>
          (LINE_TYPE_INVALID, EmptyString,
           g_set_error error PS2EMU_ERROR_INPUT "Invalid line")
      end
  end.

(** Modelled from the spec: [section_type_from_line] is not among the
    sources.  Section markers are the keywords [Init] and [Main]; anything
    else is a hard failure. *)
Definition spec_section_type_from_line (msg_start : string)
           (error : option GError) : LogSectionType * option GError :=
  if String.prefix "Init" msg_start then (SECTION_TYPE_INIT, error)
  else if String.prefix "Main" msg_start then (SECTION_TYPE_MAIN, error)
  else (SECTION_TYPE_ERROR,
        g_set_error error PS2EMU_ERROR_INPUT "Invalid section type").

(** Modelled from the spec: [ps2_event_from_line] is not among the sources.
    An event line carries one of the two event shapes of section 4.3, tried
    in order; a line that matches neither is passed over, a structural error
    is reported. *)
Definition spec_ps2_event_from_line (msg_start : string)
           (error : option GError) : option PS2Event * option GError :=
  match Record.parse_normal_event msg_start Record.ev0 None with
  | (true, event, _) => (Some event, error)
  | (false, _, Some e) =>
      (None, g_set_error error PS2EMU_ERROR_INPUT (Record.message e))
  | (false, _, None) =>
      match Record.parse_interrupt_without_data msg_start Record.ev0 None with
      | (true, event, _) => (Some event, error)
      | (false, _, _) => (None, error)
      end
  end.

(** A version-1 body: two events of the initialization section, then one of
    the main section. *)
Definition sample_body : list string :=
  [("ps2emu: Init" ++ Record.nl)%string;
   ("i8042: [1000] 5f <- i8042 (interrupt,0,1)" ++ Record.nl)%string;
   ("i8042: [2000] f4 -> i8042 (kbd-data)" ++ Record.nl)%string;
   ("ps2emu: Main" ++ Record.nl)%string;
   ("i8042: [3000] fa <- i8042 (interrupt,1,12)" ++ Record.nl)%string].

(** A body in the legacy form: event lines without source prefixes. *)
Definition sample_legacy_body : list string :=
  [("[1000] 5f <- i8042 (interrupt,0,1)" ++ Record.nl)%string;
   ("[2000] f4 -> i8042 (kbd-data)" ++ Record.nl)%string].

Definition idle : World :=
  {| now := 0; oracle := []; frames := []; slept := []; stdout := [] |}.

(** Two interrupt events recorded at 0 and at 50000 microseconds, and a
    world in which the clock read of the first event takes 10 microseconds. *)
Definition interrupt_at (t d : Z) : PS2Event :=
  {| time := t; type := Record.PS2_EVENT_TYPE_INTERRUPT; data := d;
     has_data := true; irq := 12; port := 1 |}.

Definition two_interrupts : list PS2Event :=
  [interrupt_at 0 1; interrupt_at 50000 2].

Definition slow_first_read : World :=
  {| now := 0;
     oracle := [quiet; {| lat := 10; status := G_IO_STATUS_NORMAL; byte := 0 |}];
     frames := []; slept := []; stdout := [] |}.

(** A receive event, and worlds in which the device answers with another
    byte, fails the read, or fails the write. *)
Definition return_of (t d : Z) : PS2Event :=
  {| time := t; type := Record.PS2_EVENT_TYPE_RETURN; data := d;
     has_data := true; irq := 0; port := 0 |}.

Definition answers (b : Z) : World :=
  {| now := 0;
     oracle := [{| lat := 0; status := G_IO_STATUS_NORMAL; byte := b |}];
     frames := []; slept := []; stdout := [] |}.

Definition broken : World :=
  {| now := 0;
     oracle := [{| lat := 0; status := G_IO_STATUS_ERROR; byte := 0 |}];
     frames := []; slept := []; stdout := [] |}.

Definition broken_write : World :=
  {| now := 0;
     oracle := [quiet; {| lat := 0; status := G_IO_STATUS_ERROR; byte := 0 |}];
     frames := []; slept := []; stdout := [] |}.

(** A device on which a read gets no byte: at once, and as the ninth call
    of a run, which in a run of [main] over [sample_body] is the read of
    the first receive event. *)
Definition no_byte : step := {| lat := 0; status := G_IO_STATUS_EOF; byte := 0 |}.

Definition at_eof : World :=
  {| now := 0; oracle := [no_byte];
     frames := []; slept := []; stdout := [] |}.

Definition eof_at_first_read : World :=
  {| now := 0; oracle := repeat quiet 8 ++ [no_byte];
     frames := []; slept := []; stdout := [] |}.

Definition version_line (v : string) : string :=
  ("# ps2emu-record V" ++ v ++ Record.nl)%string.

(** A log that declares version 4294967297, which is 2^32 + 1. *)
Definition beyond_int_log : channel :=
  map ChLine (version_line "4294967297" :: sample_body).

End Replay.

(** ** ps2emu-record.c: reading the kernel log *)

Module Pipeline.
Import CLib Record.
Import Replay(GIOStatus, G_IO_STATUS_ERROR, G_IO_STATUS_NORMAL,
              G_IO_STATUS_EOF, G_IO_STATUS_AGAIN).

(** The quarks of the two search strings. *)
Inductive GQuark := I8042_OUTPUT | PS2EMU_OUTPUT.

(** What the error slot can hold in [record]: an error of the program's own
    domain, or one reported by GLib for the channel. *)
Inductive Error := Ps2emu (e : GError) | Glib (msg : string).

(** [/dev/kmsg] as far as it is read: lines, and reads that fail.  Past the
    last item the channel is at end of file. *)
Inductive kitem := KLine (line : string) | KFail (msg : string).
Definition kmsg := list kitem.

(** The [for] loop over [search_strings] and the move of [start_pos] past
    the string that was found. *)
Definition find_module (current_line : string) : option (GQuark * string) :=
  match strstr current_line "i8042: " with
  | Some p => Some (I8042_OUTPUT, advance (String.length "i8042: ") p)
  | None =>
      match strstr current_line "ps2emu: " with
      | Some p => Some (PS2EMU_OUTPUT, advance (String.length "ps2emu: ") p)
      | None => None
      end
  end.

(** [get_next_module_line]: the status, what is stored in [match] and
    [start_pos] when the status is normal, the unread rest of the channel
    and the error slot.  [g_io_channel_read_line] is refused at once when
    the slot is already filled. *)
Fixpoint get_next_module_line (input_channel : kmsg) (error : option Error)
  : GIOStatus * option (GQuark * string) * kmsg * option Error :=
  match error with
  | Some _ => (G_IO_STATUS_ERROR, None, input_channel, error)
  | None =>
      match input_channel with
      | [] => (G_IO_STATUS_EOF, None, [], None)
      | KFail msg :: rest => (G_IO_STATUS_ERROR, None, rest, Some (Glib msg))
      | KLine current_line :: rest =>
          match find_module current_line with
          | Some found => (G_IO_STATUS_NORMAL, Some found, rest, None)
          | None => get_next_module_line rest None
          end
      end
  end.

(** ["Start recording %ld\\n"]. *)
Definition start_marker_format : list directive :=
  lits "Start" ++ [Space] ++ lits "recording" ++ [Space; Conv_d LenLong; Space].

(** [parse_record_start_marker]: the return value, and what [sscanf] stored
    through [start_time], if anything. *)
Definition parse_record_start_marker (start_pos : string) : bool * option Z :=
  let r := sscanf start_pos start_marker_format in
  let stored := match sr_vals r with VInt t :: _ => Some t | _ => None end in
  if sr_erange r || negb (sr_count r =? 1) then (false, stored)
  else (true, stored).

(** What [parse_next_message] hands back: a message of one of the two
    sources (for [PS2EMU_OUTPUT] with the start time just stored), or the
    status that ended the reading. *)
Inductive next_message :=
| GotEvent
| GotStart (start_time : Z)
| Stopped (rc : GIOStatus).

Section Messages.

(** [LogMsgParseResult] keeps the event and the start time in one union.
    [overlay t event] is what the event reads as once [t] has been stored
    over it; it depends on the layout of [PS2Event], which is not among the
    sources. *)
Variable overlay : Z -> PS2Event -> PS2Event.

(** The body of the loop of [parse_next_message] for one module line:
    [inl] is a [break] or the jump to [fail], [inr] goes round the loop.
    Both leave the function with [rc] still normal. *)
Definition parse_module_line (type : GQuark) (start_pos : string)
           (event : PS2Event)
  : (next_message * PS2Event * option Error) + PS2Event :=
  match type with
  | I8042_OUTPUT =>
      match parse_normal_event start_pos event None with
      | (true, event, _) => inl (GotEvent, event, None)
      | (false, event, Some e) => inl (GotEvent, event, Some (Ps2emu e))
      | (false, event, None) =>
          match parse_interrupt_without_data start_pos event None with
          | (true, event, _) => inl (GotEvent, event, None)
          | (false, event, Some e) => inl (GotEvent, event, Some (Ps2emu e))
          | (false, event, None) => inr event
          end
      end
  | PS2EMU_OUTPUT =>
      match parse_record_start_marker start_pos with
      | (true, Some t) => inl (GotStart t, overlay t event, None)
      | (_, Some t) => inr (overlay t event)
      | (_, None) => inr event
      end
  end.

(** [parse_next_message].  Its loop calls [get_next_module_line], itself a
    loop over the same channel; the two are one recursion on the channel
    here ([parse_next_message_eq] below gives the loop as the source has
    it).  The result is the message, the event as the call leaves it, the
    unread rest and the error slot. *)
Fixpoint parse_next_message (input_channel : kmsg) (event : PS2Event)
         (error : option Error) {struct input_channel}
  : next_message * PS2Event * kmsg * option Error :=
  match error with
  | Some _ => (Stopped G_IO_STATUS_ERROR, event, input_channel, error)
  | None =>
      match input_channel with
      | [] => (Stopped G_IO_STATUS_EOF, event, [], None)
      | KFail msg :: rest =>
          (Stopped G_IO_STATUS_ERROR, event, rest, Some (Glib msg))
      | KLine current_line :: rest =>
          match find_module current_line with
          | None => parse_next_message rest event None
          | Some (type, start_pos) =>
              match parse_module_line type start_pos event with
              | inl (m, event, error) => (m, event, rest, error)
              | inr event => parse_next_message rest event None
              end
          end
      end
  end.

Variable ps2_event_to_string : PS2Event -> string.

(** The first loop of [record]: read on until the start marker of this run.
    Every message takes at least one line off the channel, which bounds the
    number of rounds; [None] is a bound that was too small. *)
Fixpoint find_start (rounds : nat) (start_time : Z) (input_channel : kmsg)
         (event : PS2Event) (error : option Error)
  : option (GIOStatus * PS2Event * kmsg * option Error) :=
  match rounds with
  | O => None
  | S rounds =>
      match parse_next_message input_channel event error with
      | (Stopped rc, event, rest, error) => Some (rc, event, rest, error)
      | (GotEvent, event, rest, error) =>
          find_start rounds start_time rest event error
      | (GotStart t, event, rest, error) =>
          if t =? start_time
          then Some (G_IO_STATUS_NORMAL, event, rest, error)
          else find_start rounds start_time rest event error
      end
  end.

(** The second loop of [record]. *)
Fixpoint process_messages (rounds : nat) (record_kbd record_aux : bool)
         (input_channel : kmsg) (event : PS2Event) (error : option Error)
         (stdout : list string)
  : option (bool * list string * kmsg * option Error) :=
  match rounds with
  | O => None
  | S rounds =>
      match parse_next_message input_channel event error with
      | (Stopped _, _, rest, error) => Some (true, stdout, rest, error)
      | (GotEvent, event, rest, error) =>
          let '(ok, stdout) :=
            process_event ps2_event_to_string record_kbd record_aux event
                          stdout in
          if negb ok then Some (false, stdout, rest, error)
          else process_messages rounds record_kbd record_aux rest event error
                                stdout
      | (GotStart _, event, rest, error) =>
          process_messages rounds record_kbd record_aux rest event error
                           stdout
      end
  end.

Definition set_no_events (error : option Error) : option Error :=
  match error with
  | None =>
      Some (Ps2emu {| code := PS2_ERROR_NO_EVENTS;
                      message := "Reached EOF of /dev/kmsg and got no events" |})
  | Some _ => error
  end.

(** [record], with the statics [record_kbd], [record_aux] and [start_time]
    and standard output passed explicitly.  [file] is what opening
    [/dev/kmsg] gives, [res_event] the event member of the local [res]
    before anything is stored in it. *)
Definition record (record_kbd record_aux : bool) (start_time : Z)
           (file : kmsg + string) (res_event : PS2Event)
           (stdout : list string)
  : option (bool * list string * kmsg * option Error) :=
  match file with
  | inr msg => Some (false, stdout, [], Some (Glib msg))
  | inl input_channel =>
      let rounds := S (List.length input_channel) in
      if start_time =? 0 then
        process_messages rounds record_kbd record_aux input_channel res_event
                         None stdout
      else
        match find_start rounds start_time input_channel res_event None with
        | None => None
        | Some (rc, event, rest, error) =>
            match rc with
            | G_IO_STATUS_NORMAL =>
                process_messages rounds record_kbd record_aux rest event error
                                 stdout
            | _ => Some (false, stdout, rest, set_no_events error)
            end
        end
  end.

End Messages.

(** *** Lines of the shapes the parsers read *)

(** Two lower-case hexadecimal digits. *)
Definition hex2 (d : Z) : string :=
  (Replay.hex_digit (d / 16) ++ Replay.hex_digit (d mod 16))%string.

(** The text of each kind that takes no argument. *)
Definition kind_text (t : PS2EventType) : string :=
  match t with
  | PS2_EVENT_TYPE_COMMAND => "command"
  | PS2_EVENT_TYPE_PARAMETER => "parameter"
  | PS2_EVENT_TYPE_RETURN => "return"
  | PS2_EVENT_TYPE_KBD_DATA => "kbd-data"
  | PS2_EVENT_TYPE_INTERRUPT => "interrupt"
  end.

(** The two directions. *)
Definition arrow (to_device : bool) : string :=
  if to_device then "->" else "<-".

(** The lines the kernel driver logs, after the ["i8042: "] prefix: a byte
    with its direction and kind, an interrupt with its port and irq, and an
    interrupt without data. *)
Definition data_line (t d : Z) (to_device : bool) (k : PS2EventType)
  : string :=
  ("[" ++ Replay.dec t ++ "] " ++ hex2 d ++ " " ++ arrow to_device
       ++ " i8042 (" ++ kind_text k ++ ")" ++ nl)%string.

Definition interrupt_line (t d p i : Z) : string :=
  ("[" ++ Replay.dec t ++ "] " ++ hex2 d ++ " <- i8042 (interrupt, "
       ++ Replay.dec p ++ ", " ++ Replay.dec i ++ ")" ++ nl)%string.

Definition bare_interrupt_line (t i : Z) : string :=
  ("[" ++ Replay.dec t ++ "] Interrupt " ++ Replay.dec i
       ++ ", without any data" ++ nl)%string.

(** What [enable_i8042_debugging] writes to [/dev/kmsg]:
    ["ps2emu: Start recording %ld\\n"]. *)
Definition start_marker_line (start_time : Z) : string :=
  ("ps2emu: Start recording " ++ Replay.dec start_time ++ nl)%string.

(** A layout for the examples: [start_time] lies over [time]. *)
Definition overlay_time (t : Z) (event : PS2Event) : PS2Event :=
  set_time t event.

(** *** Shapes of lines, for the statements below *)

(** [c] does not occur in [s]. *)
Fixpoint free_of (c : ascii) (s : string) : bool :=
  match s with
  | EmptyString => true
  | String a r => negb (Ascii.eqb a c) && free_of c r
  end.

(** The directives the two event formats begin with: ["[%ld] "]. *)
Definition time_prefix_format : list directive :=
  [Lit "["; Conv_d LenLong; Lit "]"; Space].

(** The search string of each quark. *)
Definition search_string (q : GQuark) : string :=
  match q with
  | I8042_OUTPUT => "i8042: "
  | PS2EMU_OUTPUT => "ps2emu: "
  end.

(** A line that carries the start marker of the run that began at
    [start_time]. *)
Definition is_start_marker (start_time : Z) (item : kitem) : bool :=
  match item with
  | KLine line =>
      match find_module line with
      | Some (PS2EMU_OUTPUT, start_pos) =>
          match parse_record_start_marker start_pos with
          | (true, Some t) => t =? start_time
          | _ => false
          end
      | _ => false
      end
  | KFail _ => false
  end.

(** What may come before that marker without ending the search for it: a
    line that is read, that is not the marker, and on which the
    data-bearing parser raises no error. *)
Definition before_marker (start_time : Z) (item : kitem) : bool :=
  match item with
  | KLine line =>
      match find_module line with
      | None => true
      | Some (I8042_OUTPUT, start_pos) =>
          match snd (parse_normal_event start_pos ev0 None) with
          | None => true
          | Some _ => false
          end
      | Some (PS2EMU_OUTPUT, _) => negb (is_start_marker start_time item)
      end
  | KFail _ => false
  end.

End Pipeline.

(** ** ps2emu-replay.c: logs and runs, for the statements below *)

Module ReplayShapes.
Import CLib Replay.

Section Shapes.

Variable get_line_type :
  string -> option GError -> LineType * string * option GError.
Variable ps2_event_from_line :
  string -> option GError -> option PS2Event * option GError.
Variable section_type_from_line :
  string -> option GError -> LogSectionType * option GError.

(** A line of a legacy log on which the event parser leaves the error slot
    empty, and the events such lines yield, in input order. *)
Definition clean_line (line : string) : bool :=
  match snd (ps2_event_from_line line None) with
  | None => true
  | Some _ => false
  end.

Fixpoint legacy_events (lines : list string) : list PS2Event :=
  match lines with
  | [] => []
  | l :: r =>
      match fst (ps2_event_from_line l None) with
      | Some e => e :: legacy_events r
      | None => legacy_events r
      end
  end.

(** A line of a versioned log that ends the parse whatever came before:
    one of invalid type, or a section line whose marker is not known. *)
Definition stops_parse (line : string) : bool :=
  let '(lt, ms, error) := get_line_type line None in
  match lt with
  | LINE_TYPE_INVALID => true
  | LINE_TYPE_SECTION =>
      match fst (section_type_from_line ms error) with
      | SECTION_TYPE_ERROR => true
      | _ => false
      end
  | LINE_TYPE_EVENT => false
  end.

(** The most recent marker after [lines]. *)
Fixpoint current_marker (cur : option SectionTag) (lines : list string)
  : option SectionTag :=
  match lines with
  | [] => cur
  | l :: r =>
      match classify get_line_type ps2_event_from_line section_type_from_line l
      with
      | ItMarker t => current_marker (Some t) r
      | _ => current_marker cur r
      end
  end.

End Shapes.

(** The frame [simulate_interrupt] writes for an event. *)
Definition frame_of (event : PS2Event) : ps2emu_cmd :=
  {| cmd := PS2EMU_CMD_SEND_INTERRUPT; cmd_data := data event |}.

(** The sequences [main] replays for a version, one after the other. *)
Definition replayed (log_version : Z) (g : Lists) : list PS2Event :=
  if log_version =? 0 then event_list g
  else init_event_list g ++ main_event_list g.

(** A versioned log, a log whose header declares a negative version, and
    the exits of [main] on them with a device that is idle. *)
Definition sample_log : channel :=
  map ChLine (version_line "1" :: sample_body).

Definition negative_log : channel :=
  map ChLine (version_line "-1" :: sample_legacy_body).

Definition exit_of (r : result Exit) : Exit :=
  match r with
  | Ret x => x
  | Undefined =>
      {| exit_code := 0; stderr := []; world := idle; lists := no_events;
         unread := [] |}
  end.

Definition sample_exit : Exit :=
  exit_of (main spec_get_line_type spec_ps2_event_from_line
                spec_section_type_from_line 1 0 "log" (inl sample_log) idle).

Definition negative_exit : Exit :=
  exit_of (main spec_get_line_type spec_ps2_event_from_line
                spec_section_type_from_line 1 0 "log" (inl negative_log)
                idle).

End ReplayShapes.

(** * Properties *)

(** ** What [sscanf] stores *)

Module CLibFacts.
Import CLib.

Lemma scan_stop_typed (fmt : list directive) (vals : list sval) (e : bool) :
  exists vs,
    sr_vals (scan_stop vals e) = vals ++ vs
    /\ typed_prefix vs (conv_types fmt)
    /\ (sr_count (scan_stop vals e) = Z.of_nat (List.length (vals ++ vs))
        \/ sr_count (scan_stop vals e) = -1).
Proof.
  exists []. rewrite app_nil_r. simpl. auto.
Qed.

Lemma input_failure_typed (fmt : list directive) (vals : list sval) (e : bool) :
  exists vs,
    sr_vals (input_failure vals e) = vals ++ vs
    /\ typed_prefix vs (conv_types fmt)
    /\ (sr_count (input_failure vals e) = Z.of_nat (List.length (vals ++ vs))
        \/ sr_count (input_failure vals e) = -1).
Proof.
  exists []. rewrite app_nil_r. simpl. destruct vals; auto.
Qed.

(** Whatever the input, [sscanf] stores a prefix of the values its format
    asks for, each of the right kind, and returns how many it stored (or
    [EOF]). *)
Lemma scanf_run_typed (fmt : list directive) :
  forall inp vals e,
  exists vs,
    sr_vals (scanf_run fmt inp vals e) = vals ++ vs
    /\ typed_prefix vs (conv_types fmt)
    /\ (sr_count (scanf_run fmt inp vals e)
        = Z.of_nat (List.length (vals ++ vs))
        \/ sr_count (scanf_run fmt inp vals e) = -1).
Proof.
  induction fmt as [|d fmt IH]; intros inp vals e.
  - apply (scan_stop_typed []).
  - destruct d as [c| |len|len|assign width negated set]; cbn [scanf_run].
    + destruct inp as [|a r].
      * apply (input_failure_typed (Lit c :: fmt)).
      * destruct (Ascii.eqb c a).
        -- apply IH.
        -- apply (scan_stop_typed (Lit c :: fmt)).
    + apply IH.
    + destruct (skip_space inp) as [|a r].
      * apply (input_failure_typed (Conv_d len :: fmt)).
      * destruct (scan_int 10 (String a r)) as [[[neg mag] r']|].
        -- destruct (clamp_long neg mag) as [v e'].
           destruct (IH r' (vals ++ [VInt (wrap_signed (len_bits len) v)])
                        (e || e')%bool) as (vs & Hv & Ht & Hc).
           exists (VInt (wrap_signed (len_bits len) v) :: vs).
           rewrite <- app_assoc in Hv, Hc. simpl in Hv, Hc.
           repeat split; auto.
        -- apply (scan_stop_typed (Conv_d len :: fmt)).
    + destruct (skip_space inp) as [|a r].
      * apply (input_failure_typed (Conv_x len :: fmt)).
      * destruct (scan_int 16 (String a r)) as [[[neg mag] r']|].
        -- destruct (clamp_ulong neg mag) as [v e'].
           destruct (IH r' (vals ++ [VInt (wrap_unsigned (len_bits len) v)])
                        (e || e')%bool) as (vs & Hv & Ht & Hc).
           exists (VInt (wrap_unsigned (len_bits len) v) :: vs).
           rewrite <- app_assoc in Hv, Hc. simpl in Hv, Hc.
           repeat split; auto.
        -- apply (scan_stop_typed (Conv_x len :: fmt)).
    + destruct inp as [|a r].
      * apply (input_failure_typed (Conv_set assign width negated set :: fmt)).
      * destruct (scan_set width negated set (String a r)) as [m r'].
        destruct m as [|c m'].
        -- apply (scan_stop_typed (Conv_set assign width negated set :: fmt)).
        -- destruct assign.
           ++ destruct (IH r' (vals ++ [VStr (String c m')]) e)
                as (vs & Hv & Ht & Hc).
              exists (VStr (String c m') :: vs).
              rewrite <- app_assoc in Hv, Hc. simpl in Hv, Hc.
              repeat split; auto; discriminate.
           ++ apply IH.
Qed.

Lemma split_on_not_nil delim cur s : split_on delim cur s <> [].
Proof.
  revert cur. induction s as [|c r IH]; intros cur; simpl.
  - discriminate.
  - destruct (Ascii.eqb c delim); [discriminate | apply IH].
Qed.

(** [g_strsplit] of a non-empty string has a first element. *)
Lemma g_strsplit_not_nil s delim :
  s <> EmptyString -> g_strsplit s delim <> [].
Proof.
  destruct s; [congruence | intros _; apply split_on_not_nil].
Qed.

(** *** Reading back a printed decimal *)

Lemma decimal_value_acc d :
  forall acc, decimal_value d (Zpos acc) = Zpos (Pos.of_uint_acc d acc).
Proof.
  induction d; intros acc; cbn [decimal_value Pos.of_uint_acc];
    try reflexivity; rewrite <- IHd; f_equal; lia.
Qed.

Lemma decimal_value_of_uint d :
  decimal_value d 0 = Z.of_N (Pos.of_uint d).
Proof.
  induction d; cbn [decimal_value Pos.of_uint]; try reflexivity;
    try exact IHd; cbn [Z.mul Z.add Z.of_N]; apply decimal_value_acc.
Qed.

Lemma scan_digits_decimal d :
  forall acc k rest,
    no_digit_head rest ->
    scan_digits 10 acc k (NilEmpty.string_of_uint d ++ rest)
    = ((Decimal.nb_digits d + k)%nat, decimal_value d acc, rest).
Proof.
  induction d; intros acc k rest Hr;
    cbn [NilEmpty.string_of_uint String.append scan_digits decimal_value
         Decimal.nb_digits];
    try (match goal with
         | |- context [digit_in_base 10 ?c] =>
             let v := eval vm_compute in (digit_in_base 10 c) in
             change (digit_in_base 10 c) with v
         end;
         cbv iota; rewrite IHd by exact Hr; rewrite Nat.add_succ_r;
         reflexivity).
  destruct rest as [|c r]; cbn [scan_digits]; [reflexivity|].
  cbn in Hr. rewrite Hr. reflexivity.
Qed.

Lemma scan_sign_decimal d rest :
  d <> Decimal.Nil ->
  scan_sign (NilEmpty.string_of_uint d ++ rest)
  = (false, (NilEmpty.string_of_uint d ++ rest)%string)
  /\ skip_space (NilEmpty.string_of_uint d ++ rest)
     = (NilEmpty.string_of_uint d ++ rest)%string
  /\ (NilEmpty.string_of_uint d ++ rest)%string <> EmptyString
  /\ exists k, Decimal.nb_digits d = S k.
Proof.
  destruct d; try congruence; intros _;
    (repeat split; [discriminate | eexists; reflexivity]).
Qed.

Lemma scan_int_10 s :
  scan_int 10 s
  = let '(neg, s1) := scan_sign s in
    let '(n, mag, rest) := scan_digits 10 0 0 s1 in
    match n with
    | O => None
    | S _ => Some (neg, mag, rest)
    end.
Proof.
  unfold scan_int. destruct (scan_sign s) as [neg s1].
  destruct s1 as [|a [|c r]]; try reflexivity;
    destruct a as [[] [] [] [] [] [] [] []]; reflexivity.
Qed.

Lemma scanf_run_conv_d len fmt inp vals e :
  skip_space inp <> EmptyString ->
  scanf_run (Conv_d len :: fmt) inp vals e
  = match scan_int 10 (skip_space inp) with
    | None => scan_stop vals e
    | Some (neg, mag, r) =>
        let '(v, e') := clamp_long neg mag in
        scanf_run fmt r (vals ++ [VInt (wrap_signed (len_bits len) v)])
                  (e || e')
    end.
Proof.
  cbn [scanf_run]. destruct (skip_space inp); [congruence | reflexivity].
Qed.

End CLibFacts.

(** ** The data-bearing event parser and the inclusion policy *)

Module RecordFacts.
Import CLib Record CLibFacts.

(** When [sscanf] returns 3 for the data-bearing format, it stored a time, a
    data byte and a non-empty kind text. *)
Lemma normal_shape (start_pos : string) :
  sr_count (sscanf start_pos normal_event_format) = 3 ->
  exists t d type_str,
    sr_vals (sscanf start_pos normal_event_format)
    = [VInt t; VInt d; VStr type_str]
    /\ type_str <> EmptyString.
Proof.
  intros H.
  destruct (scanf_run_typed normal_event_format start_pos [] false)
    as (vs & Hv & Ht & Hc).
  unfold sscanf in *. rewrite app_nil_l in Hv, Hc. rewrite Hv.
  destruct Hc as [Hc|Hc]; [|congruence].
  rewrite H in Hc.
  destruct vs as [|a [|b [|c [|x vs]]]]; simpl in Hc; try lia.
  simpl in Ht. destruct Ht as (Ha & Hb & Hd & _).
  destruct a; try contradiction. destruct b; try contradiction.
  destruct c; try contradiction. eauto.
Qed.

Lemma matches_normal_shape_inv (start_pos : string) :
  matches_normal_shape start_pos = true ->
  sr_erange (sscanf start_pos normal_event_format) = false
  /\ sr_count (sscanf start_pos normal_event_format) = 3.
Proof.
  unfold matches_normal_shape. intros H.
  apply andb_true_iff in H. destruct H as [He Hc].
  apply negb_true_iff in He. apply Z.eqb_eq in Hc. auto.
Qed.

(** The [strcmp] on [type_str_args[0]] never sees a null pointer: the
    vector of a matched payload has a first element. *)
Lemma event_args_not_nil (start_pos : string) :
  matches_normal_shape start_pos = true -> event_args start_pos <> [].
Proof.
  intros H. apply matches_normal_shape_inv in H. destruct H as [_ H].
  destruct (normal_shape _ H) as (t & d & ts & Hv & Hne).
  unfold event_args, scanned_type_str. rewrite Hv.
  now apply g_strsplit_not_nil.
Qed.

(** C1, as the claim states it: on the payload with [>i] between the data
    byte and [i8042] the parser does not succeed.  [sscanf] stops at the
    first direction character after two assignments. *)
Lemma C1_arrow_rejected :
  sr_count (sscanf ("[1000] 5f >i i8042 (interrupt,0,1)" ++ nl)
                   normal_event_format) = 2
  /\ parse_normal_event ("[1000] 5f >i i8042 (interrupt,0,1)" ++ nl) ev0 None
     = (false, set_data 95 (set_time 1000 ev0), None)
  /\ ~ (exists event,
          parse_normal_event ("[1000] 5f >i i8042 (interrupt,0,1)" ++ nl)
                             ev0 None
          = (true, event, None)).
Proof.
  split; [reflexivity|]. split; [reflexivity|].
  intros [event H]. vm_compute in H. discriminate.
Qed.

(** C1, amended: with a direction arrow ([<-]) in place of [>i] the payload
    parses to the Interrupt event of the claim, whatever the event and the
    error slot held before; the payload of the claim itself is passed over
    without an error. *)
Theorem C1_parse_interrupt_payload :
  forall (event : PS2Event) (error : option GError),
    parse_normal_event ("[1000] 5f <- i8042 (interrupt,0,1)" ++ nl) event error
    = (true,
       {| time := 1000; type := PS2_EVENT_TYPE_INTERRUPT; data := 95;
          has_data := true; irq := 1; port := 0 |},
       error)
    /\ fst (fst (parse_normal_event
                   ("[1000] 5f >i i8042 (interrupt,0,1)" ++ nl) event error))
       = false
    /\ snd (parse_normal_event
              ("[1000] 5f >i i8042 (interrupt,0,1)" ++ nl) event error)
       = error.
Proof.
  intros event error. repeat split; reflexivity.
Qed.

(** C4 at the failing input: an interrupt payload whose port argument is not
    a number is accepted, with port 0 and no error. *)
Theorem C4_non_numeric_port_accepted :
  parse_normal_event ("[1000] 5f <- i8042 (interrupt,abc,1)" ++ nl) ev0 None
  = (true,
     {| time := 1000; type := PS2_EVENT_TYPE_INTERRUPT; data := 95;
        has_data := true; irq := 1; port := 0 |},
     None).
Proof. reflexivity. Qed.

(** The same for the irq argument. *)
Lemma non_numeric_irq_accepted :
  parse_normal_event ("[1000] 5f <- i8042 (interrupt,1,x12)" ++ nl) ev0 None
  = (true,
     {| time := 1000; type := PS2_EVENT_TYPE_INTERRUPT; data := 95;
        has_data := true; irq := 0; port := 1 |},
     None).
Proof. reflexivity. Qed.

(** The part of C4 the code does implement: an interrupt payload with fewer
    than two arguments after the kind is an input error. *)
Lemma interrupt_too_few_arguments (start_pos : string) (event : PS2Event) :
  matches_normal_shape start_pos = true ->
  event_kind start_pos = "interrupt" ->
  (List.length (event_args start_pos) < 3)%nat ->
  exists event' msg,
    parse_normal_event start_pos event None
    = (false, event', Some {| code := PS2_ERROR_INPUT; message := msg |}).
Proof.
  intros Hm Hk Hn.
  apply matches_normal_shape_inv in Hm. destruct Hm as [He Hc].
  destruct (normal_shape _ Hc) as (t & d & ts & Hv & _).
  unfold event_kind, event_args, scanned_type_str in *. rewrite Hv in *.
  unfold parse_normal_event. rewrite He, Hc, Hv. cbn [orb negb Z.eqb Pos.eqb].
  rewrite Hk. cbn [String.eqb Ascii.eqb Bool.eqb].
  replace (Z.of_nat (List.length (g_strsplit ts ",")) <? 3) with true
    by (symmetry; apply Z.ltb_lt; lia).
  eexists _, _. reflexivity.
Qed.

(** On success the two fields are [strtol]'s readings of the two arguments,
    narrowed to the fields' widths. *)
Lemma interrupt_port_irq (start_pos : string) (event event' : PS2Event)
      (error error' : option GError) :
  matches_normal_shape start_pos = true ->
  event_kind start_pos = "interrupt" ->
  parse_normal_event start_pos event error = (true, event', error') ->
  port event' = wrap_signed 32 (fst (strtol (nth 1 (event_args start_pos) EmptyString)))
  /\ irq event' = wrap_signed 16 (fst (strtol (nth 2 (event_args start_pos) EmptyString)))
  /\ type event' = PS2_EVENT_TYPE_INTERRUPT
  /\ has_data event' = true
  /\ error' = error.
Proof.
  intros Hm Hk.
  apply matches_normal_shape_inv in Hm. destruct Hm as [He Hc].
  destruct (normal_shape _ Hc) as (t & d & ts & Hv & _).
  unfold event_kind, event_args, scanned_type_str in *. rewrite Hv in *.
  unfold parse_normal_event. rewrite He, Hc, Hv. cbn [orb negb Z.eqb Pos.eqb].
  rewrite Hk. cbn [String.eqb Ascii.eqb Bool.eqb].
  destruct (Z.of_nat (List.length (g_strsplit ts ",")) <? 3); [discriminate|].
  destruct (strtol (nth 1 (g_strsplit ts ",") EmptyString)) as [p e1].
  destruct e1; [discriminate|].
  destruct (strtol (nth 2 (g_strsplit ts ",") EmptyString)) as [i e2].
  destruct e2; [discriminate|].
  intros H. injection H as <- <-. simpl. auto.
Qed.

(** C10: a payload of the data-bearing shape whose kind is none of the five
    known ones is accepted: the parser returns true with [has_data] set, the
    time and data byte stored, and the [type] field as it was before the
    call. *)
Theorem C10_unknown_kind_leaves_type
        (start_pos : string) (event : PS2Event) (error : option GError) :
  matches_normal_shape start_pos = true ->
  ~ In (event_kind start_pos) known_kinds ->
  exists event',
    parse_normal_event start_pos event error = (true, event', error)
    /\ has_data event' = true
    /\ type event' = type event
    /\ event'
       = set_has_data true
           (store_normal (sr_vals (sscanf start_pos normal_event_format))
                         event).
Proof.
  intros Hm Hk.
  apply matches_normal_shape_inv in Hm. destruct Hm as [He Hc].
  destruct (normal_shape _ Hc) as (t & d & ts & Hv & _).
  unfold event_kind, event_args, scanned_type_str in Hk. rewrite Hv in Hk.
  assert (Hi : String.eqb (nth 0 (g_strsplit ts ",") EmptyString) "interrupt"
               = false).
  { apply String.eqb_neq. intros E. apply Hk. rewrite E. simpl. auto. }
  assert (Hx : forall k, In k known_kinds -> nth 0 (g_strsplit k ",") EmptyString = k ->
                         String.eqb ts k = false).
  { intros k Hin Hsplit. apply String.eqb_neq. intros E. apply Hk.
    rewrite E, Hsplit. exact Hin. }
  unfold parse_normal_event. rewrite He, Hc, Hv. cbn [orb negb Z.eqb Pos.eqb].
  rewrite Hi.
  rewrite (Hx "command"), (Hx "parameter"), (Hx "return"), (Hx "kbd-data");
    try reflexivity; try (simpl; tauto).
  eexists. repeat split; reflexivity.
Qed.

Lemma C10_unknown_kind_witness :
  exists event',
    parse_normal_event ("[1000] 5f <- i8042 (foo)" ++ nl)
                       (set_type PS2_EVENT_TYPE_RETURN ev0) None
    = (true, event', None)
    /\ has_data event' = true
    /\ type event' = PS2_EVENT_TYPE_RETURN
    /\ event'
       = set_has_data true
           (store_normal
              (sr_vals (sscanf ("[1000] 5f <- i8042 (foo)" ++ nl)
                               normal_event_format))
              (set_type PS2_EVENT_TYPE_RETURN ev0)).
Proof.
  apply (C10_unknown_kind_leaves_type
           ("[1000] 5f <- i8042 (foo)" ++ nl)
           (set_type PS2_EVENT_TYPE_RETURN ev0) None).
  - reflexivity.
  - vm_compute. intuition discriminate.
Defined.

(** A known kind followed by arguments is compared as a whole, so it too
    leaves [type] alone. *)
Lemma command_with_argument_leaves_type :
  parse_normal_event ("[1000] 5f -> i8042 (command,1)" ++ nl)
                     (set_type PS2_EVENT_TYPE_RETURN ev0) None
  = (true,
     {| time := 1000; type := PS2_EVENT_TYPE_RETURN; data := 95;
        has_data := true; irq := 0; port := 0 |}, None).
Proof. reflexivity. Qed.

Section Policy.

Variable ps2_event_to_string : PS2Event -> string.

(** C7: the inclusion policy.  With the keyboard excluded, keyboard-data
    events and interrupts of port 0 print nothing; with the auxiliary port
    excluded, interrupts of another port and the events that are neither
    interrupts nor keyboard data print nothing; with the keyboard excluded
    and the auxiliary port included, an interrupt of a port other than 0 is
    printed. *)
Theorem C7_inclusion_policy
        (record_kbd record_aux : bool) (event : PS2Event)
        (stdout : list string) :
  (record_kbd = false ->
   type event = PS2_EVENT_TYPE_KBD_DATA
   \/ (type event = PS2_EVENT_TYPE_INTERRUPT /\ port event = 0) ->
   process_event ps2_event_to_string record_kbd record_aux event stdout = (true, stdout))
  /\ (record_aux = false ->
      (type event = PS2_EVENT_TYPE_INTERRUPT /\ port event <> 0)
      \/ (type event <> PS2_EVENT_TYPE_INTERRUPT
          /\ type event <> PS2_EVENT_TYPE_KBD_DATA) ->
      process_event ps2_event_to_string record_kbd record_aux event stdout = (true, stdout))
  /\ (record_kbd = false -> record_aux = true ->
      type event = PS2_EVENT_TYPE_INTERRUPT -> port event <> 0 ->
      process_event ps2_event_to_string record_kbd record_aux event stdout
      = (true, stdout ++ [(ps2_event_to_string event ++ nl)%string])).
Proof.
  unfold process_event, KEYBOARD_PORT.
  repeat split.
  - intros -> [Ht | [Ht Hp]]; rewrite Ht; [|rewrite Hp]; reflexivity.
  - intros -> [[Ht Hp] | [Hi Hk]].
    + rewrite Ht. apply Z.eqb_neq in Hp. rewrite Hp. simpl.
      rewrite andb_false_r. reflexivity.
    + destruct (type event); try congruence;
        simpl; rewrite ?andb_false_r; reflexivity.
  - intros -> -> Ht Hp. rewrite Ht. apply Z.eqb_neq in Hp. rewrite Hp.
    reflexivity.
Qed.

End Policy.

Lemma C7_inclusion_policy_witness :
  process_event (fun _ => "event") false true
                (set_type PS2_EVENT_TYPE_KBD_DATA ev0) [] = (true, [])
  /\ process_event (fun _ => "event") true false
                   (set_port 1 (set_type PS2_EVENT_TYPE_INTERRUPT ev0)) []
     = (true, [])
  /\ process_event (fun _ => "event") false true
                   (set_port 1 (set_type PS2_EVENT_TYPE_INTERRUPT ev0)) []
     = (true, [("event" ++ nl)%string]).
Proof.
  split; [|split].
  - apply (proj1 (C7_inclusion_policy (fun _ => "event") false true
                    (set_type PS2_EVENT_TYPE_KBD_DATA ev0) []));
      [reflexivity | left; reflexivity].
  - apply (proj1 (proj2 (C7_inclusion_policy (fun _ => "event") true false
                    (set_port 1 (set_type PS2_EVENT_TYPE_INTERRUPT ev0)) [])));
      [reflexivity | left; split; [reflexivity | simpl; lia]].
  - apply (proj2 (proj2 (C7_inclusion_policy (fun _ => "event") false true
                    (set_port 1 (set_type PS2_EVENT_TYPE_INTERRUPT ev0)) [])));
      [reflexivity | reflexivity | reflexivity | simpl; lia].
Defined.

End RecordFacts.

(** ** The section state machine *)

Module SectionFacts.
Import CLib Replay.

Section Sections.

Variable get_line_type :
  string -> option GError -> LineType * string * option GError.
Variable ps2_event_from_line :
  string -> option GError -> option PS2Event * option GError.
Variable section_type_from_line :
  string -> option GError -> LogSectionType * option GError.

Let parse_loop :=
  parse_loop get_line_type ps2_event_from_line section_type_from_line.
Let classify :=
  classify get_line_type ps2_event_from_line section_type_from_line.
Let well_formed :=
  well_formed get_line_type ps2_event_from_line section_type_from_line.
Let tag_events :=
  tag_events get_line_type ps2_event_from_line section_type_from_line.

Lemma versioned (log_version : Z) :
  1 <= log_version -> (log_version <? 1) = false /\ (log_version >=? 1) = true.
Proof.
  intros H. split; [apply Z.ltb_ge | apply Z.geb_le]; lia.
Qed.

(** One pass of the loop over a well-formed body pushes the tagged events in
    input order and ends with the reversals. *)
Lemma parse_loop_well_formed (log_version : Z) (lines : list string) :
  1 <= log_version ->
  forall cur g,
    well_formed cur lines = true ->
    parse_loop log_version (map ChLine lines) (dest_of cur) g None
    = Ret (true, [],
           reverse_lists log_version (fold_left push (tag_events cur lines) g),
           None).
Proof.
  intros Hv. destruct (versioned _ Hv) as [Hlt _].
  induction lines as [|l r IH]; intros cur g Hwf.
  - reflexivity.
  - cbn [map]. unfold parse_loop. cbn [Replay.parse_loop]. rewrite Hlt.
    fold parse_loop.
    unfold well_formed in Hwf. cbn [Replay.well_formed] in Hwf.
    fold well_formed in Hwf.
    unfold tag_events. cbn [Replay.tag_events]. fold tag_events.
    unfold Replay.classify in *.
    destruct (get_line_type l None) as [[lt ms] err].
    destruct lt.
    + destruct (ps2_event_from_line ms err) as [[e|] [er|]];
        try discriminate.
      * destruct cur as [t|]; [|discriminate].
        cbn [fold_left]. rewrite <- (IH (Some t) _ Hwf).
        destruct t; reflexivity.
      * rewrite (IH cur g Hwf). destruct cur; reflexivity.
    + destruct (section_type_from_line ms err) as [[| |] [er|]];
        try discriminate.
      * apply (IH (Some Init) g Hwf).
      * apply (IH (Some Main) g Hwf).
    + discriminate.
Qed.

Lemma fold_push_init tagged :
  forall g,
    init_event_list (fold_left push tagged g)
    = rev (select Init tagged) ++ init_event_list g.
Proof.
  induction tagged as [|[t e] tagged IH]; intros g; [reflexivity|].
  cbn [fold_left]. rewrite IH. unfold select. cbn [filter fst].
  destruct t; cbn [SectionTag_eqb map rev snd push prepend_at fst init_event_list].
  - rewrite <- app_assoc. reflexivity.
  - reflexivity.
Qed.

Lemma fold_push_main tagged :
  forall g,
    main_event_list (fold_left push tagged g)
    = rev (select Main tagged) ++ main_event_list g.
Proof.
  induction tagged as [|[t e] tagged IH]; intros g; [reflexivity|].
  cbn [fold_left]. rewrite IH. unfold select. cbn [filter fst].
  destruct t; cbn [SectionTag_eqb map rev snd push prepend_at fst main_event_list].
  - reflexivity.
  - rewrite <- app_assoc. reflexivity.
Qed.

Lemma fold_push_event_list tagged :
  forall g, event_list (fold_left push tagged g) = event_list g.
Proof.
  induction tagged as [|[t e] tagged IH]; intros g; [reflexivity|].
  cbn [fold_left]. rewrite IH. destruct t; reflexivity.
Qed.

(** For a well-formed versioned body [parse_events] returns true at end of
    input with each section's events in input order. *)
Lemma parse_events_well_formed (log_version : Z) (lines : list string) :
  1 <= log_version ->
  well_formed None lines = true ->
  parse_events get_line_type ps2_event_from_line section_type_from_line
               (map ChLine lines) log_version no_events None
  = Ret (true, [],
         {| event_list := [];
            init_event_list :=
              sequence get_line_type ps2_event_from_line
                       section_type_from_line Init lines;
            main_event_list :=
              sequence get_line_type ps2_event_from_line
                       section_type_from_line Main lines |},
         None).
Proof.
  intros Hv Hwf. unfold parse_events.
  pose proof (parse_loop_well_formed log_version lines Hv None no_events Hwf)
    as H.
  unfold parse_loop in H. cbn [dest_of] in H. rewrite H.
  destruct (versioned _ Hv) as [_ Hge].
  unfold reverse_lists. rewrite Hge.
  rewrite fold_push_init, fold_push_main, fold_push_event_list.
  cbn [no_events init_event_list main_event_list event_list].
  rewrite !app_nil_r, !rev_involutive. reflexivity.
Qed.

Lemma parse_loop_error_set (log_version : Z) (ch : channel)
      (dest : option Dest) (g : Lists) (e : GError) :
  parse_loop log_version ch dest g (Some e) = Ret (false, ch, g, Some e).
Proof.
  destruct ch; reflexivity.
Qed.

(** Conversely, the bodies on which [parse_events] returns true are the
    well-formed ones: every other versioned body ends in a false return or
    in the undefined store of C9. *)
Lemma parse_loop_true_well_formed (log_version : Z) (lines : list string) :
  1 <= log_version ->
  forall cur g ch' g' error',
    parse_loop log_version (map ChLine lines) (dest_of cur) g None
    = Ret (true, ch', g', error') ->
    well_formed cur lines = true.
Proof.
  intros Hv. destruct (versioned _ Hv) as [Hlt _].
  induction lines as [|l r IH]; intros cur g ch' g' error' H.
  - reflexivity.
  - cbn [map] in H. unfold parse_loop in H. cbn [Replay.parse_loop] in H.
    rewrite Hlt in H. fold parse_loop in H.
    unfold well_formed. cbn [Replay.well_formed]. fold well_formed.
    unfold Replay.classify.
    destruct (get_line_type l None) as [[lt ms] err].
    destruct lt.
    + destruct (ps2_event_from_line ms err) as [[e|] [er|]].
      * destruct cur as [[|]|]; cbn [dest_of] in H;
          try rewrite parse_loop_error_set in H; discriminate.
      * destruct cur as [t|]; [|discriminate].
        destruct t; cbn [dest_of] in H;
          [apply (IH (Some Init) _ _ _ _ H) | apply (IH (Some Main) _ _ _ _ H)].
      * discriminate.
      * apply (IH cur _ _ _ _ H).
    + destruct (section_type_from_line ms err) as [[| |] [er|]];
        try rewrite parse_loop_error_set in H; try discriminate.
      * apply (IH (Some Init) _ _ _ _ H).
      * apply (IH (Some Main) _ _ _ _ H).
    + discriminate.
Qed.

(** C2: in a versioned log every event goes to the list selected by the most
    recent section marker, and after the reversals at end of input the
    initialization and main sequences hold their events in input order. *)
Theorem C2_sections_in_input_order (log_version : Z) (lines : list string) :
  1 <= log_version ->
  well_formed None lines = true ->
  parse_events get_line_type ps2_event_from_line section_type_from_line
               (map ChLine lines) log_version no_events None
  = Ret (true, [],
         {| event_list := [];
            init_event_list :=
              sequence get_line_type ps2_event_from_line
                       section_type_from_line Init lines;
            main_event_list :=
              sequence get_line_type ps2_event_from_line
                       section_type_from_line Main lines |},
         None).
Proof.
  apply parse_events_well_formed.
Qed.

(** The log of the claim: a marker, two events, the other marker, one
    event. *)
Lemma two_init_one_main (log_version : Z) (m0 l1 l2 m3 l4 : string)
      (e1 e2 e3 : PS2Event) :
  1 <= log_version ->
  classify m0 = ItMarker Init -> classify l1 = ItEvent e1 ->
  classify l2 = ItEvent e2 -> classify m3 = ItMarker Main ->
  classify l4 = ItEvent e3 ->
  parse_events get_line_type ps2_event_from_line section_type_from_line
               (map ChLine [m0; l1; l2; m3; l4]) log_version no_events None
  = Ret (true, [],
         {| event_list := []; init_event_list := [e1; e2];
            main_event_list := [e3] |}, None).
Proof.
  intros Hv H0 H1 H2 H3 H4.
  rewrite parse_events_well_formed; trivial.
  - unfold sequence. cbn [Replay.tag_events].
    fold classify. rewrite H0, H1, H2, H3, H4. reflexivity.
  - unfold well_formed. cbn [Replay.well_formed].
    fold classify. rewrite H0, H1, H2, H3, H4. reflexivity.
Qed.

(** C9: in a versioned log, when the first line that is not passed over is
    an event line that yields an event, that event is stored through
    [event_list_dest] before anything was assigned to it: [parse_events] has
    no defined result, and in particular reports no error. *)
Theorem C9_event_before_marker_undefined
        (log_version : Z) (pre : list string) (line : string)
        (rest : channel) (g : Lists) :
  1 <= log_version ->
  forallb (skipped_line get_line_type ps2_event_from_line
                        section_type_from_line) pre = true ->
  event_line get_line_type ps2_event_from_line line = true ->
  parse_events get_line_type ps2_event_from_line section_type_from_line
               (map ChLine pre ++ ChLine line :: rest) log_version g None
  = Undefined.
Proof.
  intros Hv Hpre Hline. destruct (versioned _ Hv) as [Hlt _].
  unfold parse_events.
  induction pre as [|p pre IH].
  - cbn [map app Replay.parse_loop]. rewrite Hlt.
    unfold event_line in Hline.
    destruct (get_line_type line None) as [[lt ms] err].
    destruct lt; try discriminate.
    destruct (ps2_event_from_line ms err) as [[e|] er]; try discriminate.
    reflexivity.
  - cbn [forallb] in Hpre. apply andb_true_iff in Hpre.
    destruct Hpre as [Hp Hpre].
    cbn [map app Replay.parse_loop]. rewrite Hlt.
    unfold skipped_line, Replay.classify in Hp.
    destruct (get_line_type p None) as [[lt ms] err].
    destruct lt; try discriminate.
    + destruct (ps2_event_from_line ms err) as [[e|] [er|]];
        try discriminate.
      apply IH, Hpre.
    + destruct (section_type_from_line ms err) as [[| |] [er|]];
        discriminate.
Qed.

End Sections.

Lemma C2_sections_witness :
  parse_events spec_get_line_type spec_ps2_event_from_line
               spec_section_type_from_line
               (map ChLine sample_body) 1 no_events None
  = Ret (true, [],
         {| event_list := [];
            init_event_list :=
              [ {| time := 1000; type := Record.PS2_EVENT_TYPE_INTERRUPT;
                   data := 95; has_data := true; irq := 1; port := 0 |};
                {| time := 2000; type := Record.PS2_EVENT_TYPE_KBD_DATA;
                   data := 244; has_data := true; irq := 0; port := 0 |} ];
            main_event_list :=
              [ {| time := 3000; type := Record.PS2_EVENT_TYPE_INTERRUPT;
                   data := 250; has_data := true; irq := 12; port := 1 |} ] |},
         None).
Proof.
  apply (C2_sections_in_input_order
           spec_get_line_type spec_ps2_event_from_line
           spec_section_type_from_line 1 sample_body).
  - lia.
  - reflexivity.
Defined.

Lemma C9_event_before_marker_witness :
  parse_events spec_get_line_type spec_ps2_event_from_line
               spec_section_type_from_line
               (map ChLine [("i8042: unrelated text" ++ Record.nl)%string]
                  ++ ChLine ("i8042: [1000] 5f <- i8042 (interrupt,0,1)"
                               ++ Record.nl)%string
                  :: map ChLine [("ps2emu: Init" ++ Record.nl)%string])
               1 no_events None
  = Undefined.
Proof.
  apply (C9_event_before_marker_undefined
           spec_get_line_type spec_ps2_event_from_line
           spec_section_type_from_line 1).
  - lia.
  - reflexivity.
  - reflexivity.
Defined.

End SectionFacts.

(** ** The version line and [main] *)

Module MainFacts.
Import CLib Replay CLibFacts.

Section Main.

Variable get_line_type :
  string -> option GError -> LineType * string * option GError.
Variable ps2_event_from_line :
  string -> option GError -> option PS2Event * option GError.
Variable section_type_from_line :
  string -> option GError -> LogSectionType * option GError.
Variable PS2EMU_LOG_VERSION : Z.


Lemma version_prefix tail vals e :
  scanf_run version_format ("# ps2emu-record V" ++ tail) vals e
  = scanf_run [Conv_d LenInt; Space] tail vals e.
Proof. reflexivity. Qed.

Lemma sscanf_version_line d :
  d <> Decimal.Nil ->
  0 <= decimal_value d 0 <= 2147483647 ->
  sscanf ("# ps2emu-record V" ++ NilEmpty.string_of_uint d ++ Record.nl)
         version_format
  = {| sr_count := 1; sr_vals := [VInt (decimal_value d 0)];
       sr_erange := false |}.
Proof.
  intros Hd Hrange.
  destruct (scan_sign_decimal d Record.nl Hd) as (Hsign & Hskip & Hne & k & Hk).
  unfold sscanf. rewrite version_prefix.
  rewrite scanf_run_conv_d by (rewrite Hskip; exact Hne).
  rewrite Hskip, scan_int_10, Hsign.
  rewrite scan_digits_decimal by reflexivity.
  rewrite Hk. cbn [Nat.add].
  unfold clamp_long, LONG_MAX, LONG_MIN.
  replace (2 ^ 63 - 1 <? decimal_value d 0) with false
    by (symmetry; apply Z.ltb_ge; lia).
  replace (decimal_value d 0 <? - 2 ^ 63) with false
    by (symmetry; apply Z.ltb_ge; lia).
  cbn [app orb len_bits].
  replace (wrap_signed 32 (decimal_value d 0)) with (decimal_value d 0).
  - reflexivity.
  - unfold wrap_signed. change (2 ^ (32 - 1)) with 2147483648.
    change (2 ^ 32) with 4294967296. rewrite Z.mod_small; lia.
Qed.

Lemma dec_positive (p : positive) :
  dec (Zpos p) = NilEmpty.string_of_uint (Pos.to_uint p)
  /\ Pos.to_uint p <> Decimal.Nil
  /\ decimal_value (Pos.to_uint p) 0 = Zpos p.
Proof.
  assert (Hn : Pos.to_uint p <> Decimal.Nil)
    by apply DecimalPos.Unsigned.to_uint_nonnil.
  split; [|split]; trivial.
  - unfold dec. cbn [Z.to_int NilZero.string_of_int].
    unfold NilZero.string_of_uint.
    destruct (Pos.to_uint p); congruence.
  - rewrite decimal_value_of_uint, DecimalPos.Unsigned.of_to. reflexivity.
Qed.

(** The version line that declares [n]. *)
Lemma version_line_declares (n : Z) :
  0 <= n <= 2147483647 ->
  sscanf (version_line (dec n)) version_format
  = {| sr_count := 1; sr_vals := [VInt n]; sr_erange := false |}.
Proof.
  intros Hn. destruct n as [|p|p]; [reflexivity| |lia].
  destruct (dec_positive p) as (Hd & Hnil & Hv).
  unfold version_line. rewrite Hd.
  rewrite sscanf_version_line; [rewrite Hv; reflexivity | exact Hnil | lia].
Qed.

Lemma parse_log_version_declared (uninit n : Z) (rest : channel) :
  0 <= n <= 2147483647 ->
  parse_log_version uninit (ChLine (version_line (dec n)) :: rest) None
  = (n, rest, None).
Proof.
  intros Hn. unfold parse_log_version.
  cbn [g_io_channel_read_line GIOStatus_eqb negb].
  rewrite (version_line_declares n Hn). reflexivity.
Qed.


(** The check of the version in [main]. *)
Lemma main_rejects_newer
      (uninit : Z) (argv1 : string) (ch ch' : channel) (w : World)
      (log_version : Z) :
  parse_log_version uninit ch None = (log_version, ch', None) ->
  PS2EMU_LOG_VERSION < log_version ->
  main get_line_type ps2_event_from_line section_type_from_line
       PS2EMU_LOG_VERSION uninit argv1 (inl ch) w
  = Ret {| exit_code := 1;
           stderr := [("Error: " ++ too_new log_version PS2EMU_LOG_VERSION
                         ++ Record.nl)%string];
           world := w; lists := no_events; unread := ch' |}.
Proof.
  intros Hp Hv. unfold main. rewrite Hp.
  replace (log_version >? PS2EMU_LOG_VERSION) with true
    by (symmetry; rewrite Z.gtb_ltb; apply Z.ltb_lt; exact Hv).
  reflexivity.
Qed.

(** The part of C6 the code does implement: a log whose version line
    declares a version [n] above the supported one, within the range of
    [int], makes [main] exit with status 1 and the too-new message.  The
    channel still holds every line after the version line, the three lists
    are empty and the world is as it was: no event line was read and nothing
    was replayed. *)
Theorem C6_newer_version_rejected
        (uninit : Z) (argv1 : string) (n : Z) (rest : channel) (w : World) :
  0 <= n <= 2147483647 ->
  PS2EMU_LOG_VERSION < n ->
  main get_line_type ps2_event_from_line section_type_from_line
       PS2EMU_LOG_VERSION uninit argv1
       (inl (ChLine (version_line (dec n)) :: rest)) w
  = Ret {| exit_code := 1;
           stderr := [("Error: " ++ too_new n PS2EMU_LOG_VERSION
                         ++ Record.nl)%string];
           world := w; lists := no_events; unread := rest |}.
Proof.
  intros Hn Hv. apply main_rejects_newer; [|exact Hv].
  apply parse_log_version_declared. exact Hn.
Qed.

End Main.



Lemma C6_newer_version_witness :
  main spec_get_line_type spec_ps2_event_from_line
       spec_section_type_from_line 1 0 "log"
       (inl (ChLine (version_line (dec 5)) :: map ChLine sample_body)) idle
  = Ret {| exit_code := 1;
           stderr := [("Error: " ++ too_new 5 1 ++ Record.nl)%string];
           world := idle; lists := no_events;
           unread := map ChLine sample_body |}.
Proof.
  apply (C6_newer_version_rejected
           spec_get_line_type spec_ps2_event_from_line
           spec_section_type_from_line 1 0 "log" 5
           (map ChLine sample_body) idle).
  - lia.
  - lia.
Defined.

(** C6: a declared version beyond the range of [int] is not rejected.
    [%d] stores 4294967297, which is 2^32 + 1, as 1 and [errno] stays 0, so
    [main] takes the log for one of version 1, which it supports: the body
    is parsed into the two section sequences and both are replayed, and the
    run ends with status 0 and nothing on the error stream. *)
Theorem C6_version_beyond_int_replayed :
  parse_log_version 0 beyond_int_log None
  = (1, map ChLine sample_body, None)
  /\ match
       main spec_get_line_type spec_ps2_event_from_line
            spec_section_type_from_line 1 0 "log" (inl beyond_int_log) idle
     with
     | Ret x =>
         exit_code x = 0
         /\ stderr x = []
         /\ unread x = []
         /\ List.length (init_event_list (lists x)) = 2%nat
         /\ List.length (main_event_list (lists x)) = 1%nat
         /\ map snd (frames (world x))
            = [{| cmd := PS2EMU_CMD_SET_PORT_TYPE; cmd_data := SERIO_8042 |};
               {| cmd := PS2EMU_CMD_BEGIN; cmd_data := SERIO_8042 |};
               {| cmd := PS2EMU_CMD_SEND_INTERRUPT; cmd_data := 95 |};
               {| cmd := PS2EMU_CMD_SEND_INTERRUPT; cmd_data := 250 |}]
     | Undefined => False
     end.
Proof.
  split; [vm_compute; reflexivity|].
  vm_compute. repeat split.
Qed.

(** The text of that log and of the error. *)
Lemma version_5_text :
  version_line (dec 5) = ("# ps2emu-record V5" ++ Record.nl)%string
  /\ too_new 5 1
     = "Log version is too new (found 5, we only support up to 1)".
Proof. split; reflexivity. Qed.

(** The legacy grammar is what a declared version 0 selects: the same body
    under a [V0] line is read into the single sequence, in input order. *)
Lemma declared_version_0_is_legacy :
  parse_log_version 7 (map ChLine (version_line "0" :: sample_legacy_body))
                    None
  = (0, map ChLine sample_legacy_body, None)
  /\ parse_events spec_get_line_type spec_ps2_event_from_line
                  spec_section_type_from_line
                  (map ChLine sample_legacy_body) 0 no_events None
     = Ret (true, [],
            {| event_list :=
                 [ {| time := 1000; type := Record.PS2_EVENT_TYPE_INTERRUPT;
                      data := 95; has_data := true; irq := 1; port := 0 |};
                   {| time := 2000; type := Record.PS2_EVENT_TYPE_KBD_DATA;
                      data := 244; has_data := true; irq := 0; port := 0 |} ];
               init_event_list := []; main_event_list := [] |},
            None).
Proof.
  split; reflexivity.
Qed.

End MainFacts.

(** ** The replay scheduler *)

Module SchedulerFacts.
Import CLib Replay.

Lemma next_spec (w : World) :
  now w <= now (snd (next w))
  /\ frames (snd (next w)) = frames w
  /\ slept (snd (next w)) = slept w
  /\ stdout (snd (next w)) = stdout w.
Proof.
  unfold next. destruct (oracle w) as [|s o]; simpl; repeat split; lia.
Qed.

Lemma simulate_interrupt_paced (w : World) (start_time : Z) (event : PS2Event)
      (error : option GError) :
  simulate_interrupt w start_time event error
  = let '(rc, w', error') :=
      send_ps2emu_cmd (paced w start_time event) PS2EMU_CMD_SEND_INTERRUPT
                      (data event) error in
    if negb (GIOStatus_eqb rc G_IO_STATUS_NORMAL) then (false, w', error')
    else (true, w', error').
Proof.
  unfold simulate_interrupt, paced.
  destruct (g_get_monotonic_time w) as [t w0]. reflexivity.
Qed.

(** What the pacing does: the sleep asked for is exactly the time still
    missing, and afterwards the clock is at or past the event's time. *)
Lemma paced_spec (w : World) (start_time : Z) (event : PS2Event) :
  let elapsed := fst (g_get_monotonic_time w) - start_time in
  slept (paced w start_time event)
  = slept w ++ (if elapsed <? time event then [time event - elapsed] else [])
  /\ frames (paced w start_time event) = frames w
  /\ stdout (paced w start_time event) = stdout w
  /\ now w <= now (paced w start_time event)
  /\ start_time + time event <= now (paced w start_time event).
Proof.
  unfold paced, g_get_monotonic_time.
  destruct (next_spec w) as (Hn & Hf & Hs & Ho).
  destruct (next w) as [s0 w0]. cbn [fst snd] in *.
  destruct (now w0 - start_time <? time event) eqn:E.
  - apply Z.ltb_lt in E. unfold g_usleep.
    destruct (next_spec w0) as (Hn1 & Hf1 & Hs1 & Ho1).
    destruct (next w0) as [s1 w1]. cbn [fst snd now slept frames stdout] in *.
    repeat split; try congruence; lia.
  - apply Z.ltb_ge in E. rewrite app_nil_r. repeat split; auto; lia.
Qed.

(** One interrupt event: either the frame is written, at or after the
    event's time, or the write fails and nothing is written. *)
Lemma simulate_interrupt_spec (w : World) (start_time : Z) (event : PS2Event) :
  exists r w' error',
    simulate_interrupt w start_time event None = (r, w', error')
    /\ now w <= now w'
    /\ stdout w' = stdout w
    /\ ((r = true /\ error' = None
         /\ exists tw,
              frames w' = frames w
                ++ [(tw, {| cmd := PS2EMU_CMD_SEND_INTERRUPT;
                            cmd_data := data event |})]
              /\ start_time + time event <= tw
              /\ now w <= tw <= now w')
        \/ (r = false /\ (error' = Some io_failed \/ error' = None)
            /\ frames w' = frames w)).
Proof.
  rewrite simulate_interrupt_paced.
  destruct (paced_spec w start_time event) as (_ & Hf & Ho & Hn & Ht).
  unfold send_ps2emu_cmd, g_io_channel_write_chars.
  destruct (next_spec (paced w start_time event)) as (Hn1 & Hf1 & _ & Ho1).
  destruct (next (paced w start_time event)) as [s1 w1].
  cbn [fst snd] in *.
  destruct (status s1); cbn [GIOStatus_eqb negb].
  2:{ eexists _, _, _. split; [reflexivity|].
      cbn [now frames stdout]. split; [lia|]. split; [congruence|].
      left. repeat split; trivial.
      exists (now w1). rewrite Hf1, Hf. repeat split; lia. }
  all: eexists _, _, _; (split; [reflexivity|]);
    (split; [lia|]); (split; [congruence|]);
    right; repeat split; try congruence; auto.
Qed.

Lemma simulate_receive_spec (w : World) (event : PS2Event) :
  exists r w' error',
    simulate_receive w event None = (r, w', error')
    /\ now w <= now w'
    /\ frames w' = frames w
    /\ ((r = true /\ error' = None)
        \/ (r = false /\ (error' = Some io_failed \/ error' = None))).
Proof.
  unfold simulate_receive, g_io_channel_read_chars.
  destruct (next_spec w) as (Hn & Hf & _ & _).
  destruct (next w) as [s0 w0]. cbn [fst snd] in *.
  destruct (status s0); cbn [GIOStatus_eqb negb].
  2:{ destruct (Record.data event =? wrap_unsigned 8 (byte s0));
        eexists _, _, _; (split; [reflexivity|]); cbn [now frames printf];
        auto. }
  all: eexists _, _, _; (split; [reflexivity|]);
    (split; [exact Hn|]); (split; [exact Hf|]); right; split; auto.
Qed.

Lemma interrupts_cons (event : PS2Event) (l : list PS2Event) :
  interrupts (event :: l)
  = if is_interrupt event then event :: interrupts l else interrupts l.
Proof. reflexivity. Qed.

(** The loop: the frames it writes are those of the interrupt events, in
    order, none before its event's time; they are written at increasing
    times; a run that returns true wrote them all, and a run that returns
    false carries the error of the call that failed, if that call gave
    one. *)
Lemma replay_loop_frames (start_time : Z) (l : list PS2Event) :
  forall w,
  exists r w' error' fs,
    replay_loop start_time l w None = (r, w', error')
    /\ frames w' = frames w ++ fs
    /\ now w <= now w'
    /\ Forall2 (sent_on_time start_time)
               (firstn (List.length fs) (interrupts l)) fs
    /\ Forall (fun f => now w <= fst f) fs
    /\ StronglySorted (fun a b : Z * ps2emu_cmd => fst a <= fst b) fs
    /\ (r = true ->
        List.length fs = List.length (interrupts l) /\ error' = None)
    /\ (r = false -> error' = Some io_failed \/ error' = None).
Proof.
  induction l as [|event l IH]; intros w.
  - exists true, w, None, []. rewrite app_nil_r. cbn.
    repeat split; auto; try lia; try constructor; discriminate.
  - cbn [replay_loop]. rewrite interrupts_cons.
    change (Record.PS2EventType_eqb (type event)
              Record.PS2_EVENT_TYPE_INTERRUPT) with (is_interrupt event).
    destruct (is_interrupt event).
    + destruct (simulate_interrupt_spec w start_time event)
        as (r & w1 & e1 & Heq & Hn & _ & H).
      rewrite Heq.
      destruct H as [(-> & -> & tw & Hf & Ht & Hb) | (-> & He1 & Hf)].
      * cbn [negb].
        destruct (IH w1) as (r2 & w2 & e2 & fs & Hl & Hf2 & Hn2 & Hs & Hge
                             & Hso & Hok & Hko).
        exists r2, w2, e2,
          ((tw, {| cmd := PS2EMU_CMD_SEND_INTERRUPT;
                   cmd_data := data event |}) :: fs).
        split; [exact Hl|].
        split; [rewrite Hf2, Hf, <- app_assoc; reflexivity|].
        split; [lia|].
        split; [cbn [List.length firstn]; constructor;
                [split; [reflexivity | exact Ht] | exact Hs]|].
        split; [constructor; [cbn [fst]; lia|];
                eapply Forall_impl; [|exact Hge]; cbn beta; intros; lia|].
        split; [constructor; [exact Hso|];
                eapply Forall_impl; [|exact Hge]; cbn [fst]; intros; lia|].
        split; [|exact Hko].
        intros Hr. destruct (Hok Hr) as [Hlen He]. cbn [List.length].
        split; [congruence | exact He].
      * cbn [negb]. exists false, w1, e1, [].
        rewrite app_nil_r. cbn [List.length firstn].
        repeat split; auto; try constructor; discriminate.
    + destruct (simulate_receive_spec w event)
        as (r & w1 & e1 & Heq & Hn & Hf & H).
      rewrite Heq.
      destruct H as [(-> & ->) | (-> & He1)].
      * cbn [negb].
        destruct (IH w1) as (r2 & w2 & e2 & fs & Hl & Hf2 & Hn2 & Hs & Hge
                             & Hso & Hok & Hko).
        exists r2, w2, e2, fs.
        split; [exact Hl|].
        split; [congruence|].
        split; [lia|].
        split; [exact Hs|].
        split; [eapply Forall_impl; [|exact Hge]; cbn beta; intros; lia|].
        auto.
      * cbn [negb]. exists false, w1, e1, [].
        rewrite app_nil_r. cbn [List.length firstn].
        repeat split; auto; try constructor; discriminate.
Qed.

Lemma simulate_interrupt_slept (w : World) (start_time : Z)
      (event : PS2Event) :
  slept (snd (fst (simulate_interrupt w start_time event None)))
  = slept (paced w start_time event).
Proof.
  rewrite simulate_interrupt_paced.
  unfold send_ps2emu_cmd, g_io_channel_write_chars.
  destruct (next_spec (paced w start_time event)) as (_ & _ & Hs & _).
  destruct (next (paced w start_time event)) as [s1 w1].
  cbn [fst snd] in *. destruct (status s1); cbn; congruence.
Qed.

(** A whole sequence: [replay_event_list] takes its start time, and every
    frame it writes is due to an interrupt event, in order and not before
    that event's time counted from the start. *)
Lemma replay_event_list_frames (w : World) (l : list PS2Event) :
  exists r w' error' fs,
    replay_event_list w l None = (r, w', error')
    /\ frames w' = frames w ++ fs
    /\ Forall2 (sent_on_time (fst (g_get_monotonic_time w)))
               (firstn (List.length fs) (interrupts l)) fs
    /\ StronglySorted (fun a b : Z * ps2emu_cmd => fst a <= fst b) fs
    /\ (r = true -> List.length fs = List.length (interrupts l)).
Proof.
  unfold replay_event_list, g_get_monotonic_time.
  destruct (next_spec w) as (_ & Hf & _ & _).
  destruct (next w) as [s0 w0]. cbn [fst snd] in *.
  destruct (replay_loop_frames (now w0) l w0)
    as (r & w' & e' & fs & Hl & Hfs & _ & Hs & _ & Hso & Hok & _).
  exists r, w', e', fs. rewrite Hl, Hfs, Hf.
  repeat split; auto. intros Hr. apply (Hok Hr).
Qed.

(** C3, amended.  For an Interrupt event the scheduler reads the clock,
    takes [elapsed] as the reading minus the start time, and asks
    [g_usleep] for exactly [time event - elapsed] when that is positive and
    for nothing otherwise; so over a whole sequence each frame written is
    that of an interrupt event, in order, and is written no earlier than the
    event's time after the start time (and later when a call oversleeps or
    takes time). *)
Theorem C3_interrupt_not_before_its_time :
  (forall (w : World) (start_time : Z) (event : PS2Event),
      let elapsed := fst (g_get_monotonic_time w) - start_time in
      slept (snd (fst (simulate_interrupt w start_time event None)))
      = slept w
          ++ (if elapsed <? time event then [time event - elapsed] else []))
  /\ (forall (w : World) (l : list PS2Event),
         exists r w' error' fs,
           replay_event_list w l None = (r, w', error')
           /\ frames w' = frames w ++ fs
           /\ Forall2 (sent_on_time (fst (g_get_monotonic_time w)))
                      (firstn (List.length fs) (interrupts l)) fs
           /\ StronglySorted (fun a b : Z * ps2emu_cmd => fst a <= fst b) fs
           /\ (r = true -> List.length fs = List.length (interrupts l))).
Proof.
  split.
  - intros w start_time event elapsed. rewrite simulate_interrupt_slept.
    apply paced_spec.
  - apply replay_event_list_frames.
Qed.

(** The example of the claim, measured from the start time: of two
    interrupts recorded at 0 and 50000, the second frame follows the first
    and is written at least 50000 microseconds after the start. *)
Lemma two_interrupts_second_after_50ms (w w' : World) (d1 d2 : Z)
      (error' : option GError) :
  replay_event_list w [interrupt_at 0 d1; interrupt_at 50000 d2] None
  = (true, w', error') ->
  exists t1 t2,
    frames w'
    = frames w
        ++ [(t1, {| cmd := PS2EMU_CMD_SEND_INTERRUPT; cmd_data := d1 |});
            (t2, {| cmd := PS2EMU_CMD_SEND_INTERRUPT; cmd_data := d2 |})]
    /\ fst (g_get_monotonic_time w) <= t1 <= t2
    /\ fst (g_get_monotonic_time w) + 50000 <= t2.
Proof.
  intros H.
  destruct (replay_event_list_frames w [interrupt_at 0 d1; interrupt_at 50000 d2])
    as (r & w2 & e2 & fs & Hl & Hf & Hs & Hso & Hok).
  rewrite H in Hl. injection Hl as <- <- <-.
  specialize (Hok eq_refl). cbn in Hok.
  destruct fs as [|[t1 c1] [|[t2 c2] [|x fs]]]; try discriminate.
  cbn in Hs. inversion Hs as [|? ? ? ? [Hc1 Ht1] Hs']; subst.
  inversion Hs' as [|? ? ? ? [Hc2 Ht2] _]; subst.
  cbn in *. subst c1 c2.
  inversion Hso as [|? ? _ Hall]; subst.
  inversion Hall as [|? ? Hle _]; subst. cbn in Hle.
  exists t1, t2. rewrite Hf. repeat split; trivial; lia.
Qed.

(** C3, as the claim states its example: the two frames can be less than
    50000 microseconds apart.  When the first event's clock read takes 10
    microseconds the first frame goes out at 10 and the second at 50000. *)
Lemma C3_frames_less_than_50ms_apart :
  exists w',
    replay_event_list slow_first_read two_interrupts None = (true, w', None)
    /\ frames w'
       = [(10, {| cmd := PS2EMU_CMD_SEND_INTERRUPT; cmd_data := 1 |});
          (50000, {| cmd := PS2EMU_CMD_SEND_INTERRUPT; cmd_data := 2 |})]
    /\ slept w' = [49990]
    /\ 50000 - 10 < 50000.
Proof.
  eexists. split; [reflexivity|]. repeat split.
Qed.

(** The part of C8 the code does implement.  On a receive event a byte
    that differs from the recorded one is reported on standard output, in
    one line that names both bytes; nothing is written to the device and
    the loop goes on with the next event.  A read that fails with an
    error, and on an interrupt event a write that fails with an error, ends
    the loop at once with that error in the slot, whatever events remain. *)
Lemma mismatch_continues_error_aborts
      (start_time : Z) (event : PS2Event) (rest : list PS2Event)
      (w : World) :
  (is_interrupt event = false ->
   status (fst (next w)) = G_IO_STATUS_NORMAL ->
   wrap_unsigned 8 (byte (fst (next w))) <> data event ->
   exists w1,
     simulate_receive w event None = (true, w1, None)
     /\ stdout w1
        = stdout w
            ++ [("Expected " ++ hhx (data event) ++ ", received "
                   ++ hhx (wrap_unsigned 8 (byte (fst (next w))))
                   ++ Record.nl)%string]
     /\ frames w1 = frames w
     /\ replay_loop start_time (event :: rest) w None
        = replay_loop start_time rest w1 None)
  /\ (is_interrupt event = false ->
      status (fst (next w)) = G_IO_STATUS_ERROR ->
      replay_loop start_time (event :: rest) w None
      = (false, snd (next w), Some io_failed))
  /\ (is_interrupt event = true ->
      status (fst (next (paced w start_time event))) = G_IO_STATUS_ERROR ->
      replay_loop start_time (event :: rest) w None
      = (false, snd (next (paced w start_time event)), Some io_failed)).
Proof.
  repeat split.
  - intros Hi Hok Hne. cbn [replay_loop]. unfold is_interrupt in Hi.
    rewrite Hi. unfold simulate_receive, g_io_channel_read_chars.
    destruct (next_spec w) as (_ & Hf & _ & Ho).
    destruct (next w) as [s0 w0]. cbn [fst snd] in *. rewrite Hok.
    cbn [GIOStatus_eqb negb].
    replace (Record.data event =? wrap_unsigned 8 (byte s0)) with false
      by (symmetry; apply Z.eqb_neq; congruence).
    eexists. split; [reflexivity|]. cbn [printf stdout frames].
    rewrite Ho. repeat split. exact Hf.
  - intros Hi Hok. cbn [replay_loop]. unfold is_interrupt in Hi.
    rewrite Hi. unfold simulate_receive, g_io_channel_read_chars.
    destruct (next w) as [s0 w0]. cbn [fst snd] in *. rewrite Hok.
    reflexivity.
  - intros Hi Hok. cbn [replay_loop]. unfold is_interrupt in Hi.
    rewrite Hi. rewrite simulate_interrupt_paced.
    unfold send_ps2emu_cmd, g_io_channel_write_chars.
    destruct (next (paced w start_time event)) as [s1 w1].
    cbn [fst snd] in *. rewrite Hok. reflexivity.
Qed.

Lemma mismatch_example :
  (exists w1,
      simulate_receive (answers 254) (return_of 100 250) None
      = (true, w1, None)
      /\ stdout w1
         = stdout (answers 254)
             ++ [("Expected fa, received fe" ++ Record.nl)%string]
      /\ frames w1 = frames (answers 254)
      /\ replay_loop 0 [return_of 100 250; interrupt_at 0 1] (answers 254)
                     None
         = replay_loop 0 [interrupt_at 0 1] w1 None)
  /\ replay_loop 0 [return_of 100 250; interrupt_at 0 1] broken None
     = (false, snd (next broken), Some io_failed)
  /\ replay_loop 0 [interrupt_at 0 1; return_of 100 250] broken_write None
     = (false, snd (next (paced broken_write 0 (interrupt_at 0 1))),
        Some io_failed).
Proof.
  split; [|split].
  - apply (proj1 (mismatch_continues_error_aborts
                    0 (return_of 100 250) [interrupt_at 0 1] (answers 254)));
      [reflexivity | reflexivity | vm_compute; discriminate].
  - apply (proj1 (proj2 (mismatch_continues_error_aborts
                    0 (return_of 100 250) [interrupt_at 0 1] broken)));
      reflexivity.
  - apply (proj2 (proj2 (mismatch_continues_error_aborts
                    0 (interrupt_at 0 1) [return_of 100 250] broken_write)));
      reflexivity.
Qed.

(** A read that comes back without a byte and without an error, at end of
    file or because the descriptor would block, ends the loop as a failed
    read does, but leaves the error slot empty. *)
Lemma read_without_byte_aborts
      (start_time : Z) (event : PS2Event) (rest : list PS2Event)
      (w : World) :
  is_interrupt event = false ->
  status (fst (next w)) = G_IO_STATUS_EOF
  \/ status (fst (next w)) = G_IO_STATUS_AGAIN ->
  simulate_receive w event None = (false, snd (next w), None)
  /\ replay_loop start_time (event :: rest) w None
     = (false, snd (next w), None).
Proof.
  intros Hi Hrc. cbn [replay_loop]. unfold is_interrupt in Hi. rewrite Hi.
  unfold simulate_receive, g_io_channel_read_chars.
  destruct (next w) as [s0 w0]. cbn [fst snd] in *.
  destruct Hrc as [-> | ->]; split; reflexivity.
Qed.

(** C8: a read failure that is not a fatal I/O error.  When the read of a
    receive event gets no byte, [simulate_receive] returns false with the
    error slot empty and the loop ends at that event, the events after it
    not replayed.
    [main] then goes to its error label and prints the message of an error
    that is not there: the run is undefined, where a read that fails with
    an error ends it with status 1 and the I/O error on the error
    stream. *)
Theorem C8_read_without_byte_is_no_io_error :
  simulate_receive at_eof (return_of 100 250) None
  = (false, snd (next at_eof), None)
  /\ replay_loop 0 [return_of 100 250; interrupt_at 0 1] at_eof None
     = (false, snd (next at_eof), None)
  /\ main spec_get_line_type spec_ps2_event_from_line
          spec_section_type_from_line 1 0 "log"
          (inl (map ChLine (version_line "1" :: sample_body)))
          eof_at_first_read
     = Undefined.
Proof.
  repeat split; vm_compute; reflexivity.
Qed.

(** A failed call is fatal for [main] as well: the initialization sequence
    stops at the failed read, the main sequence is not replayed, and the
    exit status is 1. *)
Lemma main_read_failure_is_fatal :
  match
    main spec_get_line_type spec_ps2_event_from_line
         spec_section_type_from_line 1 0 "log"
         (inl (map ChLine (version_line "1" :: sample_body)))
         {| now := 0;
            oracle := [quiet; quiet; quiet; quiet; quiet; quiet; quiet; quiet;
                       {| lat := 0; status := G_IO_STATUS_ERROR; byte := 0 |}];
            frames := []; slept := []; stdout := [] |}
  with
  | Ret x =>
      exit_code x = 1
      /\ stderr x = [("Error: Input/output error" ++ Record.nl)%string]
      /\ List.length (frames (world x)) = 3%nat
      /\ stdout (world x)
         = [("Replaying initialization sequence..." ++ Record.nl)%string]
  | Undefined => False
  end.
Proof.
  vm_compute. repeat split.
Qed.

End SchedulerFacts.

(** ** Lines that are read back *)

Module TextFacts.
Import CLib Record Pipeline CLibFacts.

Lemma append_assoc (a b c : string) : ((a ++ b) ++ c = a ++ (b ++ c))%string.
Proof.
  induction a as [|x a IH]; cbn [String.append]; [reflexivity | now rewrite IH].
Qed.

Lemma append_nil_r (a : string) : (a ++ EmptyString)%string = a.
Proof.
  induction a as [|x a IH]; cbn [String.append]; [reflexivity | now rewrite IH].
Qed.

(** A printed natural number is a non-empty run of decimal digits whose
    value is the number. *)
Lemma dec_nonneg (n : Z) :
  0 <= n ->
  exists d,
    d <> Decimal.Nil
    /\ Replay.dec n = NilEmpty.string_of_uint d
    /\ decimal_value d 0 = n.
Proof.
  intros Hn. destruct n as [|p|p]; [| |lia].
  - exists (Decimal.D0 Decimal.Nil). repeat split. discriminate.
  - destruct (MainFacts.dec_positive p) as (Hd & Hnil & Hv).
    exists (Pos.to_uint p). auto.
Qed.

Lemma wrap_signed_small (len : int_len) (n : Z) :
  0 <= n < 2 ^ (len_bits len - 1) ->
  wrap_signed (len_bits len) n = n.
Proof.
  intros Hn. unfold wrap_signed.
  destruct len; cbn [len_bits] in *;
    match goal with
    | |- context [2 ^ (?b - 1)] =>
        let v := eval vm_compute in (2 ^ (b - 1)) in
        change (2 ^ (b - 1)) with v in *;
        let u := eval vm_compute in (2 ^ b) in
        change (2 ^ b) with u
    end; rewrite Z.mod_small; lia.
Qed.

Lemma clamp_long_small (n : Z) :
  0 <= n <= LONG_MAX -> clamp_long false n = (n, false).
Proof.
  intros Hn. unfold clamp_long, LONG_MAX, LONG_MIN in *.
  replace (2 ^ 63 - 1 <? n) with false by (symmetry; apply Z.ltb_ge; lia).
  replace (n <? - 2 ^ 63) with false by (symmetry; apply Z.ltb_ge; lia).
  reflexivity.
Qed.

(** [%ld], [%d] and [%hd] read back a printed number that fits, up to a
    text that does not go on with a digit. *)
Lemma step_conv_d (len : int_len) (n : Z) (rest : string)
      (fmt : list directive) (vals : list sval) (e : bool) :
  0 <= n < 2 ^ (len_bits len - 1) ->
  no_digit_head rest ->
  scanf_run (Conv_d len :: fmt) (Replay.dec n ++ rest) vals e
  = scanf_run fmt rest (vals ++ [VInt n]) e.
Proof.
  intros Hn Hrest.
  destruct (dec_nonneg n) as (d & Hd & Hdec & Hv); [lia|].
  destruct (scan_sign_decimal d rest Hd) as (Hsign & Hskip & Hne & k & Hk).
  rewrite Hdec.
  rewrite scanf_run_conv_d by (rewrite Hskip; exact Hne).
  rewrite Hskip, scan_int_10, Hsign.
  rewrite scan_digits_decimal by exact Hrest.
  rewrite Hk, Hv. cbn [Nat.add].
  assert (Hlong : 0 <= n <= LONG_MAX).
  { unfold LONG_MAX. destruct len; cbn [len_bits] in Hn; lia. }
  rewrite (clamp_long_small n Hlong).
  rewrite (wrap_signed_small len n Hn), orb_false_r. reflexivity.
Qed.

Lemma step_lit (c : ascii) (r : string) (fmt : list directive)
      (vals : list sval) (e : bool) :
  scanf_run (Lit c :: fmt) (String c r) vals e = scanf_run fmt r vals e.
Proof.
  cbn [scanf_run]. now rewrite Ascii.eqb_refl.
Qed.

Lemma step_lits (s r : string) (fmt : list directive) (vals : list sval)
      (e : bool) :
  scanf_run (lits s ++ fmt) (s ++ r) vals e = scanf_run fmt r vals e.
Proof.
  induction s as [|c s IH]; [reflexivity|].
  unfold lits in *. cbn [list_ascii_of_string map app String.append].
  rewrite step_lit. exact IH.
Qed.

Lemma step_conv_set (assign : bool) (width : option nat) (negated : bool)
      (set : list ascii) (fmt : list directive) (inp : string)
      (vals : list sval) (e : bool) (c : ascii) (m r : string) :
  scan_set width negated set inp = (String c m, r) ->
  scanf_run (Conv_set assign width negated set :: fmt) inp vals e
  = scanf_run fmt r (if assign then vals ++ [VStr (String c m)] else vals) e.
Proof.
  intros H. cbn [scanf_run]. destruct inp as [|a inp'].
  - destruct width as [[|w]|]; discriminate.
  - rewrite H. reflexivity.
Qed.


Lemma scanf_run_conv_x len fmt inp vals e :
  skip_space inp <> EmptyString ->
  scanf_run (Conv_x len :: fmt) inp vals e
  = match scan_int 16 (skip_space inp) with
    | None => scan_stop vals e
    | Some (neg, mag, r) =>
        let '(v, e') := clamp_ulong neg mag in
        scanf_run fmt r (vals ++ [VInt (wrap_unsigned (len_bits len) v)])
                  (e || e')
    end.
Proof.
  cbn [scanf_run]. destruct (skip_space inp); [congruence | reflexivity].
Qed.

(** Two hexadecimal digits followed by a blank read back as their byte. *)
Lemma hex2_scan (d : Z) :
  0 <= d < 256 ->
  forall r,
    skip_space (hex2 d ++ String " " r) = (hex2 d ++ String " " r)%string
    /\ (hex2 d ++ String " " r)%string <> EmptyString
    /\ scan_int 16 (hex2 d ++ String " " r) = Some (false, d, String " " r).
Proof.
  intros Hd.
  assert (H : forall n : nat, (n < 256)%nat -> forall r,
            skip_space (hex2 (Z.of_nat n) ++ String " " r)
            = (hex2 (Z.of_nat n) ++ String " " r)%string
            /\ (hex2 (Z.of_nat n) ++ String " " r)%string <> EmptyString
            /\ scan_int 16 (hex2 (Z.of_nat n) ++ String " " r)
               = Some (false, Z.of_nat n, String " " r)).
  { intros n Hn r.
    do 256 (destruct n as [|n];
            [split; [reflexivity | split; [discriminate | reflexivity]]|]).
    lia. }
  intros r. replace d with (Z.of_nat (Z.to_nat d)) by lia. apply H. lia.
Qed.

Lemma step_conv_x_hex2 (d : Z) (r : string) (fmt : list directive)
      (vals : list sval) (e : bool) :
  0 <= d < 256 ->
  scanf_run (Conv_x LenChar :: fmt) (hex2 d ++ String " " r) vals e
  = scanf_run fmt (String " " r) (vals ++ [VInt d]) e.
Proof.
  intros Hd. destruct (hex2_scan d Hd r) as (Hskip & Hne & Hscan).
  rewrite scanf_run_conv_x by (rewrite Hskip; exact Hne).
  rewrite Hskip, Hscan. unfold clamp_ulong, ULONG_MAX.
  replace (2 ^ 64 - 1 <? d) with false by (symmetry; apply Z.ltb_ge; lia).
  unfold wrap_unsigned. cbn [len_bits].
  rewrite (Z.mod_small d (2 ^ 64)) by lia.
  rewrite (Z.mod_small d (2 ^ 8)) by lia.
  rewrite orb_false_r. reflexivity.
Qed.

Lemma free_of_app (c : ascii) (a b : string) :
  free_of c (a ++ b) = free_of c a && free_of c b.
Proof.
  induction a as [|x a IH]; cbn [String.append free_of]; [reflexivity|].
  rewrite IH. apply andb_assoc.
Qed.

Lemma free_of_uint (c : ascii) (d : Decimal.uint) :
  digit_in_base 10 c = None ->
  free_of c (NilEmpty.string_of_uint d) = true.
Proof.
  intros Hc.
  induction d; cbn [NilEmpty.string_of_uint free_of]; try reflexivity;
    rewrite IHd, andb_true_r; apply negb_true_iff, Ascii.eqb_neq;
    intros <-; discriminate.
Qed.

Lemma free_of_dec (c : ascii) (n : Z) :
  0 <= n -> digit_in_base 10 c = None -> free_of c (Replay.dec n) = true.
Proof.
  intros Hn Hc. destruct (dec_nonneg n Hn) as (d & _ & -> & _).
  now apply free_of_uint.
Qed.

(** A scanset [[^c]] reads up to the first [c]. *)
Lemma scan_set_until (c : ascii) (s tail : string) :
  free_of c s = true ->
  scan_set None true [c] (s ++ String c tail) = (s, String c tail).
Proof.
  induction s as [|a s IH]; cbn [String.append free_of scan_set option_map];
    intros H.
  - unfold in_set. cbn [existsb]. rewrite Ascii.eqb_refl. reflexivity.
  - apply andb_true_iff in H. destruct H as [Ha Hs].
    apply negb_true_iff in Ha. unfold in_set. cbn [existsb].
    rewrite Ha. cbn [orb xorb]. rewrite (IH Hs). reflexivity.
Qed.

(** [g_strsplit] cuts at the delimiter and nowhere else. *)
Lemma split_on_free (c : ascii) (s : string) :
  forall cur, free_of c s = true -> split_on c cur s = [(cur ++ s)%string].
Proof.
  induction s as [|a s IH]; intros cur H; cbn [split_on].
  - now rewrite append_nil_r.
  - cbn [free_of] in H. apply andb_true_iff in H. destruct H as [Ha Hs].
    apply negb_true_iff in Ha. rewrite Ha, (IH _ Hs), append_assoc.
    reflexivity.
Qed.

Lemma split_on_delim (c : ascii) (s r : string) :
  forall cur,
    free_of c s = true ->
    split_on c cur (s ++ String c r)
    = (cur ++ s)%string :: split_on c EmptyString r.
Proof.
  induction s as [|a s IH]; intros cur H; cbn [String.append split_on].
  - now rewrite Ascii.eqb_refl, append_nil_r.
  - cbn [free_of] in H. apply andb_true_iff in H. destruct H as [Ha Hs].
    apply negb_true_iff in Ha. rewrite Ha, (IH _ Hs), append_assoc.
    reflexivity.
Qed.

(** [strtol] on a blank and a printed number. *)
Lemma strtol_dec (n : Z) :
  0 <= n ->
  strtol (String " " (Replay.dec n)) = clamp_long false n.
Proof.
  intros Hn. destruct (dec_nonneg n Hn) as (d & Hd & Hdec & Hv).
  destruct (scan_sign_decimal d EmptyString Hd) as (Hsign & Hskip & _ & k & Hk).
  rewrite append_nil_r in Hsign, Hskip.
  unfold strtol. rewrite Hdec.
  change (skip_space (String " " (NilEmpty.string_of_uint d)))
    with (skip_space (NilEmpty.string_of_uint d)).
  rewrite Hskip, Hsign.
  pose proof (scan_digits_decimal d 0 0%nat EmptyString I) as Hs.
  rewrite append_nil_r in Hs. rewrite Hs, Hk, Hv. reflexivity.
Qed.


Lemma skip_space_blank (r : string) :
  skip_space (String " " r) = skip_space r.
Proof. reflexivity. Qed.

Lemma step_space (fmt : list directive) (inp : string) (vals : list sval)
      (e : bool) :
  scanf_run (Space :: fmt) inp vals e = scanf_run fmt (skip_space inp) vals e.
Proof. reflexivity. Qed.

(** What [sscanf] makes of a line of the data-bearing shape: the time, the
    byte and the text between the parentheses. *)
Lemma sscanf_normal_line (t d : Z) (to_device : bool) (body : string) :
  0 <= t <= LONG_MAX ->
  0 <= d < 256 ->
  free_of ")" body = true ->
  body <> EmptyString ->
  sscanf ("[" ++ Replay.dec t ++ "] " ++ hex2 d ++ " " ++ arrow to_device
              ++ " i8042 (" ++ body ++ ")" ++ nl) normal_event_format
  = {| sr_count := 3; sr_vals := [VInt t; VInt d; VStr body];
       sr_erange := false |}.
Proof.
  intros Ht Hd Hfree Hne.
  unfold sscanf, normal_event_format.
  cbn [lits list_ascii_of_string map app String.append].
  rewrite step_lit.
  rewrite step_conv_d;
    [|cbn [len_bits]; unfold LONG_MAX in Ht; lia | reflexivity].
  rewrite step_lit, step_space, skip_space_blank.
  pose proof (hex2_scan d Hd) as Hhex.
  rewrite (proj1 (Hhex _)), step_conv_x_hex2 by exact Hd.
  rewrite step_space, skip_space_blank.
  destruct body as [|c body']; [congruence|].
  assert (Hset : scan_set None true [")"%char]
                   (String c body' ++ String ")" nl)
                 = (String c body', String ")" nl))
    by (apply scan_set_until; exact Hfree).
  destruct to_device; cbn [arrow String.append].
  - erewrite step_conv_set by reflexivity.
    erewrite step_conv_set by reflexivity.
    rewrite step_space, skip_space_blank.
    change (skip_space (String "i" ?x)) with (String "i" x).
    rewrite !step_lit, step_space, skip_space_blank.
    change (skip_space (String "(" ?x)) with (String "(" x).
    rewrite step_lit, (step_conv_set _ _ _ _ _ _ _ _ _ _ _ Hset), step_lit.
    reflexivity.
  - erewrite step_conv_set by reflexivity.
    erewrite step_conv_set by reflexivity.
    rewrite step_space, skip_space_blank.
    change (skip_space (String "i" ?x)) with (String "i" x).
    rewrite !step_lit, step_space, skip_space_blank.
    change (skip_space (String "(" ?x)) with (String "(" x).
    rewrite step_lit, (step_conv_set _ _ _ _ _ _ _ _ _ _ _ Hset), step_lit.
    reflexivity.
Qed.


Lemma skip_space_dec (n : Z) (rest : string) :
  0 <= n -> skip_space (Replay.dec n ++ rest) = (Replay.dec n ++ rest)%string.
Proof.
  intros Hn. destruct (dec_nonneg n Hn) as (d & Hd & -> & _).
  apply (scan_sign_decimal d rest Hd).
Qed.

Lemma sscanf_bare_interrupt_line (t i : Z) :
  0 <= t <= LONG_MAX ->
  0 <= i <= 32767 ->
  sscanf (bare_interrupt_line t i) interrupt_without_data_format
  = {| sr_count := 2; sr_vals := [VInt t; VInt i]; sr_erange := false |}.
Proof.
  intros Ht Hi.
  unfold sscanf, interrupt_without_data_format, bare_interrupt_line.
  cbn [lits list_ascii_of_string map app String.append].
  rewrite step_lit.
  rewrite step_conv_d;
    [|cbn [len_bits]; unfold LONG_MAX in Ht; lia | reflexivity].
  rewrite step_lit, step_space, skip_space_blank.
  change (skip_space (String "I" ?x)) with (String "I" x).
  rewrite !step_lit, step_space, skip_space_blank.
  rewrite skip_space_dec by lia.
  rewrite step_conv_d; [|cbn [len_bits]; lia | reflexivity].
  rewrite step_lit, step_space, skip_space_blank.
  change (skip_space (String "w" ?x)) with (String "w" x).
  rewrite !step_lit, step_space, skip_space_blank.
  change (skip_space (String "a" ?x)) with (String "a" x).
  rewrite !step_lit, step_space, skip_space_blank.
  change (skip_space (String "d" ?x)) with (String "d" x).
  rewrite !step_lit.
  reflexivity.
Qed.

Lemma split_interrupt_args (p i : Z) :
  0 <= p -> 0 <= i ->
  g_strsplit ("interrupt, " ++ Replay.dec p ++ ", " ++ Replay.dec i) ","
  = ["interrupt"; String " " (Replay.dec p); String " " (Replay.dec i)].
Proof.
  intros Hp Hi. unfold g_strsplit. cbn [String.append].
  change (split_on "," EmptyString
            ("interrupt"
               ++ String ","
                    (String " " (Replay.dec p)
                       ++ String "," (String " " (Replay.dec i))))
          = ["interrupt"; String " " (Replay.dec p);
             String " " (Replay.dec i)]).
  rewrite split_on_delim by reflexivity.
  rewrite split_on_delim
    by (cbn [free_of]; rewrite free_of_dec; [reflexivity | lia | reflexivity]).
  rewrite split_on_free
    by (cbn [free_of]; rewrite free_of_dec; [reflexivity | lia | reflexivity]).
  reflexivity.
Qed.

Lemma interrupt_line_shape (t d p i : Z) :
  interrupt_line t d p i
  = ("[" ++ Replay.dec t ++ "] " ++ hex2 d ++ " " ++ arrow false
         ++ " i8042 ("
         ++ ("interrupt, " ++ Replay.dec p ++ ", " ++ Replay.dec i)
         ++ ")" ++ nl)%string.
Proof.
  unfold interrupt_line. cbn [String.append arrow].
  rewrite append_assoc. cbn [String.append]. reflexivity.
Qed.

Lemma interrupt_body_free (p i : Z) :
  0 <= p -> 0 <= i ->
  free_of ")" ("interrupt, " ++ Replay.dec p ++ ", " ++ Replay.dec i) = true.
Proof.
  intros Hp Hi.
  change ("interrupt, " ++ Replay.dec p ++ ", " ++ Replay.dec i)%string
    with ("interrupt, " ++ (Replay.dec p ++ (", " ++ Replay.dec i)))%string.
  rewrite !free_of_app, !free_of_dec by (trivial; reflexivity).
  reflexivity.
Qed.

End TextFacts.

Module GrammarFacts.
Import CLib Record Pipeline CLibFacts TextFacts RecordFacts.

(** X1: a line of the data-bearing shape with a kind that takes no argument
    parses to the event it spells: the time, the byte and the type are
    those of the line, [has_data] is set, and [irq] and [port] stay as they
    were. *)
Theorem X_data_line_round_trip
        (t d : Z) (to_device : bool) (k : PS2EventType)
        (event : PS2Event) (error : option GError) :
  0 <= t <= LONG_MAX ->
  0 <= d < 256 ->
  k <> PS2_EVENT_TYPE_INTERRUPT ->
  parse_normal_event (data_line t d to_device k) event error
  = (true,
     {| time := t; type := k; data := d; has_data := true;
        irq := irq event; port := port event |},
     error).
Proof.
  intros Ht Hd Hk. unfold parse_normal_event, data_line.
  rewrite sscanf_normal_line;
    [| exact Ht | exact Hd | destruct k; reflexivity
     | destruct k; discriminate].
  destruct k; try congruence; reflexivity.
Qed.

(** X2: a line of the interrupt form parses to the Interrupt event with the
    time, byte, port and irq it spells. *)
Theorem X_interrupt_line_round_trip
        (t d p i : Z) (event : PS2Event) (error : option GError) :
  0 <= t <= LONG_MAX ->
  0 <= d < 256 ->
  0 <= p <= 2147483647 ->
  0 <= i <= 32767 ->
  parse_normal_event (interrupt_line t d p i) event error
  = (true,
     {| time := t; type := PS2_EVENT_TYPE_INTERRUPT; data := d;
        has_data := true; irq := i; port := p |},
     error).
Proof.
  intros Ht Hd Hp Hi.
  rewrite interrupt_line_shape.
  unfold parse_normal_event.
  rewrite sscanf_normal_line;
    [| exact Ht | exact Hd | apply interrupt_body_free; lia | discriminate].
  cbn [sr_erange sr_count sr_vals orb negb Z.eqb Pos.eqb store_normal].
  rewrite split_interrupt_args by lia.
  cbn [nth List.length].
  change (String.eqb "interrupt" "interrupt") with true. cbv iota.
  change (Z.of_nat 3 <? 3) with false. cbv iota.
  rewrite !strtol_dec by lia.
  rewrite !clamp_long_small by (unfold LONG_MAX; lia).
  pose proof (wrap_signed_small LenInt p) as Hwp.
  pose proof (wrap_signed_small LenShort i) as Hwi.
  cbn [len_bits] in Hwp, Hwi.
  change (2 ^ (32 - 1)) with 2147483648 in Hwp.
  change (2 ^ (16 - 1)) with 32768 in Hwi.
  rewrite Hwp, Hwi by lia.
  reflexivity.
Qed.

(** X3: a port number beyond the range of [long] is an input error. *)
Theorem X_interrupt_port_out_of_range
        (t d p i : Z) (event : PS2Event) :
  0 <= t <= LONG_MAX ->
  0 <= d < 256 ->
  LONG_MAX < p ->
  0 <= i ->
  exists event',
    parse_normal_event (interrupt_line t d p i) event None
    = (false, event',
       Some {| code := PS2_ERROR_INPUT;
               message := ("Failed to parse port number from interrupt event: "
                             ++ ERANGE_str ++ nl)%string |})
    /\ type event' = PS2_EVENT_TYPE_INTERRUPT.
Proof.
  intros Ht Hd Hp Hi.
  rewrite interrupt_line_shape.
  unfold parse_normal_event.
  rewrite sscanf_normal_line;
    [| exact Ht | exact Hd
     | apply interrupt_body_free; unfold LONG_MAX in Hp; lia | discriminate].
  cbn [sr_erange sr_count sr_vals orb negb Z.eqb Pos.eqb store_normal].
  rewrite split_interrupt_args by (unfold LONG_MAX in Hp; lia).
  cbn [nth List.length].
  change (String.eqb "interrupt" "interrupt") with true. cbv iota.
  change (Z.of_nat 3 <? 3) with false. cbv iota.
  rewrite strtol_dec by (unfold LONG_MAX in Hp; lia).
  unfold clamp_long.
  replace (LONG_MAX <? p) with true by (symmetry; apply Z.ltb_lt; exact Hp).
  eexists. split; reflexivity.
Qed.

(** X4: a line of the data-less form parses to an Interrupt event without
    data: the time and irq are those of the line, and [data] and [port]
    stay as they were. *)
Theorem X_bare_interrupt_round_trip
        (t i : Z) (event : PS2Event) (error : option GError) :
  0 <= t <= LONG_MAX ->
  0 <= i <= 32767 ->
  parse_interrupt_without_data (bare_interrupt_line t i) event error
  = (true,
     {| time := t; type := PS2_EVENT_TYPE_INTERRUPT; data := data event;
        has_data := false; irq := i; port := port event |},
     error).
Proof.
  intros Ht Hi. unfold parse_interrupt_without_data.
  rewrite sscanf_bare_interrupt_line by assumption.
  reflexivity.
Qed.


(** Either [sscanf] stops inside ["[%ld] "] with at most one assignment,
    or it goes on with the rest of the format from a point of the input
    that does not depend on that rest. *)
Lemma time_prefix (inp : string) :
  (exists res,
      sr_count res <= 1
      /\ forall fmt, scanf_run (time_prefix_format ++ fmt) inp [] false = res)
  \/ (exists r t e',
         forall fmt,
           scanf_run (time_prefix_format ++ fmt) inp [] false
           = scanf_run fmt r [VInt t] e').
Proof.
  unfold time_prefix_format. cbn [app scanf_run].
  destruct inp as [|a r0].
  { left. eexists. split; [|reflexivity]. cbn. lia. }
  destruct (Ascii.eqb "[" a).
  2:{ left. eexists. split; [|reflexivity]. cbn. lia. }
  destruct (skip_space r0) as [|b r1].
  { left. eexists. split; [|reflexivity]. cbn. lia. }
  destruct (scan_int 10 (String b r1)) as [[[neg mag] r2]|].
  2:{ left. eexists. split; [|reflexivity]. cbn. lia. }
  destruct (clamp_long neg mag) as [v e']. cbn [app].
  destruct r2 as [|c r3].
  { left. eexists. split; [|reflexivity]. cbn. lia. }
  destruct (Ascii.eqb "]" c).
  2:{ left. eexists. split; [|reflexivity]. cbn. lia. }
  right. eexists _, _, _. reflexivity.
Qed.

Lemma parse_normal_event_true (start_pos : string) (event : PS2Event)
      (error : option GError) :
  fst (fst (parse_normal_event start_pos event error)) = true ->
  matches_normal_shape start_pos = true.
Proof.
  unfold parse_normal_event, matches_normal_shape.
  destruct (sr_erange (sscanf start_pos normal_event_format)); cbn [orb negb].
  - discriminate.
  - destruct (sr_count (sscanf start_pos normal_event_format) =? 3);
      [reflexivity | discriminate].
Qed.

(** X5: no payload is of both event shapes: when the data-bearing parser
    accepts a payload the data-less one rejects it, whatever the events and
    error slots they are given. *)
Theorem X_event_shapes_exclusive
        (start_pos : string) (e1 e2 : PS2Event) (err1 err2 : option GError) :
  fst (fst (parse_normal_event start_pos e1 err1)) = true ->
  fst (fst (parse_interrupt_without_data start_pos e2 err2)) = false.
Proof.
  intros H. apply parse_normal_event_true in H.
  apply matches_normal_shape_inv in H. destruct H as [_ Hc].
  unfold parse_interrupt_without_data.
  replace (sr_count (sscanf start_pos interrupt_without_data_format) =? 2)
    with false; [now rewrite orb_true_r|].
  symmetry. apply Z.eqb_neq. intros H2.
  unfold sscanf in Hc, H2.
  change normal_event_format
    with (time_prefix_format
            ++ Conv_x LenChar :: skipn 5 normal_event_format) in Hc.
  change interrupt_without_data_format
    with (time_prefix_format
            ++ Lit "I" :: skipn 5 interrupt_without_data_format) in H2.
  destruct (time_prefix start_pos) as [(res & Hres & Heq) | (r & t & e' & Heq)].
  - rewrite Heq in Hc. lia.
  - rewrite Heq in Hc, H2. cbn [scanf_run] in H2.
    destruct r as [|c r']; [cbn in H2; lia|].
    destruct (Ascii.eqb_spec "I" c) as [<-|_]; [|cbn in H2; lia].
    cbn in Hc. lia.
Qed.

Lemma X_event_shapes_exclusive_witness :
  fst (fst (parse_interrupt_without_data
              ("[1000] 5f <- i8042 (interrupt,0,1)" ++ nl) ev0 None))
  = false.
Proof.
  apply (X_event_shapes_exclusive
           ("[1000] 5f <- i8042 (interrupt,0,1)" ++ nl) ev0 ev0 None None).
  reflexivity.
Defined.


Lemma g_set_error_changed (error : option GError) (c : PS2Error) (msg : string) :
  g_set_error error c msg <> error ->
  error = None.
Proof.
  destruct error; [intros H; now elim H | reflexivity].
Qed.

(** The paths of [parse_normal_event] and what each does to the slot. *)
Lemma parse_normal_event_error_slot
      (start_pos : string) (event event' : PS2Event)
      (error error' : option GError) (ok : bool) :
  parse_normal_event start_pos event error = (ok, event', error') ->
  (ok = true ->
   error' = error /\ has_data event' = true
   /\ matches_normal_shape start_pos = true)
  /\ (matches_normal_shape start_pos = false ->
      ok = false /\ error' = error)
  /\ (error' <> error ->
      ok = false /\ error = None
      /\ (exists msg,
             error' = Some {| code := PS2_ERROR_INPUT; message := msg |})
      /\ event_kind start_pos = "interrupt"
      /\ type event' = PS2_EVENT_TYPE_INTERRUPT).
Proof.
  unfold parse_normal_event, matches_normal_shape, event_kind, event_args,
    scanned_type_str.
  destruct (sr_erange (sscanf start_pos normal_event_format)) eqn:He;
    cbn [orb negb andb].
  { intros H. injection H as <- <- <-.
    repeat split; try discriminate; congruence. }
  destruct (sr_count (sscanf start_pos normal_event_format) =? 3) eqn:Hc;
    cbn [negb].
  2:{ intros H. injection H as <- <- <-.
      repeat split; try discriminate; congruence. }
  apply Z.eqb_eq in Hc.
  destruct (normal_shape _ Hc) as (t & d & ts & Hv & _). rewrite Hv.
  destruct (String.eqb (nth 0 (g_strsplit ts ",") EmptyString) "interrupt")
    eqn:Hi.
  - apply String.eqb_eq in Hi.
    destruct (Z.of_nat (List.length (g_strsplit ts ",")) <? 3).
    { intros H. injection H as <- <- <-.
      repeat split; try discriminate; trivial.
      - apply (g_set_error_changed _ _ _ H).
      - apply g_set_error_changed in H. subst error. eexists. reflexivity. }
    destruct (strtol (nth 1 (g_strsplit ts ",") EmptyString)) as [p [|]].
    { intros H. injection H as <- <- <-.
      repeat split; try discriminate; trivial.
      - apply (g_set_error_changed _ _ _ H).
      - apply g_set_error_changed in H. subst error. eexists. reflexivity. }
    destruct (strtol (nth 2 (g_strsplit ts ",") EmptyString)) as [i [|]].
    { intros H. injection H as <- <- <-.
      repeat split; try discriminate; trivial.
      - apply (g_set_error_changed _ _ _ H).
      - apply g_set_error_changed in H. subst error. eexists. reflexivity. }
    intros H. injection H as <- <- <-.
    repeat split; try discriminate; trivial; congruence.
  - intros H. injection H as <- <- <-.
    repeat split; try discriminate; trivial; congruence.
Qed.

(** X6: how [parse_normal_event] uses the error slot.  A true return leaves
    the slot as it was and sets [has_data]; a payload that is not of the
    data-bearing shape gives false with the slot as it was; and the slot is
    filled only on a false return for an interrupt payload, with an input
    error, after the type was set to Interrupt. *)
Theorem X_parse_normal_event_error_slot
        (start_pos : string) (event event' : PS2Event)
        (error error' : option GError) (ok : bool) :
  parse_normal_event start_pos event error = (ok, event', error') ->
  (ok = true ->
   error' = error /\ has_data event' = true
   /\ matches_normal_shape start_pos = true)
  /\ (matches_normal_shape start_pos = false ->
      ok = false /\ error' = error)
  /\ (error' <> error ->
      ok = false /\ error = None
      /\ (exists msg,
             error' = Some {| code := PS2_ERROR_INPUT; message := msg |})
      /\ event_kind start_pos = "interrupt"
      /\ type event' = PS2_EVENT_TYPE_INTERRUPT).
Proof.
  apply parse_normal_event_error_slot.
Qed.

Lemma X_parse_normal_event_error_slot_witness :
  (true = true ->
   None = (None : option GError)
   /\ has_data {| time := 1000; type := PS2_EVENT_TYPE_KBD_DATA; data := 244;
                  has_data := true; irq := 0; port := 0 |} = true
   /\ matches_normal_shape ("[1000] f4 -> i8042 (kbd-data)" ++ nl) = true)
  /\ (matches_normal_shape ("[1000] f4 -> i8042 (kbd-data)" ++ nl) = false ->
      true = false /\ None = (None : option GError))
  /\ ((None : option GError) <> None ->
      true = false /\ (None : option GError) = None
      /\ (exists msg,
             None = Some {| code := PS2_ERROR_INPUT; message := msg |})
      /\ event_kind ("[1000] f4 -> i8042 (kbd-data)" ++ nl) = "interrupt"
      /\ type {| time := 1000; type := PS2_EVENT_TYPE_KBD_DATA; data := 244;
                 has_data := true; irq := 0; port := 0 |}
         = PS2_EVENT_TYPE_INTERRUPT).
Proof.
  apply (X_parse_normal_event_error_slot
           ("[1000] f4 -> i8042 (kbd-data)" ++ nl) ev0 _ None None true).
  reflexivity.
Defined.

(** The data-less parser never touches the error slot. *)
Lemma parse_interrupt_without_data_error (start_pos : string)
      (event : PS2Event) (error : option GError) :
  snd (parse_interrupt_without_data start_pos event error) = error.
Proof.
  unfold parse_interrupt_without_data.
  destruct (_ || _); reflexivity.
Qed.

Lemma X_data_line_round_trip_witness :
  parse_normal_event (data_line 1000 244 true PS2_EVENT_TYPE_KBD_DATA)
                     ev0 None
  = (true,
     {| time := 1000; type := PS2_EVENT_TYPE_KBD_DATA; data := 244;
        has_data := true; irq := irq ev0; port := port ev0 |},
     None).
Proof.
  apply (X_data_line_round_trip 1000 244 true PS2_EVENT_TYPE_KBD_DATA
                                ev0 None).
  - unfold LONG_MAX. lia.
  - lia.
  - discriminate.
Defined.

Lemma X_interrupt_line_round_trip_witness :
  parse_normal_event (interrupt_line 1000 95 1 12) ev0 None
  = (true,
     {| time := 1000; type := PS2_EVENT_TYPE_INTERRUPT; data := 95;
        has_data := true; irq := 12; port := 1 |},
     None).
Proof.
  apply (X_interrupt_line_round_trip 1000 95 1 12 ev0 None).
  - unfold LONG_MAX. lia.
  - lia.
  - lia.
  - lia.
Defined.

Lemma X_interrupt_port_out_of_range_witness :
  exists event',
    parse_normal_event (interrupt_line 1000 95 9223372036854775808 12)
                       ev0 None
    = (false, event',
       Some {| code := PS2_ERROR_INPUT;
               message := ("Failed to parse port number from interrupt event: "
                             ++ ERANGE_str ++ nl)%string |})
    /\ type event' = PS2_EVENT_TYPE_INTERRUPT.
Proof.
  apply (X_interrupt_port_out_of_range 1000 95 9223372036854775808 12 ev0).
  - unfold LONG_MAX. lia.
  - lia.
  - unfold LONG_MAX. lia.
  - lia.
Defined.

Lemma X_bare_interrupt_round_trip_witness :
  parse_interrupt_without_data (bare_interrupt_line 1000 12) ev0 None
  = (true,
     {| time := 1000; type := PS2_EVENT_TYPE_INTERRUPT; data := data ev0;
        has_data := false; irq := 12; port := port ev0 |},
     None).
Proof.
  apply (X_bare_interrupt_round_trip 1000 12 ev0 None).
  - unfold LONG_MAX. lia.
  - lia.
Defined.

(** The text of those lines. *)
Lemma sample_lines :
  data_line 1000 244 true PS2_EVENT_TYPE_KBD_DATA
  = ("[1000] f4 -> i8042 (kbd-data)" ++ nl)%string
  /\ interrupt_line 1000 95 1 12
     = ("[1000] 5f <- i8042 (interrupt, 1, 12)" ++ nl)%string
  /\ bare_interrupt_line 1000 12
     = ("[1000] Interrupt 12, without any data" ++ nl)%string
  /\ start_marker_line 7 = ("ps2emu: Start recording 7" ++ nl)%string.
Proof. repeat split; reflexivity. Qed.

End GrammarFacts.

Module PipelineFacts.
Import CLib Record Pipeline CLibFacts TextFacts RecordFacts GrammarFacts.
Import Replay(GIOStatus, G_IO_STATUS_ERROR, G_IO_STATUS_NORMAL,
              G_IO_STATUS_EOF, G_IO_STATUS_AGAIN).

Lemma strstr_some (needle : string) (haystack p : string) :
  strstr haystack needle = Some p ->
  String.prefix needle p = true
  /\ exists pre, haystack = (pre ++ p)%string.
Proof.
  induction haystack as [|c h IH]; cbn [strstr].
  - destruct (String.prefix needle EmptyString) eqn:E; [|discriminate].
    intros H. injection H as <-. split; [exact E|]. now exists EmptyString.
  - destruct (String.prefix needle (String c h)) eqn:E.
    + intros H. injection H as <-. split; [exact E|]. now exists EmptyString.
    + intros H. destruct (IH H) as (Hp & pre & ->).
      split; [exact Hp|]. now exists (String c pre).
Qed.

Lemma prefix_advance (n p : string) :
  String.prefix n p = true -> p = (n ++ advance (String.length n) p)%string.
Proof.
  revert p. induction n as [|a n IH]; intros p H.
  - destruct p; reflexivity.
  - destruct p as [|b p]; cbn [String.prefix] in H; [discriminate|].
    destruct (Ascii.ascii_dec a b) as [<-|]; [|discriminate].
    cbn [String.length advance String.append]. now rewrite <- (IH p H).
Qed.

(** X7: what [find_module] hands on is the text that follows the first
    occurrence of the source's search string, and the source is the kernel
    driver whenever its string occurs in the line at all. *)
Theorem X_find_module_payload (line : string) (q : GQuark) (payload : string) :
  find_module line = Some (q, payload) ->
  (exists pre, line = (pre ++ search_string q ++ payload)%string)
  /\ (q = PS2EMU_OUTPUT -> strstr line "i8042: " = None).
Proof.
  unfold find_module.
  destruct (strstr line "i8042: ") as [p|] eqn:E1.
  - intros H. injection H as <- <-.
    destruct (strstr_some _ _ _ E1) as (Hp & pre & ->).
    split; [|discriminate].
    exists pre. f_equal. exact (prefix_advance _ _ Hp).
  - destruct (strstr line "ps2emu: ") as [p|] eqn:E2; [|discriminate].
    intros H. injection H as <- <-.
    destruct (strstr_some _ _ _ E2) as (Hp & pre & ->).
    split; [|reflexivity].
    exists pre. f_equal. exact (prefix_advance _ _ Hp).
Qed.

Lemma X_find_module_payload_witness :
  (exists pre,
      ("6,1,2,-;i8042: [5] aa <- i8042 (return)" ++ nl)%string
      = (pre ++ search_string I8042_OUTPUT
             ++ ("[5] aa <- i8042 (return)" ++ nl))%string)
  /\ (I8042_OUTPUT = PS2EMU_OUTPUT ->
      strstr ("6,1,2,-;i8042: [5] aa <- i8042 (return)" ++ nl) "i8042: "
      = None).
Proof.
  apply (X_find_module_payload
           ("6,1,2,-;i8042: [5] aa <- i8042 (return)" ++ nl) I8042_OUTPUT
           ("[5] aa <- i8042 (return)" ++ nl)).
  reflexivity.
Defined.

(** X8: [get_next_module_line] passes over every line that holds neither
    search string and stops at the first line that holds one; when no line
    does, it reads to the end of the channel. *)
Theorem X_get_next_module_line_first
        (pre : list string) (line : string) (found : GQuark * string)
        (rest : kmsg) :
  forallb (fun l => match find_module l with None => true | Some _ => false end)
          pre = true ->
  (find_module line = Some found ->
   get_next_module_line (map KLine pre ++ KLine line :: rest) None
   = (G_IO_STATUS_NORMAL, Some found, rest, None))
  /\ get_next_module_line (map KLine pre) None
     = (G_IO_STATUS_EOF, None, [], None).
Proof.
  induction pre as [|l pre IH]; cbn [forallb map app get_next_module_line].
  - intros _. split; [|reflexivity]. intros ->. reflexivity.
  - destruct (find_module l); [discriminate|]. cbn [andb]. exact IH.
Qed.

Lemma X_get_next_module_line_first_witness :
  (find_module ("x ps2emu: Start recording 7" ++ nl)
   = Some (PS2EMU_OUTPUT, ("Start recording 7" ++ nl)%string) ->
   get_next_module_line
     (map KLine ["unrelated"; "i8042 without the colon"]
        ++ KLine ("x ps2emu: Start recording 7" ++ nl) :: [KLine "later"])
     None
   = (G_IO_STATUS_NORMAL,
      Some (PS2EMU_OUTPUT, ("Start recording 7" ++ nl)%string),
      [KLine "later"], None))
  /\ get_next_module_line
       (map KLine ["unrelated"; "i8042 without the colon"]) None
     = (G_IO_STATUS_EOF, None, [], None).
Proof.
  apply (X_get_next_module_line_first
           ["unrelated"; "i8042 without the colon"]
           ("x ps2emu: Start recording 7" ++ nl)
           (PS2EMU_OUTPUT, ("Start recording 7" ++ nl)%string)
           [KLine "later"]).
  reflexivity.
Defined.



Section Messages.

Variable overlay : Z -> PS2Event -> PS2Event.
Variable ps2_event_to_string : PS2Event -> string.

(** The loop of [parse_next_message] as the source has it: a call of
    [get_next_module_line], then the body on the line it found. *)
Lemma parse_next_message_eq (ch : kmsg) :
  forall event error,
    parse_next_message overlay ch event error
    = match get_next_module_line ch error with
      | (G_IO_STATUS_NORMAL, Some (type, start_pos), rest, _) =>
          match parse_module_line overlay type start_pos event with
          | inl (m, event, error) => (m, event, rest, error)
          | inr event => parse_next_message overlay rest event None
          end
      | (rc, _, rest, error) => (Stopped rc, event, rest, error)
      end.
Proof.
  induction ch as [|item ch IH]; intros event [e|]; try reflexivity.
  destruct item as [line|msg]; [|reflexivity].
  cbn [parse_next_message get_next_module_line].
  destruct (find_module line) as [[type start_pos]|]; [reflexivity|].
  apply IH.
Qed.

Lemma parse_module_line_outcome (type : GQuark) (start_pos : string)
      (event : PS2Event) :
  match parse_module_line overlay type start_pos event with
  | inl (GotEvent, _, err) =>
      type = I8042_OUTPUT
      /\ (err = None
          \/ exists msg,
               err = Some (Ps2emu {| code := PS2_ERROR_INPUT;
                                     message := msg |}))
  | inl (GotStart t, _, err) =>
      type = PS2EMU_OUTPUT /\ err = None
      /\ parse_record_start_marker start_pos = (true, Some t)
  | inl (Stopped _, _, _) => False
  | inr _ => True
  end.
Proof.
  destruct type; cbn [parse_module_line].
  - destruct (parse_normal_event start_pos event None) as [[ok ev] err] eqn:E.
    destruct ok.
    + auto.
    + destruct err as [e|].
      * split; [reflexivity|]. right.
        destruct (parse_normal_event_error_slot _ _ _ _ _ _ E) as (_ & _ & H).
        destruct H as (_ & _ & (msg & Hm) & _); [discriminate|].
        injection Hm as ->. eauto.
      * pose proof (parse_interrupt_without_data_error start_pos ev None) as H.
        destruct (parse_interrupt_without_data start_pos ev None)
          as [[ok2 ev2] err2].
        cbn [snd] in H. subst err2. destruct ok2; auto.
  - destruct (parse_record_start_marker start_pos) as [[|] [t|]]; auto.
Qed.

(** What a call of [parse_next_message] can come back with. *)
Lemma parse_next_message_spec (ch : kmsg) :
  forall event m event' rest error',
    parse_next_message overlay ch event None = (m, event', rest, error') ->
    match m with
    | GotEvent =>
        (exists pre line, ch = pre ++ KLine line :: rest)
        /\ (error' = None
            \/ exists msg,
                 error' = Some (Ps2emu {| code := PS2_ERROR_INPUT;
                                          message := msg |}))
    | GotStart t =>
        (exists pre line,
            ch = pre ++ KLine line :: rest
            /\ is_start_marker t (KLine line) = true)
        /\ error' = None
    | Stopped rc =>
        (exists pre, ch = pre ++ rest)
        /\ ((rc = G_IO_STATUS_EOF /\ rest = [] /\ error' = None)
            \/ (rc = G_IO_STATUS_ERROR /\ exists msg, error' = Some (Glib msg)))
    end.
Proof.
  induction ch as [|item ch IH]; intros event m event' rest error' H;
    cbn [parse_next_message] in H.
  - injection H as <- <- <- <-. split; [now exists []|]. left. auto.
  - destruct item as [line|msg].
    2:{ injection H as <- <- <- <-. split; [now exists [KFail msg]|].
        right. eauto. }
    assert (Hcont : forall ev,
               parse_next_message overlay ch ev None = (m, event', rest, error') ->
               match m with
               | GotEvent =>
                   (exists pre line0, KLine line :: ch = pre ++ KLine line0 :: rest)
                   /\ (error' = None
                       \/ exists msg,
                            error' = Some (Ps2emu {| code := PS2_ERROR_INPUT;
                                                     message := msg |}))
               | GotStart t =>
                   (exists pre line0,
                       KLine line :: ch = pre ++ KLine line0 :: rest
                       /\ is_start_marker t (KLine line0) = true)
                   /\ error' = None
               | Stopped rc =>
                   (exists pre, KLine line :: ch = pre ++ rest)
                   /\ ((rc = G_IO_STATUS_EOF /\ rest = [] /\ error' = None)
                       \/ (rc = G_IO_STATUS_ERROR
                           /\ exists msg, error' = Some (Glib msg)))
               end).
    { intros ev Hev. specialize (IH _ _ _ _ _ Hev). destruct m.
      - destruct IH as ((pre & l0 & ->) & He). split; [|exact He].
        now exists (KLine line :: pre), l0.
      - destruct IH as ((pre & l0 & -> & Hm) & He). split; [|exact He].
        now exists (KLine line :: pre), l0.
      - destruct IH as ((pre & ->) & He). split; [|exact He].
        now exists (KLine line :: pre). }
    destruct (find_module line) as [[type start_pos]|] eqn:Ef;
      [|exact (Hcont _ H)].
    pose proof (parse_module_line_outcome type start_pos event) as Ho.
    destruct (parse_module_line overlay type start_pos event)
      as [[[m1 ev1] err1]|ev1]; [|exact (Hcont _ H)].
    injection H as <- <- <- <-.
    destruct m1 as [|t|rc]; [| |contradiction].
    + destruct Ho as (_ & He). split; [|exact He]. now exists [], line.
    + destruct Ho as (-> & -> & Hp). split; [|reflexivity].
      exists [], line. split; [reflexivity|].
      cbn [is_start_marker]. rewrite Ef, Hp. apply Z.eqb_refl.
Qed.

(** X9: what a call of [parse_next_message] with an empty error slot can
    come back with.  An event or a start marker is the message of one line
    of the channel, and the rest is what follows that line; an event can
    come with an input error in the slot, a start marker never does, and
    the line of a start marker is a marker for the time that is handed
    back.  Otherwise the reading stopped: at end of file with the channel
    read to its end and the slot empty, or on a failed read with the
    channel's error in the slot.  Nothing is read out of order. *)
Theorem X_parse_next_message_outcomes (ch : kmsg) (event : PS2Event)
        (m : next_message) (event' : PS2Event) (rest : kmsg)
        (error' : option Error) :
  parse_next_message overlay ch event None = (m, event', rest, error') ->
  match m with
  | GotEvent =>
      (exists pre line, ch = pre ++ KLine line :: rest)
      /\ (error' = None
          \/ exists msg,
               error' = Some (Ps2emu {| code := PS2_ERROR_INPUT;
                                        message := msg |}))
  | GotStart t =>
      (exists pre line,
          ch = pre ++ KLine line :: rest
          /\ is_start_marker t (KLine line) = true)
      /\ error' = None
  | Stopped rc =>
      (exists pre, ch = pre ++ rest)
      /\ ((rc = G_IO_STATUS_EOF /\ rest = [] /\ error' = None)
          \/ (rc = G_IO_STATUS_ERROR /\ exists msg, error' = Some (Glib msg)))
  end.
Proof.
  apply parse_next_message_spec.
Qed.

Lemma parse_next_message_error_set (ch : kmsg) (event : PS2Event)
      (e : Error) :
  parse_next_message overlay ch event (Some e)
  = (Stopped G_IO_STATUS_ERROR, event, ch, Some e).
Proof.
  destruct ch; reflexivity.
Qed.

(** A message takes at least one line off the channel. *)
Lemma parse_next_message_shorter (ch : kmsg) (event : PS2Event)
      (error : option Error) m event' rest error' :
  parse_next_message overlay ch event error = (m, event', rest, error') ->
  (List.length rest <= List.length ch)%nat
  /\ ((forall rc, m <> Stopped rc) ->
      (List.length rest < List.length ch)%nat).
Proof.
  destruct error as [e|].
  - rewrite parse_next_message_error_set. intros H. injection H as <- <- <- <-.
    split; [lia|]. intros Hm. now elim (Hm G_IO_STATUS_ERROR).
  - intros H. pose proof (parse_next_message_spec _ _ _ _ _ _ H) as Hs.
    destruct m.
    + destruct Hs as ((pre & l & ->) & _). rewrite length_app. cbn. lia.
    + destruct Hs as ((pre & l & -> & _) & _). rewrite length_app. cbn. lia.
    + destruct Hs as ((pre & ->) & _). rewrite length_app.
      split; [lia|]. intros Hm. now elim (Hm rc).
Qed.


(** Whether [parse_normal_event] raises an error depends on the payload
    alone, not on the event it is given. *)
Lemma parse_normal_event_error_indep (start_pos : string) (e1 e2 : PS2Event) :
  snd (parse_normal_event start_pos e1 None)
  = snd (parse_normal_event start_pos e2 None).
Proof.
  unfold parse_normal_event.
  destruct (sr_erange (sscanf start_pos normal_event_format)
            || negb (sr_count (sscanf start_pos normal_event_format) =? 3));
    [reflexivity|].
  destruct (sr_vals (sscanf start_pos normal_event_format))
    as [|v1 [|v2 [|[z|ts] [|v4 vs]]]]; try reflexivity.
  destruct (String.eqb (nth 0 (g_strsplit ts ",") EmptyString) "interrupt");
    [|reflexivity].
  destruct (Z.of_nat (List.length (g_strsplit ts ",")) <? 3); [reflexivity|].
  destruct (strtol (nth 1 (g_strsplit ts ",") EmptyString)) as [p [|]];
    [reflexivity|].
  destruct (strtol (nth 2 (g_strsplit ts ",") EmptyString)) as [i [|]];
    reflexivity.
Qed.


Lemma process_messages_rounds (r1 : nat) :
  forall r2 kbd aux ch event error stdout,
    (List.length ch < r1)%nat -> (List.length ch < r2)%nat ->
    process_messages overlay ps2_event_to_string r1 kbd aux ch event error
                     stdout
    = process_messages overlay ps2_event_to_string r2 kbd aux ch event error
                       stdout.
Proof.
  induction r1 as [|r1 IH]; intros [|r2] kbd aux ch event error stdout H1 H2;
    try lia.
  cbn [process_messages].
  destruct (parse_next_message overlay ch event error)
    as [[[m ev] rest] err] eqn:E.
  destruct (parse_next_message_shorter _ _ _ _ _ _ _ E) as (Hle & Hlt).
  destruct m as [|t|rc]; [| |reflexivity].
  - specialize (Hlt ltac:(discriminate)).
    destruct (process_event ps2_event_to_string kbd aux ev stdout) as [ok o].
    destruct (negb ok); [reflexivity|]. apply IH; lia.
  - specialize (Hlt ltac:(discriminate)). apply IH; lia.
Qed.

Lemma forallb_app_r {A} (f : A -> bool) (a b : list A) :
  forallb f (a ++ b) = true -> forallb f b = true.
Proof.
  rewrite forallb_app. intros H. apply andb_true_iff in H. tauto.
Qed.

Lemma find_start_no_marker (rounds : nat) (start_time : Z) :
  forall ch event error,
    (List.length ch < rounds)%nat ->
    forallb (fun item => negb (is_start_marker start_time item)) ch = true ->
    exists rc ev rest err,
      find_start overlay rounds start_time ch event error
      = Some (rc, ev, rest, err)
      /\ rc <> G_IO_STATUS_NORMAL.
Proof.
  induction rounds as [|rounds IH]; intros ch event error Hr Hno; [lia|].
  cbn [find_start].
  destruct error as [e|].
  { rewrite parse_next_message_error_set.
    eexists _, _, _, _. split; [reflexivity | discriminate]. }
  destruct (parse_next_message overlay ch event None)
    as [[[m ev] rest] err] eqn:E.
  destruct (parse_next_message_shorter _ _ _ _ _ _ _ E) as (Hle & Hlt).
  pose proof (parse_next_message_spec _ _ _ _ _ _ E) as Hs.
  destruct m as [|t|rc].
  - specialize (Hlt ltac:(discriminate)).
    destruct Hs as ((pre & l & Hch) & _).
    apply IH; [lia|]. rewrite Hch in Hno.
    apply forallb_app_r in Hno. cbn [forallb] in Hno.
    apply andb_true_iff in Hno. tauto.
  - specialize (Hlt ltac:(discriminate)).
    destruct Hs as ((pre & l & Hch & Hm) & _).
    rewrite Hch in Hno. apply forallb_app_r in Hno. cbn [forallb] in Hno.
    apply andb_true_iff in Hno. destruct Hno as [Hl Hrest].
    destruct (t =? start_time) eqn:Et.
    + apply Z.eqb_eq in Et. subst t. rewrite Hm in Hl. discriminate.
    + apply IH; [lia | exact Hrest].
  - eexists _, _, _, _. split; [reflexivity|].
    destruct Hs as (_ & [(-> & _) | (-> & _)]); discriminate.
Qed.


(** X11: while the start marker of this run has not been read nothing is
    printed; a log that does not hold it makes [record] return false with
    an error in the slot. *)
Theorem X_record_without_marker
        (record_kbd record_aux : bool) (start_time : Z) (ch : kmsg)
        (res_event : PS2Event) (stdout : list string) :
  start_time <> 0 ->
  forallb (fun item => negb (is_start_marker start_time item)) ch = true ->
  exists rest e,
    record overlay ps2_event_to_string record_kbd record_aux start_time
           (inl ch) res_event stdout
    = Some (false, stdout, rest, Some e).
Proof.
  intros Hs Hno. unfold record.
  replace (start_time =? 0) with false by (symmetry; now apply Z.eqb_neq).
  destruct (find_start_no_marker (S (List.length ch)) start_time ch res_event
              None) as (rc & ev & rest & err & -> & Hrc); [lia | exact Hno|].
  assert (He : exists e, set_no_events err = Some e)
    by (destruct err; cbn; eauto).
  destruct He as (e & He). exists rest, e. rewrite He.
  destruct rc; congruence.
Qed.


(** Lines that may come before the marker are passed by the search, which
    goes on behind them with an event that they may have changed. *)
Lemma find_start_skip (start_time : Z) (pre : kmsg) :
  forall tail rounds event,
    forallb (before_marker start_time) pre = true ->
    (List.length (pre ++ tail) < rounds)%nat ->
    exists event' rounds',
      (List.length tail < rounds')%nat
      /\ find_start overlay rounds start_time (pre ++ tail) event None
         = find_start overlay rounds' start_time tail event' None.
Proof.
  induction pre as [|item pre IH]; intros tail rounds event Hq Hr.
  - exists event, rounds. auto.
  - cbn [forallb] in Hq. apply andb_true_iff in Hq. destruct Hq as [Hi Hq].
    destruct rounds as [|rounds]; [lia|].
    cbn [app List.length] in Hr.
    destruct item as [line|msg]; [|discriminate].
    cbn [before_marker] in Hi.
    assert (Hsame : forall ev,
               exists event' rounds',
                 (List.length tail < rounds')%nat
                 /\ match parse_next_message overlay (pre ++ tail) ev None with
                    | (Stopped rc, event0, rest, error) =>
                        Some (rc, event0, rest, error)
                    | (GotEvent, event0, rest, error) =>
                        find_start overlay rounds start_time rest event0 error
                    | (GotStart t, event0, rest, error) =>
                        if t =? start_time
                        then Some (G_IO_STATUS_NORMAL, event0, rest, error)
                        else find_start overlay rounds start_time rest event0
                                        error
                    end
                    = find_start overlay rounds' start_time tail event' None).
    { intros ev. destruct (IH tail (S rounds) ev Hq) as (e' & r' & Hr' & Heq);
        [lia|]. exists e', r'. split; [exact Hr'|]. exact Heq. }
    assert (Hnext : forall ev,
               exists event' rounds',
                 (List.length tail < rounds')%nat
                 /\ find_start overlay rounds start_time (pre ++ tail) ev None
                    = find_start overlay rounds' start_time tail event' None).
    { intros ev. apply IH; [exact Hq | lia]. }
    cbn [app find_start parse_next_message].
    destruct (find_module line) as [[type start_pos]|] eqn:Ef;
      [|apply Hsame].
    destruct type; cbn [parse_module_line].
    + pose proof (parse_normal_event_error_indep start_pos event ev0) as Hind.
      destruct (parse_normal_event start_pos event None) as [[ok ev] err].
      cbn [snd] in Hind. rewrite <- Hind in Hi.
      destruct err as [e|]; [discriminate|].
      destruct ok; [apply Hnext|].
      pose proof (parse_interrupt_without_data_error start_pos ev None) as H2.
      destruct (parse_interrupt_without_data start_pos ev None)
        as [[ok2 ev2] err2].
      cbn [snd] in H2. subst err2.
      destruct ok2; [apply Hnext | apply Hsame].
    + cbn [is_start_marker] in Hi. rewrite Ef in Hi.
      destruct (parse_record_start_marker start_pos) as [[|] [t|]];
        try apply Hsame.
      apply negb_true_iff in Hi. rewrite Hi. apply Hnext.
Qed.

(** X12: [record] starts at the marker of its own run.  Whatever comes
    before the marker (events, other markers, unrelated lines) prints
    nothing, and from the marker on the log is recorded as a log without a
    marker to look for is; the lines before can show only in the fields of
    the event that the first parsers do not store. *)
Theorem X_record_starts_at_marker
        (record_kbd record_aux : bool) (start_time : Z) (pre post : kmsg)
        (marker : kitem) (res_event : PS2Event) (stdout : list string) :
  start_time <> 0 ->
  forallb (before_marker start_time) pre = true ->
  is_start_marker start_time marker = true ->
  exists event',
    record overlay ps2_event_to_string record_kbd record_aux start_time
           (inl (pre ++ marker :: post)) res_event stdout
    = record overlay ps2_event_to_string record_kbd record_aux 0
             (inl post) event' stdout.
Proof.
  intros Hs Hq Hm. unfold record.
  replace (start_time =? 0) with false by (symmetry; now apply Z.eqb_neq).
  cbn [Z.eqb].
  destruct (find_start_skip start_time pre (marker :: post)
              (S (List.length (pre ++ marker :: post))) res_event Hq)
    as (ev & r' & Hr' & ->); [lia|].
  destruct r' as [|r']; [lia|].
  destruct marker as [line|msg]; [|discriminate].
  cbn [is_start_marker] in Hm.
  cbn [find_start parse_next_message].
  destruct (find_module line) as [[[|] start_pos]|]; try discriminate.
  cbn [parse_module_line].
  destruct (parse_record_start_marker start_pos) as [[|] [t|]];
    try discriminate.
  rewrite Hm. exists (overlay t ev).
  apply process_messages_rounds; rewrite ?length_app; cbn [List.length]; lia.
Qed.

(** X13: a log in which nothing but such lines is read, and no marker of
    this run, ends the search at end of file: [record] returns false with
    the no-events error and prints nothing. *)
Theorem X_record_no_events
        (record_kbd record_aux : bool) (start_time : Z) (ch : kmsg)
        (res_event : PS2Event) (stdout : list string) :
  start_time <> 0 ->
  forallb (before_marker start_time) ch = true ->
  record overlay ps2_event_to_string record_kbd record_aux start_time
         (inl ch) res_event stdout
  = Some (false, stdout, [],
          Some (Ps2emu {| code := PS2_ERROR_NO_EVENTS;
                          message :=
                            "Reached EOF of /dev/kmsg and got no events" |})).
Proof.
  intros Hs Hq. unfold record.
  replace (start_time =? 0) with false by (symmetry; now apply Z.eqb_neq).
  destruct (find_start_skip start_time ch [] (S (List.length ch)) res_event Hq)
    as (ev & r' & Hr' & Heq); [rewrite app_nil_r; lia|].
  rewrite app_nil_r in Heq. rewrite Heq.
  destruct r' as [|r']; [cbn in Hr'; lia|]. reflexivity.
Qed.

End Messages.

Lemma X_parse_next_message_outcomes_witness :
  (exists pre line,
      [KLine "unrelated"; KLine (start_marker_line 7); KLine "later"]
      = pre ++ KLine line :: [KLine "later"]
      /\ is_start_marker 7 (KLine line) = true)
  /\ (None : option Error) = None.
Proof.
  apply (X_parse_next_message_outcomes
           overlay_time
           [KLine "unrelated"; KLine (start_marker_line 7); KLine "later"]
           ev0 (GotStart 7) (overlay_time 7 ev0) [KLine "later"] None).
  reflexivity.
Defined.

Lemma X_record_without_marker_witness :
  exists rest e,
    record overlay_time (fun _ => "event") true true 7
           (inl [KLine "unrelated"; KLine (start_marker_line 8)]) ev0 []
    = Some (false, [], rest, Some e).
Proof.
  apply (X_record_without_marker
           overlay_time (fun _ => "event") true true 7
           [KLine "unrelated"; KLine (start_marker_line 8)] ev0 []).
  - lia.
  - reflexivity.
Defined.

Lemma X_record_starts_at_marker_witness :
  exists event',
    record overlay_time (fun _ => "event") true true 7
           (inl ([KLine (start_marker_line 8);
                  KLine ("i8042: " ++ data_line 5 170 false
                                                PS2_EVENT_TYPE_RETURN)]
                   ++ KLine (start_marker_line 7)
                   :: [KLine ("i8042: " ++ data_line 1000 244 true
                                                     PS2_EVENT_TYPE_KBD_DATA)]))
           ev0 []
    = record overlay_time (fun _ => "event") true true 0
             (inl [KLine ("i8042: " ++ data_line 1000 244 true
                                                 PS2_EVENT_TYPE_KBD_DATA)])
             event' [].
Proof.
  apply (X_record_starts_at_marker
           overlay_time (fun _ => "event") true true 7
           [KLine (start_marker_line 8);
            KLine ("i8042: " ++ data_line 5 170 false PS2_EVENT_TYPE_RETURN)]
           [KLine ("i8042: " ++ data_line 1000 244 true
                                          PS2_EVENT_TYPE_KBD_DATA)]
           (KLine (start_marker_line 7)) ev0 []).
  - lia.
  - reflexivity.
  - reflexivity.
Defined.

Lemma X_record_no_events_witness :
  record overlay_time (fun _ => "event") true true 7
         (inl [KLine "unrelated"; KLine (start_marker_line 8)]) ev0 []
  = Some (false, [], [],
          Some (Ps2emu {| code := PS2_ERROR_NO_EVENTS;
                          message :=
                            "Reached EOF of /dev/kmsg and got no events" |})).
Proof.
  apply (X_record_no_events
           overlay_time (fun _ => "event") true true 7
           [KLine "unrelated"; KLine (start_marker_line 8)] ev0 []).
  - lia.
  - reflexivity.
Defined.

(** A kernel log with a marker of an earlier run and an event before the
    marker of this run, and a keyboard event after it: the event before the
    marker is not printed, the one after it is. *)
Lemma sample_record :
  record overlay_time (fun _ => "event") true true 7
         (inl [KLine (start_marker_line 8);
               KLine ("i8042: " ++ data_line 5 170 false PS2_EVENT_TYPE_RETURN);
               KLine (start_marker_line 7);
               KLine ("i8042: " ++ data_line 1000 244 true
                                             PS2_EVENT_TYPE_KBD_DATA)])
         ev0 []
  = Some (true, [("event" ++ nl)%string], [], None).
Proof. reflexivity. Qed.

(** Errors that [record] returns true on: a read that fails after the first
    event, and an interrupt line with one argument too few. *)
Lemma record_true_with_error :
  record overlay_time (fun _ => "event") true true 0
         (inl [KLine ("i8042: " ++ data_line 1000 244 true
                                             PS2_EVENT_TYPE_KBD_DATA);
               KFail "Input/output error";
               KLine ("i8042: " ++ data_line 2000 244 true
                                             PS2_EVENT_TYPE_KBD_DATA)])
         ev0 []
  = Some (true, [("event" ++ nl)%string],
          [KLine ("i8042: " ++ data_line 2000 244 true
                                         PS2_EVENT_TYPE_KBD_DATA)],
          Some (Glib "Input/output error"))
  /\ record overlay_time (fun _ => "event") true true 0
            (inl [KLine ("i8042: [1000] 5f <- i8042 (interrupt,0)" ++ nl)])
            ev0 []
     = Some (true, [("event" ++ nl)%string], [],
             Some (Ps2emu
                     {| code := PS2_ERROR_INPUT;
                        message := "Got interrupt event, but had less arguments then expected" |})).
Proof. split; reflexivity. Qed.

Lemma strstr_uint_i8042 (d : Decimal.uint) :
  strstr (NilEmpty.string_of_uint d ++ nl) "i8042: " = None.
Proof.
  induction d; cbn [NilEmpty.string_of_uint String.append];
    try exact IHd; reflexivity.
Qed.

Lemma find_module_start_marker_line (t : Z) :
  0 <= t ->
  find_module (start_marker_line t)
  = Some (PS2EMU_OUTPUT, ("Start recording " ++ Replay.dec t ++ nl)%string).
Proof.
  intros Ht. destruct (dec_nonneg t Ht) as (d & _ & Hd & _).
  unfold find_module, start_marker_line. rewrite Hd.
  replace (strstr ("ps2emu: Start recording "
                     ++ NilEmpty.string_of_uint d ++ nl) "i8042: ")
    with (strstr (NilEmpty.string_of_uint d ++ nl) "i8042: ")
    by reflexivity.
  rewrite strstr_uint_i8042. reflexivity.
Qed.

Lemma parse_start_marker_text (t : Z) :
  0 <= t <= LONG_MAX ->
  parse_record_start_marker ("Start recording " ++ Replay.dec t ++ nl)
  = (true, Some t).
Proof.
  intros Ht. unfold parse_record_start_marker, sscanf, start_marker_format.
  cbn [lits list_ascii_of_string map app String.append].
  rewrite !step_lit, step_space, skip_space_blank.
  change (skip_space (String "r" ?x)) with (String "r" x).
  rewrite !step_lit, step_space, skip_space_blank.
  rewrite skip_space_dec by lia.
  rewrite step_conv_d;
    [|cbn [len_bits]; unfold LONG_MAX in Ht; lia | reflexivity].
  reflexivity.
Qed.

(** X14: the line [enable_i8042_debugging] writes for a start time is the
    marker [record] looks for with that start time, and for no other. *)
Theorem X_start_marker_round_trip (t start_time : Z) :
  0 <= t <= LONG_MAX ->
  is_start_marker start_time (KLine (start_marker_line t))
  = (t =? start_time).
Proof.
  intros Ht. cbn [is_start_marker].
  rewrite find_module_start_marker_line by lia.
  rewrite parse_start_marker_text by exact Ht. reflexivity.
Qed.

Lemma X_start_marker_round_trip_witness :
  is_start_marker 7 (KLine (start_marker_line 7)) = (7 =? 7).
Proof.
  apply (X_start_marker_round_trip 7 7). unfold LONG_MAX. lia.
Defined.

End PipelineFacts.

(** ** The replay as a whole *)

Module ReplayFacts.
Import CLib Replay ReplayShapes SectionFacts SchedulerFacts.

(** *** A whole sequence *)

Lemma sent_frames (start_time : Z) (l : list PS2Event)
      (fs : list (Z * ps2emu_cmd)) :
  Forall2 (sent_on_time start_time) l fs ->
  map snd fs = map frame_of l.
Proof.
  induction 1 as [|e f l fs [Hf _] _ IH]; [reflexivity|].
  cbn [map]. now rewrite Hf, IH.
Qed.

Lemma simulate_receive_prints (w w' : World) (event : PS2Event)
      (error' : option GError) :
  simulate_receive w event None = (true, w', error') ->
  exists line, stdout w' = stdout w ++ [line].
Proof.
  unfold simulate_receive, g_io_channel_read_chars.
  destruct (next_spec w) as (_ & _ & _ & Ho).
  destruct (next w) as [s0 w0]. cbn [fst snd] in *.
  destruct (status s0); cbn [GIOStatus_eqb negb]; try discriminate.
  destruct (Record.data event =? wrap_unsigned 8 (byte s0));
    intros H; injection H as <- <-; cbn [stdout printf]; rewrite Ho; eauto.
Qed.

Lemma replay_loop_prints (start_time : Z) (l : list PS2Event) :
  forall w w' error',
    replay_loop start_time l w None = (true, w', error') ->
    exists lines,
      stdout w' = stdout w ++ lines
      /\ List.length lines
         = List.length (filter (fun e => negb (is_interrupt e)) l).
Proof.
  induction l as [|event l IH]; intros w w' error' H.
  - injection H as <- <-. exists []. now rewrite app_nil_r.
  - cbn [replay_loop filter] in *.
    change (Record.PS2EventType_eqb (type event)
              Record.PS2_EVENT_TYPE_INTERRUPT) with (is_interrupt event) in H.
    destruct (is_interrupt event); cbn [negb].
    + destruct (simulate_interrupt_spec w start_time event)
        as (r & w1 & e1 & Heq & _ & Ho & Hr).
      rewrite Heq in H.
      destruct Hr as [(-> & -> & _) | (-> & _)]; [|discriminate].
      cbn [negb] in H. destruct (IH _ _ _ H) as (lines & Hl & Hn).
      exists lines. split; [congruence | exact Hn].
    + destruct (simulate_receive w event None) as [[r w1] e1] eqn:Heq.
      destruct r; [|discriminate]. cbn [negb] in H.
      destruct (simulate_receive_prints _ _ _ _ Heq) as (line & Hline).
      destruct (simulate_receive_spec w event)
        as (r' & w1' & e1' & Heq' & _ & _ & Hr).
      rewrite Heq in Heq'. injection Heq' as <- <- <-.
      destruct Hr as [(_ & ->) | (Hf & _)]; [|discriminate].
      destruct (IH _ _ _ H) as (lines & Hl & Hn).
      exists (line :: lines). split.
      * rewrite Hl, Hline, <- app_assoc. reflexivity.
      * cbn [List.length]. now rewrite Hn.
Qed.

(** What a sequence that is replayed to its end has done. *)
Lemma replay_event_list_done (w w' : World) (l : list PS2Event)
      (error' : option GError) :
  replay_event_list w l None = (true, w', error') ->
  error' = None
  /\ (exists fs,
         frames w' = frames w ++ fs
         /\ map snd fs = map frame_of (interrupts l))
  /\ (exists lines,
         stdout w' = stdout w ++ lines
         /\ List.length lines
            = List.length (filter (fun e => negb (is_interrupt e)) l)).
Proof.
  unfold replay_event_list, g_get_monotonic_time.
  destruct (next_spec w) as (_ & Hf & _ & Ho).
  destruct (next w) as [s0 w0]. cbn [fst snd] in *. intros H.
  destruct (replay_loop_frames (now w0) l w0)
    as (r & w2 & e2 & fs & Hl & Hfs & _ & Hs & _ & _ & Hok & _).
  rewrite H in Hl. injection Hl as <- <- <-.
  destruct (Hok eq_refl) as (Hlen & He).
  split; [exact He|]. split.
  - exists fs. split; [congruence|].
    rewrite Hlen, firstn_all in Hs. apply (sent_frames _ _ _ Hs).
  - destruct (replay_loop_prints _ _ _ _ _ H) as (lines & Hp & Hn).
    exists lines. split; [congruence | exact Hn].
Qed.

(** X15: a sequence replayed to its end has written one frame for each of
    its interrupt events, in order and with the event's byte, has printed
    one line for each of its other events, and leaves the error slot
    empty. *)
Theorem X_replay_event_list_done (w w' : World) (l : list PS2Event)
        (error' : option GError) :
  replay_event_list w l None = (true, w', error') ->
  error' = None
  /\ (exists fs,
         frames w' = frames w ++ fs
         /\ map snd fs = map frame_of (interrupts l))
  /\ (exists lines,
         stdout w' = stdout w ++ lines
         /\ List.length lines
            = List.length (filter (fun e => negb (is_interrupt e)) l)).
Proof.
  apply replay_event_list_done.
Qed.

Lemma X_replay_event_list_done_witness :
  None = (None : option GError)
  /\ (exists fs,
         frames (snd (fst (replay_event_list
                             (answers 250)
                             [return_of 100 250; interrupt_at 0 1] None)))
         = frames (answers 250) ++ fs
         /\ map snd fs
            = map frame_of (interrupts [return_of 100 250; interrupt_at 0 1]))
  /\ (exists lines,
         stdout (snd (fst (replay_event_list
                             (answers 250)
                             [return_of 100 250; interrupt_at 0 1] None)))
         = stdout (answers 250) ++ lines
         /\ List.length lines
            = List.length (filter (fun e => negb (is_interrupt e))
                                  [return_of 100 250; interrupt_at 0 1])).
Proof.
  apply (X_replay_event_list_done
           (answers 250) _ [return_of 100 250; interrupt_at 0 1] None).
  reflexivity.
Defined.

Section Logs.

Variable get_line_type :
  string -> option GError -> LineType * string * option GError.
Variable ps2_event_from_line :
  string -> option GError -> option PS2Event * option GError.
Variable section_type_from_line :
  string -> option GError -> LogSectionType * option GError.

Lemma legacy (log_version : Z) :
  log_version < 1 -> (log_version <? 1) = true /\ (log_version >=? 1) = false.
Proof.
  intros H. split; [apply Z.ltb_lt; lia|].
  rewrite Z.geb_leb. apply Z.leb_gt. lia.
Qed.

Lemma parse_loop_legacy (log_version : Z) (lines : list string) :
  log_version < 1 ->
  forallb (clean_line ps2_event_from_line) lines = true ->
  forall dest g,
    parse_loop get_line_type ps2_event_from_line section_type_from_line
               log_version (map ChLine lines) dest g None
    = Ret (true, [],
           {| event_list :=
                rev (event_list g) ++ legacy_events ps2_event_from_line lines;
              init_event_list := init_event_list g;
              main_event_list := main_event_list g |},
           None).
Proof.
  intros Hv. destruct (legacy _ Hv) as [Hlt Hge].
  induction lines as [|l r IH]; intros Hc dest g.
  - cbn [map parse_loop legacy_events]. unfold reverse_lists. rewrite Hge.
    now rewrite app_nil_r.
  - cbn [forallb] in Hc. apply andb_true_iff in Hc. destruct Hc as [Hl Hr].
    cbn [map parse_loop legacy_events]. rewrite Hlt.
    unfold clean_line in Hl.
    destruct (ps2_event_from_line l None) as [[e|] [er|]];
      cbn [fst snd] in *; try discriminate.
    + rewrite (IH Hr). cbn [prepend_at event_list init_event_list
                              main_event_list rev].
      now rewrite <- app_assoc.
    + apply (IH Hr).
Qed.

(** X16: in a legacy log every line is an event line: no line is looked at
    for a type or a section, every event goes to the single sequence, and
    after the reversal that sequence holds the events in input order; lines
    that yield no event are passed over. *)
Theorem X_legacy_events_in_input_order (log_version : Z)
        (lines : list string) :
  log_version < 1 ->
  forallb (clean_line ps2_event_from_line) lines = true ->
  parse_events get_line_type ps2_event_from_line section_type_from_line
               (map ChLine lines) log_version no_events None
  = Ret (true, [],
         {| event_list := legacy_events ps2_event_from_line lines;
            init_event_list := []; main_event_list := [] |},
         None).
Proof.
  intros Hv Hc. unfold parse_events.
  rewrite (parse_loop_legacy log_version lines Hv Hc). reflexivity.
Qed.

(** The loop over a well-formed stretch of a versioned log: it pushes the
    stretch's events and goes on behind it under the stretch's last
    marker. *)
Lemma parse_loop_prefix (log_version : Z) (pre : list string) (tail : channel) :
  1 <= log_version ->
  forall cur g,
    well_formed get_line_type ps2_event_from_line section_type_from_line
                cur pre = true ->
    parse_loop get_line_type ps2_event_from_line section_type_from_line
               log_version (map ChLine pre ++ tail) (dest_of cur) g None
    = parse_loop get_line_type ps2_event_from_line section_type_from_line
                 log_version tail
                 (dest_of (current_marker get_line_type ps2_event_from_line
                                          section_type_from_line cur pre))
                 (fold_left push
                    (tag_events get_line_type ps2_event_from_line
                                section_type_from_line cur pre) g)
                 None.
Proof.
  intros Hv. assert (Hlt : (log_version <? 1) = false) by (apply Z.ltb_ge; lia).
  induction pre as [|l r IH]; intros cur g Hwf; [reflexivity|].
  cbn [map app parse_loop well_formed tag_events current_marker] in *.
  rewrite Hlt. unfold classify in *.
  destruct (get_line_type l None) as [[lt ms] err].
  destruct lt.
  - destruct (ps2_event_from_line ms err) as [[e|] [er|]]; try discriminate.
    + destruct cur as [t|]; [|discriminate].
      cbn [fold_left]. rewrite <- (IH (Some t) _ Hwf).
      destruct t; reflexivity.
    + rewrite <- (IH cur g Hwf). destruct cur; reflexivity.
  - destruct (section_type_from_line ms err) as [[| |] [er|]];
      try discriminate.
    + apply (IH (Some Init) g Hwf).
    + apply (IH (Some Main) g Hwf).
  - discriminate.
Qed.

(** X17: a line of invalid type, or a section line with an unknown marker,
    is a hard failure: after a well-formed stretch [parse_events] returns
    false at that line, reads nothing behind it, and leaves the lists as
    they were pushed, without the final reversal. *)
Theorem X_parse_events_stops
        (log_version : Z) (pre : list string) (bad : string)
        (rest : channel) :
  1 <= log_version ->
  well_formed get_line_type ps2_event_from_line section_type_from_line
              None pre = true ->
  stops_parse get_line_type section_type_from_line bad = true ->
  exists error,
    parse_events get_line_type ps2_event_from_line section_type_from_line
                 (map ChLine pre ++ ChLine bad :: rest) log_version
                 no_events None
    = Ret (false, rest,
           {| event_list := [];
              init_event_list :=
                rev (sequence get_line_type ps2_event_from_line
                              section_type_from_line Init pre);
              main_event_list :=
                rev (sequence get_line_type ps2_event_from_line
                              section_type_from_line Main pre) |},
           error).
Proof.
  intros Hv Hwf Hbad. unfold parse_events.
  pose proof (parse_loop_prefix log_version pre (ChLine bad :: rest) Hv None
                no_events Hwf) as H.
  change (dest_of None) with (@None Dest) in H. rewrite H.
  assert (Hlt : (log_version <? 1) = false) by (apply Z.ltb_ge; lia).
  cbn [parse_loop]. rewrite Hlt. unfold stops_parse in Hbad.
  assert (Hg : fold_left push
                 (tag_events get_line_type ps2_event_from_line
                             section_type_from_line None pre) no_events
               = {| event_list := [];
                    init_event_list :=
                      rev (sequence get_line_type ps2_event_from_line
                                    section_type_from_line Init pre);
                    main_event_list :=
                      rev (sequence get_line_type ps2_event_from_line
                                    section_type_from_line Main pre) |}).
  { unfold sequence.
    pose proof (fold_push_init
                  (tag_events get_line_type ps2_event_from_line
                              section_type_from_line None pre) no_events) as Hi.
    pose proof (fold_push_main
                  (tag_events get_line_type ps2_event_from_line
                              section_type_from_line None pre) no_events) as Hm.
    pose proof (fold_push_event_list
                  (tag_events get_line_type ps2_event_from_line
                              section_type_from_line None pre) no_events) as He.
    destruct (fold_left push _ no_events) as [el il ml].
    cbn [init_event_list main_event_list event_list no_events] in *.
    rewrite app_nil_r in Hi, Hm. congruence. }
  rewrite Hg.
  destruct (get_line_type bad None) as [[lt ms] err].
  destruct lt; try discriminate.
  - destruct (section_type_from_line ms err) as [[| |] er];
      cbn [fst] in Hbad; try discriminate.
    eexists. reflexivity.
  - eexists. reflexivity.
Qed.

(** X18: [parse_events] returns true on a versioned body only when the
    body is well formed: no line ends the parse, and every event comes
    after a section marker. *)
Theorem X_parse_events_true_only_well_formed
        (log_version : Z) (lines : list string) (g g' : Lists)
        (ch' : channel) (error' : option GError) :
  1 <= log_version ->
  parse_events get_line_type ps2_event_from_line section_type_from_line
               (map ChLine lines) log_version g None
  = Ret (true, ch', g', error') ->
  well_formed get_line_type ps2_event_from_line section_type_from_line
              None lines = true.
Proof.
  intros Hv H.
  apply (parse_loop_true_well_formed
           get_line_type ps2_event_from_line section_type_from_line
           log_version lines Hv None g ch' g' error' H).
Qed.

Lemma parse_loop_true_end (log_version : Z) (ch : channel) :
  forall dest g error ch' g' error',
    parse_loop get_line_type ps2_event_from_line section_type_from_line
               log_version ch dest g error
    = Ret (true, ch', g', error') ->
    ch' = [] /\ error' = None.
Proof.
  induction ch as [|item ch IH]; intros dest g error ch' g' error' H;
    destruct error as [e|]; cbn [parse_loop] in H; try discriminate.
  - injection H as <- <- <-. auto.
  - destruct item as [line|err]; [|discriminate].
    destruct (log_version <? 1).
    + destruct (ps2_event_from_line line None) as [[e|] [er|]];
        try discriminate; eauto.
    + destruct (get_line_type line None) as [[lt ms] err].
      destruct lt; try discriminate.
      * destruct (ps2_event_from_line ms err) as [[e|] [er|]];
          try discriminate; try destruct dest; try discriminate; eauto.
      * destruct (section_type_from_line ms err) as [[| |] er];
          try discriminate; eauto.
Qed.

Lemma fail_exit (error : option GError) (w : World) (g : Lists)
      (ch : channel) (x : Exit) :
  fail error w g ch = Ret x ->
  exit_code x = 1
  /\ exists msg, stderr x = [("Error: " ++ msg ++ Record.nl)%string].
Proof.
  unfold fail. destruct error as [e|]; [|discriminate].
  intros H. injection H as <-. cbn. eauto.
Qed.

Lemma device_call_frames (w : World) (error : option GError) :
  frames (snd (fst (device_call w error))) = frames w
  /\ (fst (fst (device_call w error)) = true ->
      snd (device_call w error) = error).
Proof.
  unfold device_call. destruct (next_spec w) as (_ & Hf & _).
  destruct (next w) as [s0 w0]. cbn [fst snd] in *.
  destruct (ok s0); cbn; auto. split; [exact Hf | discriminate].
Qed.

Lemma send_ps2emu_cmd_frame (w : World) (type : cmd_type) (data : Z) :
  forall rc w' error',
    send_ps2emu_cmd w type data None = (rc, w', error') ->
    GIOStatus_eqb rc G_IO_STATUS_NORMAL = true ->
    error' = None
    /\ exists t, frames w' = frames w ++ [(t, {| cmd := type;
                                                 cmd_data := data |})].
Proof.
  unfold send_ps2emu_cmd, g_io_channel_write_chars.
  destruct (next_spec w) as (_ & Hf & _).
  destruct (next w) as [s0 w0]. cbn [fst snd] in *.
  intros rc w' error'.
  destruct (status s0); intros H; injection H as <- <- <-;
    try discriminate.
  intros _. split; [reflexivity|]. cbn [frames]. rewrite Hf. eauto.
Qed.

(** How [main] can end. *)
Lemma main_outcome (PS2EMU_LOG_VERSION uninit : Z) (argv1 : string)
      (file : channel + GError) (w : World) (x : Exit) :
  main get_line_type ps2_event_from_line section_type_from_line
       PS2EMU_LOG_VERSION uninit argv1 file w = Ret x ->
  (exit_code x = 1
   /\ exists msg, stderr x = [("Error: " ++ msg ++ Record.nl)%string])
  \/ (exit_code x = 0 /\ stderr x = []
      /\ exists ch log_version ch1,
           file = inl ch
           /\ parse_log_version uninit ch None = (log_version, ch1, None)
           /\ log_version <= PS2EMU_LOG_VERSION
           /\ parse_events get_line_type ps2_event_from_line
                           section_type_from_line ch1 log_version no_events
                           None
              = Ret (true, [], lists x, None)
           /\ exists t1 t2 fs,
                frames (world x)
                = frames w
                    ++ (t1, {| cmd := PS2EMU_CMD_SET_PORT_TYPE;
                               cmd_data := SERIO_8042 |})
                    :: (t2, {| cmd := PS2EMU_CMD_BEGIN;
                               cmd_data := SERIO_8042 |})
                    :: fs
                /\ map snd fs
                   = map frame_of (interrupts (replayed log_version (lists x)))).
Proof.
  unfold main. destruct file as [ch|err]; [|intros H; left; eapply fail_exit, H].
  destruct (parse_log_version uninit ch None) as [[v ch1] e1] eqn:Ev.
  destruct (v >? PS2EMU_LOG_VERSION) eqn:Egt;
    [intros H; left; eapply fail_exit, H|].
  destruct (parse_events get_line_type ps2_event_from_line
              section_type_from_line ch1 v no_events e1)
    as [[[[b ch2] g] e2]|] eqn:Epe; [|discriminate].
  destruct b; [|intros H; left; eapply fail_exit, H].
  destruct (parse_loop_true_end _ _ _ _ _ _ _ _ Epe) as (-> & ->).
  assert (He1 : e1 = None).
  { destruct e1 as [e|]; [|reflexivity]. unfold parse_events in Epe.
    destruct ch1; discriminate. }
  subst e1.
  pose proof (device_call_frames w None) as (Hf1 & He1).
  destruct (device_call w None) as [[r1 w1] x1]. cbn [fst snd] in *.
  destruct r1; cbn [negb]; [|intros H; left; eapply fail_exit, H].
  rewrite (He1 eq_refl).
  pose proof (device_call_frames w1 None) as (Hf2 & He2).
  destruct (device_call w1 None) as [[r2 w2] x2]. cbn [fst snd] in *.
  destruct r2; cbn [negb]; [|intros H; left; eapply fail_exit, H].
  rewrite (He2 eq_refl).
  destruct (send_ps2emu_cmd w2 PS2EMU_CMD_SET_PORT_TYPE SERIO_8042 None)
    as [[rc3 w3] e3] eqn:E3.
  destruct (GIOStatus_eqb rc3 G_IO_STATUS_NORMAL) eqn:R3; cbn [negb];
    [|intros H; left; eapply fail_exit, H].
  destruct (send_ps2emu_cmd_frame _ _ _ _ _ _ E3 R3) as (-> & t1 & Hw3).
  destruct (send_ps2emu_cmd w3 PS2EMU_CMD_BEGIN SERIO_8042 None)
    as [[rc4 w4] e4] eqn:E4.
  destruct (GIOStatus_eqb rc4 G_IO_STATUS_NORMAL) eqn:R4; cbn [negb];
    [|intros H; left; eapply fail_exit, H].
  destruct (send_ps2emu_cmd_frame _ _ _ _ _ _ E4 R4) as (-> & t2 & Hw4).
  assert (Hsetup : frames w4
                   = frames w
                       ++ [(t1, {| cmd := PS2EMU_CMD_SET_PORT_TYPE;
                                   cmd_data := SERIO_8042 |});
                           (t2, {| cmd := PS2EMU_CMD_BEGIN;
                                   cmd_data := SERIO_8042 |})]).
  { rewrite Hw4, Hw3, Hf2, Hf1, <- app_assoc. reflexivity. }
  assert (Hle : v <= PS2EMU_LOG_VERSION).
  { rewrite Z.gtb_ltb in Egt. apply Z.ltb_ge in Egt. exact Egt. }
  destruct (v =? 0) eqn:E0.
  - destruct (replay_event_list w4 (event_list g) None) as [[r5 w5] e5] eqn:E5.
    destruct r5; cbn [negb]; [|intros H; left; eapply fail_exit, H].
    intros H. injection H as <-. right. cbn [exit_code stderr world lists].
    destruct (replay_event_list_done _ _ _ _ E5) as (_ & (fs & Hfs & Hm) & _).
    repeat split. exists ch, v, ch1. unfold replayed. rewrite E0.
    repeat split; trivial.
    exists t1, t2, fs. split; [|exact Hm].
    rewrite Hfs, Hsetup, <- app_assoc. reflexivity.
  - destruct (replay_event_list
                (printf ("Replaying initialization sequence..." ++ Record.nl)
                        w4) (init_event_list g) None)
      as [[r5 w5] e5] eqn:E5.
    destruct r5; cbn [negb]; [|intros H; left; eapply fail_exit, H].
    destruct (replay_event_list_done _ _ _ _ E5) as (-> & (fs1 & Hfs1 & Hm1) & _).
    destruct (replay_event_list
                (printf ("Replaying event sequence..." ++ Record.nl) w5)
                (main_event_list g) None)
      as [[r6 w6] e6] eqn:E6.
    destruct r6; cbn [negb]; [|intros H; left; eapply fail_exit, H].
    destruct (replay_event_list_done _ _ _ _ E6) as (_ & (fs2 & Hfs2 & Hm2) & _).
    intros H. injection H as <-. right. cbn [exit_code stderr world lists].
    repeat split. exists ch, v, ch1. unfold replayed. rewrite E0.
    repeat split; trivial.
    exists t1, t2, (fs1 ++ fs2). split.
    + rewrite Hfs2. cbn [frames printf]. rewrite Hfs1. cbn [frames printf].
      rewrite Hsetup, <- !app_assoc. reflexivity.
    + unfold interrupts. rewrite filter_app, !map_app.
      unfold interrupts in Hm1, Hm2. now rewrite Hm1, Hm2.
Qed.

(** A legacy parse never touches the two section sequences. *)
Lemma parse_loop_legacy_sections (log_version : Z) (ch : channel) :
  log_version < 1 ->
  forall dest g error b ch' g' error',
    parse_loop get_line_type ps2_event_from_line section_type_from_line
               log_version ch dest g error
    = Ret (b, ch', g', error') ->
    init_event_list g' = init_event_list g
    /\ main_event_list g' = main_event_list g.
Proof.
  intros Hv. destruct (legacy _ Hv) as [Hlt Hge].
  induction ch as [|item ch IH]; intros dest g error b ch' g' error' H;
    destruct error as [e|]; cbn [parse_loop] in H.
  - injection H as <- <- <- <-. auto.
  - injection H as <- <- <- <-. unfold reverse_lists. rewrite Hge. auto.
  - injection H as <- <- <- <-. auto.
  - destruct item as [line|err]; [|injection H as <- <- <- <-; auto].
    rewrite Hlt in H.
    destruct (ps2_event_from_line line None) as [[e|] [er|]].
    + apply IH in H. exact H.
    + apply IH in H. exact H.
    + injection H as <- <- <- <-. auto.
    + apply IH in H. exact H.
Qed.

(** X20: a run of [main] that ends with status 0 has read the whole log,
    with a version that is not above the supported one, and has written to
    the device, after what was there, the port-type frame, the begin frame,
    and then one interrupt frame for each interrupt event of the replayed
    sequences, in the order of the sequences: the single sequence for
    version 0, the initialisation sequence followed by the main sequence
    otherwise.  No other frame is written. *)
Theorem X_main_replays_in_order
        (PS2EMU_LOG_VERSION uninit : Z) (argv1 : string)
        (ch : channel) (w : World) (x : Exit) :
  main get_line_type ps2_event_from_line section_type_from_line
       PS2EMU_LOG_VERSION uninit argv1 (inl ch) w = Ret x ->
  exit_code x = 0 ->
  exists log_version ch1,
    parse_log_version uninit ch None = (log_version, ch1, None)
    /\ log_version <= PS2EMU_LOG_VERSION
    /\ parse_events get_line_type ps2_event_from_line
                    section_type_from_line ch1 log_version no_events None
       = Ret (true, [], lists x, None)
    /\ map snd (frames (world x))
       = map snd (frames w)
           ++ {| cmd := PS2EMU_CMD_SET_PORT_TYPE; cmd_data := SERIO_8042 |}
           :: {| cmd := PS2EMU_CMD_BEGIN; cmd_data := SERIO_8042 |}
           :: map frame_of (interrupts (replayed log_version (lists x))).
Proof.
  intros H H0.
  destruct (main_outcome _ _ _ _ _ _ H)
    as [(H1 & _)|(_ & _ & ch0 & v & ch1 & Hc & Hv & Hle & Hp & t1 & t2 & fs
                   & Hf & Hm)];
    [rewrite H1 in H0; discriminate|].
  injection Hc as <-. exists v, ch1. repeat split; trivial.
  rewrite Hf, map_app. cbn [map snd]. now rewrite Hm.
Qed.

(** X21: a header that declares a negative version is accepted, its body is
    parsed in the legacy form into the single sequence, and nothing of it
    is replayed: a run that ends with status 0 has written the port-type
    and begin frames and no interrupt frame, whatever the single sequence
    holds. *)
Theorem X_main_negative_version_replays_nothing
        (PS2EMU_LOG_VERSION uninit : Z) (argv1 : string)
        (ch ch1 : channel) (log_version : Z) (error : option GError)
        (w : World) (x : Exit) :
  parse_log_version uninit ch None = (log_version, ch1, error) ->
  log_version < 0 ->
  main get_line_type ps2_event_from_line section_type_from_line
       PS2EMU_LOG_VERSION uninit argv1 (inl ch) w = Ret x ->
  exit_code x = 0 ->
  init_event_list (lists x) = [] /\ main_event_list (lists x) = []
  /\ map snd (frames (world x))
     = map snd (frames w)
         ++ [{| cmd := PS2EMU_CMD_SET_PORT_TYPE; cmd_data := SERIO_8042 |};
             {| cmd := PS2EMU_CMD_BEGIN; cmd_data := SERIO_8042 |}].
Proof.
  intros Hpv Hneg H H0.
  destruct (main_outcome _ _ _ _ _ _ H)
    as [(H1 & _)|(_ & _ & ch0 & v & ch2 & Hc & Hv & Hle & Hp & t1 & t2 & fs
                   & Hf & Hm)];
    [rewrite H1 in H0; discriminate|].
  injection Hc as <-. rewrite Hpv in Hv. injection Hv as <- <- ->.
  unfold parse_events in Hp.
  destruct (parse_loop_legacy_sections log_version ch1 ltac:(lia)
              _ _ _ _ _ _ _ Hp) as [Hi Hmn].
  cbn [init_event_list main_event_list no_events] in Hi, Hmn.
  split; [exact Hi|]. split; [exact Hmn|].
  unfold replayed in Hm.
  replace (log_version =? 0) with false in Hm
    by (symmetry; apply Z.eqb_neq; lia).
  rewrite Hi, Hmn in Hm. cbn in Hm.
  destruct fs; [|discriminate].
  rewrite Hf, map_app. reflexivity.
Qed.

End Logs.

Lemma X_main_replays_in_order_witness :
  exists log_version ch1,
    parse_log_version 0 sample_log None = (log_version, ch1, None)
    /\ log_version <= 1
    /\ parse_events spec_get_line_type spec_ps2_event_from_line
                    spec_section_type_from_line ch1 log_version no_events None
       = Ret (true, [], lists sample_exit, None)
    /\ map snd (frames (world sample_exit))
       = map snd (frames idle)
           ++ {| cmd := PS2EMU_CMD_SET_PORT_TYPE; cmd_data := SERIO_8042 |}
           :: {| cmd := PS2EMU_CMD_BEGIN; cmd_data := SERIO_8042 |}
           :: map frame_of
                  (interrupts (replayed log_version (lists sample_exit))).
Proof.
  apply (X_main_replays_in_order
           spec_get_line_type spec_ps2_event_from_line
           spec_section_type_from_line 1 0 "log" sample_log idle
           sample_exit).
  - vm_compute. reflexivity.
  - vm_compute. reflexivity.
Defined.

Lemma X_main_negative_version_witness :
  init_event_list (lists negative_exit) = []
  /\ main_event_list (lists negative_exit) = []
  /\ map snd (frames (world negative_exit))
     = map snd (frames idle)
         ++ [{| cmd := PS2EMU_CMD_SET_PORT_TYPE; cmd_data := SERIO_8042 |};
             {| cmd := PS2EMU_CMD_BEGIN; cmd_data := SERIO_8042 |}].
Proof.
  apply (X_main_negative_version_replays_nothing
           spec_get_line_type spec_ps2_event_from_line
           spec_section_type_from_line 1 0 "log" negative_log
           (map ChLine sample_legacy_body) (-1) None idle negative_exit).
  - vm_compute. reflexivity.
  - lia.
  - vm_compute. reflexivity.
  - vm_compute. reflexivity.
Defined.

(** The two runs: the versioned log replays its two interrupt events, the
    log of negative version holds two events and replays neither. *)
Lemma sample_runs :
  map snd (frames (world sample_exit))
  = [{| cmd := PS2EMU_CMD_SET_PORT_TYPE; cmd_data := 1 |};
     {| cmd := PS2EMU_CMD_BEGIN; cmd_data := 1 |};
     {| cmd := PS2EMU_CMD_SEND_INTERRUPT; cmd_data := 95 |};
     {| cmd := PS2EMU_CMD_SEND_INTERRUPT; cmd_data := 250 |}]
  /\ exit_code negative_exit = 0
  /\ List.length (event_list (lists negative_exit)) = 2%nat.
Proof. vm_compute. repeat split; reflexivity. Qed.

Lemma X_legacy_events_witness :
  parse_events spec_get_line_type spec_ps2_event_from_line
               spec_section_type_from_line
               (map ChLine sample_legacy_body) 0 no_events None
  = Ret (true, [],
         {| event_list :=
              legacy_events spec_ps2_event_from_line sample_legacy_body;
            init_event_list := []; main_event_list := [] |},
         None).
Proof.
  apply (X_legacy_events_in_input_order
           spec_get_line_type spec_ps2_event_from_line
           spec_section_type_from_line 0 sample_legacy_body).
  - lia.
  - reflexivity.
Defined.

Lemma X_parse_events_stops_witness :
  exists error,
    parse_events spec_get_line_type spec_ps2_event_from_line
                 spec_section_type_from_line
                 (map ChLine (firstn 3 sample_body)
                    ++ ChLine ("ps2emu: Fini" ++ Record.nl)
                    :: map ChLine (skipn 3 sample_body))
                 1 no_events None
    = Ret (false, map ChLine (skipn 3 sample_body),
           {| event_list := [];
              init_event_list :=
                rev (sequence spec_get_line_type spec_ps2_event_from_line
                              spec_section_type_from_line Init
                              (firstn 3 sample_body));
              main_event_list :=
                rev (sequence spec_get_line_type spec_ps2_event_from_line
                              spec_section_type_from_line Main
                              (firstn 3 sample_body)) |},
           error).
Proof.
  apply (X_parse_events_stops
           spec_get_line_type spec_ps2_event_from_line
           spec_section_type_from_line 1 (firstn 3 sample_body)
           ("ps2emu: Fini" ++ Record.nl)
           (map ChLine (skipn 3 sample_body))).
  - lia.
  - reflexivity.
  - reflexivity.
Defined.

Lemma X_parse_events_true_witness :
  well_formed spec_get_line_type spec_ps2_event_from_line
              spec_section_type_from_line None sample_body = true.
Proof.
  apply (X_parse_events_true_only_well_formed
           spec_get_line_type spec_ps2_event_from_line
           spec_section_type_from_line 1 sample_body no_events
           (reverse_lists 1
              (fold_left push
                 (tag_events spec_get_line_type spec_ps2_event_from_line
                             spec_section_type_from_line None sample_body)
                 no_events))
           [] None).
  - lia.
  - reflexivity.
Defined.

End ReplayFacts.
